(** * pythonic-redis: a verification development

    Shallow embedding of [pyredis/collections.py] and [pyredis/ttl.py]:
    Python-native collection interfaces whose storage is delegated to the
    native data structures of a remote key-value store. *)

From stdpp Require Import gmap strings list fin_maps.
From Stdlib Require Import ZArith Ascii.

Local Open Scope string_scope.
Local Open Scope list_scope.
Local Open Scope Z_scope.

(** * [_dict_eq]: the diff-based dictionary equality

    A dictionary is presented to [_dict_eq] through [len] and through its
    items iterator; it is modelled by the list of its items in iteration
    order, whose keys are pairwise distinct.  The two local stores of misses
    [am] and [bm] are Python dicts, modelled as [gmap]. *)

Module DictEq.
Section dict_eq.
Context {K V : Type} `{Countable K} `{EqDecision V}.

(** Why the loop stopped. *)
Inductive loop_exit :=
| ValueMismatch                  (* one of the [return False] on values *)
| TooManyMisses                  (* [len(am) + len(bm) > size] *)
| StopIteration                  (* [next(bi)] on an exhausted iterator *)
| Finished (am bm : gmap K V).   (* the [for] loop ran to its end *)

Inductive step_result :=
| Continue (am bm : gmap K V)
| Stop (why : loop_exit).

(** The [else] branch, first half: [ak] against the misses of [b]. *)
Definition match_a (ak : K) (av : V) (am bm : gmap K V) : step_result :=
  match bm !! ak with
  | Some w => if decide (w = av) then Continue am (delete ak bm)
              else Stop ValueMismatch
  | None => Continue (<[ak:=av]> am) bm
  end.

(** The [else] branch, second half: [bk] against the misses of [a]. *)
Definition match_b (bk : K) (bv : V) (am bm : gmap K V) : step_result :=
  match am !! bk with
  | Some v => if decide (v = bv) then Continue (delete bk am) bm
              else Stop ValueMismatch
  | None => Continue am (<[bk:=bv]> bm)
  end.

(** One iteration of the loop body, up to the size check. *)
Definition compare_item (ai bi : K * V) (am bm : gmap K V) : step_result :=
  let '(ak, av) := ai in
  let '(bk, bv) := bi in
  if decide (ak = bk) then
    if decide (av ≠ bv) then Stop ValueMismatch else Continue am bm
  else
    match match_a ak av am bm with
    | Continue am1 bm1 => match_b bk bv am1 bm1
    | Stop why => Stop why
    end.

Fixpoint compare_items (size : nat) (a b : list (K * V))
    (am bm : gmap K V) : loop_exit :=
  match a with
  | [] => Finished am bm
  | ai :: a' =>
    match b with
    | [] => StopIteration
    | bi :: b' =>
      match compare_item ai bi am bm with
      | Stop why => why
      | Continue am' bm' =>
        if decide (size < base.size am' + base.size bm')%nat
        then TooManyMisses
        else compare_items size a' b' am' bm'
      end
    end
  end.

Inductive outcome := Return (r : bool) | Raise_StopIteration.

Definition _dict_eq (a b : list (K * V)) : outcome :=
  let size := length a in
  if decide (size ≠ length b) then Return false
  else
    match compare_items size a b ∅ ∅ with
    | Finished am bm =>
        Return (bool_decide (base.size am + base.size bm = 0)%nat)
    | StopIteration => Raise_StopIteration
    | ValueMismatch | TooManyMisses => Return false
    end.

(** ** The loop invariant

    [Ma] and [Mb] hold the items already consumed from each iterator:
    the misses are exactly the two differences, and the keys consumed on
    both sides carry equal values. *)
Record inv (Ma Mb am bm : gmap K V) : Prop := {
  inv_am : am = Ma ∖ Mb;
  inv_bm : bm = Mb ∖ Ma;
  inv_agree : ∀ k v w, Ma !! k = Some v → Mb !! k = Some w → v = w
}.

Lemma inv_empty : inv ∅ ∅ ∅ ∅.
Proof.
  split; [by rewrite map_difference_diag..|].
  intros k v w Hk. by rewrite lookup_empty in Hk.
Qed.

Definition mismatch (Ma Mb : gmap K V) : Prop :=
  ∃ k v w, Ma !! k = Some v ∧ Mb !! k = Some w ∧ v ≠ w.

Ltac lookups :=
  repeat (rewrite lookup_delete || rewrite lookup_insert
          || rewrite lookup_difference);
  repeat case_decide; simplify_eq;
  repeat match goal with
         | Hl : ?m !! ?i = _ |- context [?m !! ?i] => rewrite Hl
         end;
  repeat case_match; simplify_eq; try done.

Ltac pointwise := let k := fresh "k" in apply map_eq; intros k; lookups.

Ltac agree :=
  let k := fresh "k" in
  intros k ? ?; lookups; intros; simplify_eq; eauto.

Lemma compare_item_spec Ma Mb am bm ak av bk bv :
  inv Ma Mb am bm → Ma !! ak = None → Mb !! bk = None →
  match compare_item (ak, av) (bk, bv) am bm with
  | Continue am' bm' => inv (<[ak:=av]> Ma) (<[bk:=bv]> Mb) am' bm'
  | Stop ValueMismatch => mismatch (<[ak:=av]> Ma) (<[bk:=bv]> Mb)
  | Stop _ => False
  end.
Proof.
  intros [-> -> Hag] Ha Hb. unfold compare_item.
  destruct (decide (ak = bk)) as [<-|Hne].
  - destruct (decide (av ≠ bv)) as [Hv|Hv].
    + exists ak, av, bv. by rewrite !lookup_insert_eq.
    + apply dec_stable in Hv as <-. split; [pointwise..|].
      agree.
  - unfold match_a. rewrite lookup_difference, Ha.
    destruct (Mb !! ak) as [w|] eqn:Hbak.
    + destruct (decide (w = av)) as [->|Hw].
      * unfold match_b. rewrite lookup_difference, Hb.
        destruct (Ma !! bk) as [v|] eqn:Habk.
        -- destruct (decide (v = bv)) as [->|Hv].
           ++ split; [pointwise..|]. agree.
           ++ exists bk, v, bv. by lookups.
        -- split; [pointwise..|]. agree.
      * exists ak, av, w. by lookups.
    + unfold match_b. rewrite lookup_insert_ne, lookup_difference, Hb by done.
      destruct (Ma !! bk) as [v|] eqn:Habk.
      * destruct (decide (v = bv)) as [->|Hv].
        -- split; [pointwise..|]. agree.
        -- exists bk, v, bv. by lookups.
      * split; [pointwise..|]. agree.
Qed.

Lemma misses_bounded Ma Mb am bm (a b : list (K * V)) :
  inv Ma Mb am bm → NoDup a.*1 →
  Ma ∪ list_to_map a = Mb ∪ list_to_map b →
  (size am + size bm ≤ size Ma + length a)%nat.
Proof.
  intros [-> -> _] Hnd Heq.
  assert (size (Ma ∖ Mb) ≤ size Ma)%nat.
  { apply map_subseteq_size, map_subseteq_spec. intros k v.
    rewrite lookup_difference_Some. tauto. }
  assert (size (Mb ∖ Ma) ≤ length a)%nat; [|lia].
  rewrite <-(map_size_list_to_map (M:=gmap K) a) by done.
  rewrite <-!size_dom. apply subseteq_size. intros k.
  rewrite !elem_of_dom. intros [w [Hw Hn]%lookup_difference_Some].
  assert (Hk : (Mb ∪ list_to_map b) !! k = Some w)
    by by apply lookup_union_Some_l.
  rewrite <-Heq in Hk. apply lookup_union_Some_raw in Hk as [?|[_ ?]];
    [congruence | eauto].
Qed.

Lemma mismatch_union (Ma Mb Ra Rb : gmap K V) :
  mismatch Ma Mb → mismatch (Ma ∪ Ra) (Mb ∪ Rb).
Proof.
  intros (k & v & w & ? & ? & ?). exists k, v, w.
  split_and!; [by apply lookup_union_Some_l..|done].
Qed.

(** The loop, started from any state that satisfies the invariant. *)
Lemma compare_items_spec n (a : list (K * V)) :
  ∀ (b : list (K * V)) Ma Mb am bm,
  inv Ma Mb am bm →
  NoDup a.*1 → NoDup b.*1 →
  (∀ k, k ∈ a.*1 → Ma !! k = None) →
  (∀ k, k ∈ b.*1 → Mb !! k = None) →
  length a = length b →
  (size Ma + length a ≤ n)%nat →
  match compare_items n a b am bm with
  | Finished am' bm' =>
      inv (Ma ∪ list_to_map a) (Mb ∪ list_to_map b) am' bm'
  | ValueMismatch => mismatch (Ma ∪ list_to_map a) (Mb ∪ list_to_map b)
  | TooManyMisses => Ma ∪ list_to_map a ≠ Mb ∪ list_to_map b
  | StopIteration => False
  end.
Proof.
  induction a as [|[ak av] a IH]; intros [|[bk bv] b] Ma Mb am bm
    Hinv Hna Hnb Hfa Hfb Hlen Hsz; simplify_eq/=.
  { by rewrite !(right_id_L ∅ (∪)). }
  apply NoDup_cons in Hna as [Hak Hna]. apply NoDup_cons in Hnb as [Hbk Hnb].
  assert (Ma !! ak = None) as Ha by (apply Hfa; left).
  assert (Mb !! bk = None) as Hb by (apply Hfb; left).
  rewrite <-!insert_union_r, !insert_union_l by done.
  pose proof (compare_item_spec _ _ _ _ ak av bk bv Hinv Ha Hb) as Hstep.
  unfold compare_item in Hstep |- *. fold (compare_item (ak, av) (bk, bv) am bm) in *.
  destruct (compare_item (ak, av) (bk, bv) am bm) as [am' bm'|[]]; try done;
    [|by apply mismatch_union].
  assert (size (<[ak:=av]> Ma) + length a ≤ n)%nat
    by (rewrite map_size_insert_None by done; lia).
  case_decide as Hover.
  - intros Heq. pose proof (misses_bounded _ _ _ _ a b Hstep Hna Heq). lia.
  - apply IH; try done.
    + intros k Hk. rewrite lookup_insert_ne; [apply Hfa; by right|].
      intros ->. done.
    + intros k Hk. rewrite lookup_insert_ne; [apply Hfb; by right|].
      intros ->. done.
Qed.

Lemma inv_no_misses (Ma Mb : gmap K V) : inv Ma Mb ∅ ∅ → Ma = Mb.
Proof.
  intros [Ham Hbm Hag]. apply map_eq. intros k.
  destruct (Ma !! k) as [v|] eqn:Hv, (Mb !! k) as [w|] eqn:Hw; try done.
  - f_equal. eauto.
  - assert ((Ma ∖ Mb) !! k = Some v) as Hk by by apply lookup_difference_Some.
    by rewrite <-Ham, lookup_empty in Hk.
  - assert ((Mb ∖ Ma) !! k = Some w) as Hk by by apply lookup_difference_Some.
    by rewrite <-Hbm, lookup_empty in Hk.
Qed.

Lemma mismatch_ne (Ma Mb : gmap K V) : mismatch Ma Mb → Ma ≠ Mb.
Proof. intros (k & v & w & ? & ? & ?) ->. congruence. Qed.

(** "[a] and [b] contain exactly the same key-value pairs". *)
Definition same_items (a b : list (K * V)) : Prop :=
  ∀ k v, (k, v) ∈ a ↔ (k, v) ∈ b.

Lemma same_items_map (a b : list (K * V)) :
  NoDup a.*1 → NoDup b.*1 →
  same_items a b ↔ list_to_map a =@{gmap K V} list_to_map b.
Proof.
  intros Ha Hb. unfold same_items. split.
  - intros Hs. apply map_eq. intros k. apply option_eq. intros v.
    by rewrite <-!elem_of_list_to_map.
  - intros Heq k v. by rewrite !elem_of_list_to_map, Heq.
Qed.

Lemma compare_items_total (a b : list (K * V)) :
  NoDup a.*1 → NoDup b.*1 → length a = length b →
  match compare_items (length a) a b ∅ ∅ with
  | Finished am bm =>
      inv (list_to_map a) (list_to_map b) am bm
  | ValueMismatch | TooManyMisses =>
      list_to_map a ≠@{gmap K V} list_to_map b
  | StopIteration => False
  end.
Proof.
  intros Ha Hb Hlen.
  pose proof (compare_items_spec (length a) a b ∅ ∅ ∅ ∅ inv_empty Ha Hb)
    as Hspec.
  rewrite !(left_id_L ∅ (∪)), map_size_empty in Hspec.
  specialize (Hspec (λ _ _, lookup_empty _) (λ _ _, lookup_empty _) Hlen
                    (Nat.le_refl _)).
  destruct (compare_items _ _ _ _ _); auto using mismatch_ne.
Qed.

(** C1. For dictionaries [a] and [b] (items in any iteration order, keys
    pairwise distinct), [_dict_eq a b] always returns, and returns [True]
    exactly when [a] and [b] contain the same key-value pairs; it returns
    [False] whenever the lengths differ; and on equal dictionaries the
    early exit [len(am) + len(bm) > size] never fires: the loop runs to
    its end and leaves both stores of misses empty. *)
Theorem dict_eq_correct (a b : list (K * V)) :
  NoDup a.*1 → NoDup b.*1 →
  (_dict_eq a b = Return true ↔ same_items a b) ∧
  (_dict_eq a b = Return false ↔ ¬ same_items a b) ∧
  (length a ≠ length b → _dict_eq a b = Return false) ∧
  (same_items a b →
     compare_items (length a) a b ∅ ∅ ≠ TooManyMisses ∧
     compare_items (length a) a b ∅ ∅ = Finished ∅ ∅).
Proof.
  intros Ha Hb. rewrite (same_items_map a b Ha Hb).
  assert (Hlen : list_to_map a =@{gmap K V} list_to_map b →
                 length a = length b).
  { intros Heq. rewrite <-(map_size_list_to_map (M:=gmap K) a) by done.
    by rewrite Heq, map_size_list_to_map. }
  assert (Hloop : list_to_map a =@{gmap K V} list_to_map b →
                  compare_items (length a) a b ∅ ∅ = Finished ∅ ∅).
  { intros Heq. pose proof (compare_items_total a b Ha Hb (Hlen Heq)) as Ht.
    destruct (compare_items _ _ _ _ _) as [| | |am bm]; try done.
    destruct Ht as [-> -> _]. by rewrite Heq, map_difference_diag. }
  assert (Hdec : _dict_eq a b = Return true ↔
                 list_to_map a =@{gmap K V} list_to_map b).
  { unfold _dict_eq. case_decide as Hl.
    { split; [done|]. intros Heq. by apply Hlen in Heq. }
    pose proof (compare_items_total a b Ha Hb Hl) as Ht.
    destruct (compare_items _ _ _ _ _) as [| | |am bm]; try done.
    split.
    - intros [= Hsz%bool_decide_eq_true].
      assert (am = ∅) as -> by (apply map_size_empty_iff; lia).
      assert (bm = ∅) as -> by (apply map_size_empty_iff; lia).
      by apply inv_no_misses.
    - intros Heq. destruct Ht as [-> -> _].
      by rewrite Heq, map_difference_diag. }
  split_and!; [done| | |].
  - rewrite <-Hdec. unfold _dict_eq. case_decide as Hl; [done|].
    pose proof (compare_items_total a b Ha Hb Hl) as Ht.
    destruct (compare_items _ _ _ _ _); try done.
    case_bool_decide; split; congruence.
  - intros Hl. unfold _dict_eq. by rewrite decide_True.
  - intros Heq. rewrite (Hloop Heq). done.
Qed.

End dict_eq.

(** Two iteration orders of the dictionary [{'a': 1, 'b': 2, 'c': 3}]. *)
Definition abc : list (string * Z) := [("a", 1); ("b", 2); ("c", 3)].
Definition cab : list (string * Z) := [("c", 3); ("a", 1); ("b", 2)].

Example dict_eq_abc_cab : _dict_eq abc cab = Return true.
Proof. vm_compute. reflexivity. Qed.

Example dict_eq_value_differs :
  _dict_eq abc [("c", 3); ("a", 1); ("b", 7)] = Return false.
Proof. vm_compute. reflexivity. Qed.

Example dict_eq_key_differs :
  _dict_eq abc [("c", 3); ("a", 1); ("d", 2)] = Return false.
Proof. vm_compute. reflexivity. Qed.

Lemma dict_eq_correct_witness :
  NoDup abc.*1 ∧ NoDup cab.*1 ∧ same_items abc cab.
Proof.
  assert (NoDup abc.*1) as Ha by (apply (bool_decide_unpack _); vm_compute; exact I).
  assert (NoDup cab.*1) as Hb by (apply (bool_decide_unpack _); vm_compute; exact I).
  split_and!; [done..|].
  apply (dict_eq_correct abc cab Ha Hb). vm_compute. reflexivity.
Defined.

End DictEq.

(** * Python values

    The objects the library receives as keys and values.  [bytes] are
    byte strings; Rocq's [string] is a list of 8-bit characters. *)

Abbreviation bytes := string.

Set Warnings "-register-all".

Inductive pyval :=
| PyNone
| PyBool (b : bool)
| PyInt (z : Z)
| PyStr (s : string)
| PyBytes (s : bytes)
| PyTuple (l : list pyval)
| PyList (l : list pyval)
| PySet (l : list pyval)             (* elements, in iteration order *)
| PyDict (l : list (pyval * pyval))  (* items, in iteration order *)
| PyScores (l : list (pyval * Z)).   (* a mapping of members to scores that
                                        also has [index], such as a
                                        [RedisSortedSet] *)

(** The exceptions raised by the library or passing through it. *)
Inductive exn :=
| KeyError
| TypeError
| ValueError
| IndexError
| NotImplementedError
| ResponseError      (* redis.exceptions.ResponseError: an error reply *)
| UnpicklingError.   (* raised by a [loads] on bytes it cannot decode *)

Inductive result (A : Type) :=
| Ok (a : A)
| Raise (e : exn).
Arguments Ok {A} a.
Arguments Raise {A} e.

Global Instance exn_eq_dec : EqDecision exn.
Proof. solve_decision. Defined.

(** [key.__hash__()]: lists, sets and mappings have [__hash__ = None], and
    the hash of a tuple hashes its elements. *)
Fixpoint hashable (v : pyval) : bool :=
  match v with
  | PyNone | PyBool _ | PyInt _ | PyStr _ | PyBytes _ => true
  | PyTuple l => forallb hashable l
  | PyList _ | PySet _ | PyDict _ | PyScores _ => false
  end.

(** [dir(value)], restricted to the attribute names [ObjectRedis.set] asks
    about. *)
Definition dir (v : pyval) : list string :=
  match v with
  | PyList _ => ["__getitem__"; "__imul__"; "__iter__"; "index"]
  | PySet _ => ["__iter__"; "__xor__"]
  | PyDict _ => ["__getitem__"; "__iter__"; "values"]
  | PyScores _ => ["__getitem__"; "__iter__"; "index"; "values"]
  | PyStr _ | PyBytes _ | PyTuple _ => ["__getitem__"; "__iter__"; "index"]
  | PyBool _ | PyInt _ => ["__xor__"]
  | PyNone => []
  end.

(** [x in d] for a list of names. *)
Definition contains (d : list string) (x : string) : bool :=
  bool_decide (x ∈ d).

(** Iterating over a value: [for item in value]. *)
Definition py_iter (v : pyval) : result (list pyval) :=
  match v with
  | PyList l | PySet l | PyTuple l => Ok l
  | PyDict d => Ok d.*1
  | PyScores z => Ok z.*1
  | PyStr s => Ok ((λ c, PyStr (String c "")) <$> String.list_ascii_of_string s)
  | PyBytes s =>
      Ok ((λ c, PyInt (Z.of_nat (Ascii.nat_of_ascii c))) <$> String.list_ascii_of_string s)
  | PyNone | PyBool _ | PyInt _ => Raise TypeError
  end.

(** The items of a mapping, as [MutableMapping.update] reads them. *)
Definition py_items (v : pyval) : result (list (pyval * pyval)) :=
  match v with
  | PyDict d => Ok d
  | PyScores z => Ok (prod_map id PyInt <$> z)
  | _ => Raise TypeError
  end.

(** [v + 0] and [v + 0.0]: defined on numbers only.  Scores and clock values
    are kept as integers (think of microseconds); rounding to a double is
    not modelled. *)
Definition as_score (v : pyval) : result Z :=
  match v with
  | PyInt z => Ok z
  | PyBool b => Ok (if b then 1 else 0)
  | _ => Raise TypeError
  end.

(** The items of a mapping of scores, as [dict.update] followed by [v + 0]
    reads them. *)
Definition py_scores (v : pyval) : result (list (pyval * Z)) :=
  match v with
  | PyScores z => Ok z
  | PyDict d =>
      foldr (λ '(k, x) acc,
               match as_score x, acc with
               | Ok s, Ok l => Ok ((k, s) :: l)
               | Raise e, _ | _, Raise e => Raise e
               end) (Ok []) d
  | _ => Raise TypeError
  end.

(** A pluggable codec: an object with [dumps] and [loads]. *)
Record codec := Codec {
  dumps : pyval → bytes;
  loads : bytes → result pyval
}.

(** * The remote store

    The store is an external collaborator, reached only through commands and
    their replies.  This is a model of the commands the library sends, after
    the documentation of the store's commands: a keyspace of typed values
    ([data]) and a table of times to live ([expires]).  The store's clock
    and its eviction of expired keys are not modelled. *)

Module Store.

Inductive rvalue :=
| RString (b : bytes)
| RList (l : list bytes)
| RSet (s : gset bytes)
| RHash (h : gmap bytes bytes)
| RZSet (z : gmap bytes Z)
| RStream.   (* a type the library has no wrapper for *)

Record database := Database {
  data : gmap bytes rvalue;
  expires : gmap bytes Z
}.

Definition empty : database := Database ∅ ∅.

Inductive side := BEFORE | AFTER.

Inductive bound := NegInf | Score (s : Z) | PosInf.

Inductive cmd :=
| TYPE (k : bytes)
| GET (k : bytes)
| SET (k v : bytes)
| SETEX (k : bytes) (seconds : Z) (v : bytes)
| DEL (k : bytes)
| EXPIRE (k : bytes) (seconds : Z)
| RPUSH (k : bytes) (vs : list bytes)
| LLEN (k : bytes)
| LINDEX (k : bytes) (i : Z)
| LSET (k : bytes) (i : Z) (v : bytes)
| LINSERT (k : bytes) (w : side) (pivot v : bytes)
| LREM (k : bytes) (count : Z) (v : bytes)
| LRANGE (k : bytes) (start stop : Z)
| SADD (k : bytes) (vs : list bytes)
| SSCAN (k : bytes)
| HSET (k f v : bytes)
| HDEL (k f : bytes)
| HSCAN (k : bytes)
| ZADD (k : bytes) (pairs : list (Z * bytes))
| ZREM (k m : bytes)
| ZSCORE (k m : bytes)
| ZCARD (k : bytes)
| ZSCAN (k : bytes)
| ZREMRANGEBYSCORE (k : bytes) (lo hi : bound).

Inductive reply :=
| Status (s : string)
| Int (n : Z)
| Bulk (b : option bytes)
| Multi (l : list bytes)
| Pairs (l : list (bytes * bytes))
| Scored (l : list (bytes * Z))
| Double (s : option Z)
| Error (msg : string).

Definition wrongtype : reply :=
  Error "WRONGTYPE Operation against a key holding the wrong kind of value".

Definition put (k : bytes) (v : rvalue) (d : database) : database :=
  Database (<[k:=v]> (data d)) (expires d).

Definition del (k : bytes) (d : database) : database :=
  Database (delete k (data d)) (delete k (expires d)).

(** A collection that becomes empty disappears from the keyspace. *)
Definition put_list (k : bytes) (l : list bytes) (d : database) : database :=
  if decide (l = []) then del k d else put k (RList l) d.

Definition put_hash (k : bytes) (h : gmap bytes bytes) (d : database)
    : database :=
  if decide (h = ∅) then del k d else put k (RHash h) d.

Definition put_zset (k : bytes) (z : gmap bytes Z) (d : database)
    : database :=
  if decide (z = ∅) then del k d else put k (RZSet z) d.

Definition type_name (v : option rvalue) : string :=
  match v with
  | None => "none"
  | Some (RString _) => "string"
  | Some (RList _) => "list"
  | Some (RSet _) => "set"
  | Some (RHash _) => "hash"
  | Some (RZSet _) => "zset"
  | Some RStream => "stream"
  end.

(** ** Lists *)

(** An index counted from the tail when negative; [None] out of range. *)
Definition norm_index (len : nat) (i : Z) : option nat :=
  let j := if decide (i < 0) then Z.of_nat len + i else i in
  if decide (0 ≤ j < Z.of_nat len) then Some (Z.to_nat j) else None.

(** [LINSERT]: next to the first occurrence of the pivot, if any. *)
Fixpoint linsert (w : side) (pivot v : bytes) (l : list bytes)
    : option (list bytes) :=
  match l with
  | [] => None
  | x :: l' =>
      if decide (x = pivot) then
        Some (match w with
              | BEFORE => v :: x :: l'
              | AFTER => x :: v :: l'
              end)
      else cons x <$> linsert w pivot v l'
  end.

(** [LREM] with a positive count: the first [count] occurrences go. *)
Fixpoint lrem_head (count : nat) (v : bytes) (l : list bytes) : list bytes :=
  match l with
  | [] => []
  | x :: l' =>
      match count with
      | O => l
      | S c => if decide (x = v) then lrem_head c v l'
               else x :: lrem_head count v l'
      end
  end.

Definition lrem (count : Z) (v : bytes) (l : list bytes) : list bytes :=
  if decide (0 < count) then lrem_head (Z.to_nat count) v l
  else if decide (count < 0) then
    reverse (lrem_head (Z.to_nat (- count)) v (reverse l))
  else filter (λ x, x ≠ v) l.

(** [LRANGE]: both ends inclusive, counted from the tail when negative and
    clipped to the list. *)
Definition lrange (start stop : Z) (l : list bytes) : list bytes :=
  let len := Z.of_nat (length l) in
  let s := Z.max 0 (if decide (start < 0) then len + start else start) in
  let e := Z.min (len - 1) (if decide (stop < 0) then len + stop else stop) in
  if decide (s ≤ e) then take (Z.to_nat (e - s + 1)) (drop (Z.to_nat s) l)
  else [].

(** ** Sorted sets *)

Definition zadd (pairs : list (Z * bytes)) (z : gmap bytes Z) : gmap bytes Z :=
  foldl (λ z' '(s, m), <[m:=s]> z') z pairs.

Definition above (lo : bound) (s : Z) : bool :=
  match lo with
  | NegInf => true
  | Score x => bool_decide (x ≤ s)
  | PosInf => false
  end.

Definition below (hi : bound) (s : Z) : bool :=
  match hi with
  | NegInf => false
  | Score x => bool_decide (s ≤ x)
  | PosInf => true
  end.

Definition in_range (lo hi : bound) (s : Z) : bool := above lo s && below hi s.

Definition zremrangebyscore (lo hi : bound) (z : gmap bytes Z) : gmap bytes Z :=
  filter (λ ms, in_range lo hi ms.2 = false) z.

(** ** The value under a key, read at one type

    A missing key reads as the empty collection; [None] is the answer
    [WRONGTYPE]. *)

Definition as_list (v : option rvalue) : option (list bytes) :=
  match v with
  | None => Some []
  | Some (RList l) => Some l
  | Some _ => None
  end.

Definition as_set (v : option rvalue) : option (gset bytes) :=
  match v with
  | None => Some ∅
  | Some (RSet s) => Some s
  | Some _ => None
  end.

Definition as_hash (v : option rvalue) : option (gmap bytes bytes) :=
  match v with
  | None => Some ∅
  | Some (RHash h) => Some h
  | Some _ => None
  end.

Definition as_zset (v : option rvalue) : option (gmap bytes Z) :=
  match v with
  | None => Some ∅
  | Some (RZSet z) => Some z
  | Some _ => None
  end.

Definition count (n : nat) : reply := Int (Z.of_nat n).

(** ** What each command does and answers *)

Definition exec (c : cmd) (d : database) : reply * database :=
  match c with
  | TYPE k => (Status (type_name (data d !! k)), d)
  | GET k =>
      match data d !! k with
      | None => (Bulk None, d)
      | Some (RString b) => (Bulk (Some b), d)
      | Some _ => (wrongtype, d)
      end
  | SET k v =>
      (Status "OK",
       Database (<[k:=RString v]> (data d)) (delete k (expires d)))
  | SETEX k seconds v =>
      if decide (0 < seconds) then
        (Status "OK",
         Database (<[k:=RString v]> (data d)) (<[k:=seconds]> (expires d)))
      else (Error "ERR invalid expire time in setex", d)
  | DEL k =>
      match data d !! k with
      | None => (Int 0, d)
      | Some _ => (Int 1, del k d)
      end
  | EXPIRE k seconds =>
      match data d !! k with
      | None => (Int 0, d)
      | Some _ =>
          if decide (0 < seconds) then
            (Int 1, Database (data d) (<[k:=seconds]> (expires d)))
          else (Int 1, del k d)
      end
  | RPUSH k vs =>
      if decide (vs = []) then
        (Error "ERR wrong number of arguments for 'rpush' command", d)
      else
        match as_list (data d !! k) with
        | Some l => (count (length (l ++ vs)), put k (RList (l ++ vs)) d)
        | None => (wrongtype, d)
        end
  | LLEN k =>
      match as_list (data d !! k) with
      | Some l => (count (length l), d)
      | None => (wrongtype, d)
      end
  | LINDEX k i =>
      match as_list (data d !! k) with
      | Some l => (Bulk (norm_index (length l) i ≫= λ j, l !! j), d)
      | None => (wrongtype, d)
      end
  | LSET k i v =>
      match data d !! k with
      | None => (Error "ERR no such key", d)
      | Some (RList l) =>
          match norm_index (length l) i with
          | Some j => (Status "OK", put k (RList (<[j:=v]> l)) d)
          | None => (Error "ERR index out of range", d)
          end
      | Some _ => (wrongtype, d)
      end
  | LINSERT k w pivot v =>
      match data d !! k with
      | None => (Int 0, d)
      | Some (RList l) =>
          match linsert w pivot v l with
          | Some l' => (count (length l'), put k (RList l') d)
          | None => (Int (-1), d)
          end
      | Some _ => (wrongtype, d)
      end
  | LREM k n v =>
      match as_list (data d !! k) with
      | Some l =>
          let l' := lrem n v l in
          (count (length l - length l'), put_list k l' d)
      | None => (wrongtype, d)
      end
  | LRANGE k start stop =>
      match as_list (data d !! k) with
      | Some l => (Multi (lrange start stop l), d)
      | None => (wrongtype, d)
      end
  | SADD k vs =>
      if decide (vs = []) then
        (Error "ERR wrong number of arguments for 'sadd' command", d)
      else
        match as_set (data d !! k) with
        | Some s =>
            let s' := s ∪ list_to_set vs in
            (count (size s' - size s), put k (RSet s') d)
        | None => (wrongtype, d)
        end
  | SSCAN k =>
      match as_set (data d !! k) with
      | Some s => (Multi (elements s), d)
      | None => (wrongtype, d)
      end
  | HSET k f v =>
      match as_hash (data d !! k) with
      | Some h =>
          (Int (if h !! f is Some _ then 0 else 1),
           put k (RHash (<[f:=v]> h)) d)
      | None => (wrongtype, d)
      end
  | HDEL k f =>
      match as_hash (data d !! k) with
      | Some h =>
          match h !! f with
          | Some _ => (Int 1, put_hash k (delete f h) d)
          | None => (Int 0, d)
          end
      | None => (wrongtype, d)
      end
  | HSCAN k =>
      match as_hash (data d !! k) with
      | Some h => (Pairs (map_to_list h), d)
      | None => (wrongtype, d)
      end
  | ZADD k pairs =>
      if decide (pairs = []) then
        (Error "ERR wrong number of arguments for 'zadd' command", d)
      else
        match as_zset (data d !! k) with
        | Some z =>
            let z' := zadd pairs z in
            (count (size z' - size z), put k (RZSet z') d)
        | None => (wrongtype, d)
        end
  | ZREM k m =>
      match as_zset (data d !! k) with
      | Some z =>
          match z !! m with
          | Some _ => (Int 1, put_zset k (delete m z) d)
          | None => (Int 0, d)
          end
      | None => (wrongtype, d)
      end
  | ZSCORE k m =>
      match as_zset (data d !! k) with
      | Some z => (Double (z !! m), d)
      | None => (wrongtype, d)
      end
  | ZCARD k =>
      match as_zset (data d !! k) with
      | Some z => (count (size z), d)
      | None => (wrongtype, d)
      end
  | ZSCAN k =>
      match as_zset (data d !! k) with
      | Some z => (Scored (map_to_list z), d)
      | None => (wrongtype, d)
      end
  | ZREMRANGEBYSCORE k lo hi =>
      match as_zset (data d !! k) with
      | Some z =>
          let z' := zremrangebyscore lo hi z in
          (count (size z - size z'), put_zset k z' d)
      | None => (wrongtype, d)
      end
  end.

(** Commands of other clients, which the store runs between ours. *)
Definition exec_all (cs : list cmd) (d : database) : database :=
  foldl (λ d' c, (exec c d').2) d cs.

End Store.

(** * The world a call runs in, and the monad of calls

    A call of the library sees the remote store, which other clients use
    too, and the generator of random tokens.  [sent] is the record of what
    this client has sent, in order; [others] is what other clients get
    through to the store: its n-th batch is run just before our n-th
    command (or block of queued commands). *)

Inductive event :=
| Cmd (c : Store.cmd)
| Begin (watches : list pyval)   (* [transaction(func, ...)] starts: the
                                    keys are watched; or a block of queued
                                    commands starts *)
| Commit                         (* ... and ends normally *)
| Abort.                         (* ... or with the exception of [func] *)

Record world := World {
  db : Store.database;
  sent : list event;
  others : list (list Store.cmd);
  random : nat → bytes;   (* the successive results of [_token()] *)
  drawn : nat
}.

Definition M (A : Type) : Type := world → result A * world.

Global Instance M_ret : MRet M := λ A a w, (Ok a, w).

Global Instance M_bind : MBind M := λ A B f m w,
  match m w with
  | (Ok a, w') => f a w'
  | (Raise e, w') => (Raise e, w')
  end.

Global Instance M_fmap : FMap M := λ A B f m,
  a ← m; mret (f a).

Definition raise {A} (e : exn) : M A := λ w, (Raise e, w).

(** A pure computation that may raise. *)
Definition lift {A} (r : result A) : M A := λ w, (r, w).

(** [try: m except e: handler] *)
Definition catch {A} (m : M A) (e : exn) (handler : M A) : M A := λ w,
  match m w with
  | (Raise e', w') => if decide (e' = e) then handler w' else (Raise e', w')
  | r => r
  end.

Fixpoint for_each {A} (f : A → M unit) (l : list A) : M unit :=
  match l with
  | [] => mret tt
  | x :: l' => f x;; for_each f l'
  end.

Fixpoint map_each {A B} (f : A → M B) (l : list A) : M (list B) :=
  match l with
  | [] => mret []
  | x :: l' => y ← f x; ys ← map_each f l'; mret (y :: ys)
  end.

(** [key.__hash__()] *)
Definition __hash__ (key : pyval) : M unit :=
  if hashable key then mret tt else raise TypeError.

(** [_token()]: 32 random letters and digits. *)
Definition _token : M bytes := λ w,
  (Ok (random w (drawn w)),
   World (db w) (sent w) (others w) (random w) (S (drawn w))).

(** * The client for the store (the [redis] package)

    Each method sends one command and decodes the reply; an error reply is
    raised as [ResponseError]. *)

Module redis.
Import Store.

Definition next_batch (w : world) : database :=
  exec_all (default [] (head (others w))) (db w).

Definition execute_command (c : cmd) : M reply := λ w,
  let '(r, d) := exec c (next_batch w) in
  (match r with Error _ => Raise ResponseError | _ => Ok r end,
   World d (sent w ++ [Cmd c]) (tail (others w)) (random w) (drawn w)).

Definition int_reply (r : reply) : M Z :=
  match r with Int n => mret n | _ => raise ResponseError end.

Definition status_reply (r : reply) : M string :=
  match r with Status s => mret s | _ => raise ResponseError end.

Definition bulk_reply (r : reply) : M (option bytes) :=
  match r with Bulk b => mret b | _ => raise ResponseError end.

Definition multi_reply (r : reply) : M (list bytes) :=
  match r with Multi l => mret l | _ => raise ResponseError end.

Definition type (name : bytes) : M bytes :=
  execute_command (TYPE name) ≫= status_reply.

Definition get (name : bytes) : M (option bytes) :=
  execute_command (GET name) ≫= bulk_reply.

Definition set (name value : bytes) : M string :=
  execute_command (SET name value) ≫= status_reply.

Definition setex (name : bytes) (time : Z) (value : bytes) : M string :=
  execute_command (SETEX name time value) ≫= status_reply.

Definition delete (name : bytes) : M Z :=
  execute_command (DEL name) ≫= int_reply.

Definition expire (name : bytes) (time : Z) : M Z :=
  execute_command (EXPIRE name time) ≫= int_reply.

Definition rpush (name : bytes) (values : list bytes) : M Z :=
  execute_command (RPUSH name values) ≫= int_reply.

Definition llen (name : bytes) : M Z :=
  execute_command (LLEN name) ≫= int_reply.

Definition lindex (name : bytes) (index : Z) : M (option bytes) :=
  execute_command (LINDEX name index) ≫= bulk_reply.

Definition lset (name : bytes) (index : Z) (value : bytes) : M string :=
  execute_command (LSET name index value) ≫= status_reply.

Definition linsert (name : bytes) (w : side) (refvalue value : bytes) : M Z :=
  execute_command (LINSERT name w refvalue value) ≫= int_reply.

Definition lrem (name : bytes) (count : Z) (value : bytes) : M Z :=
  execute_command (LREM name count value) ≫= int_reply.

Definition lrange (name : bytes) (start stop : Z) : M (list bytes) :=
  execute_command (LRANGE name start stop) ≫= multi_reply.

Definition sadd (name : bytes) (values : list bytes) : M Z :=
  execute_command (SADD name values) ≫= int_reply.

(** The [*scan_iter] methods, read to their end. *)
Definition sscan_iter (name : bytes) : M (list bytes) :=
  execute_command (SSCAN name) ≫= multi_reply.

Definition hset (name key value : bytes) : M Z :=
  execute_command (HSET name key value) ≫= int_reply.

Definition hdel (name key : bytes) : M Z :=
  execute_command (HDEL name key) ≫= int_reply.

Definition hscan_iter (name : bytes) : M (list (bytes * bytes)) :=
  r ← execute_command (HSCAN name);
  match r with Pairs l => mret l | _ => raise ResponseError end.

Definition zadd (name : bytes) (args : list (Z * bytes)) : M Z :=
  execute_command (ZADD name args) ≫= int_reply.

Definition zrem (name value : bytes) : M Z :=
  execute_command (ZREM name value) ≫= int_reply.

Definition zscore (name value : bytes) : M (option Z) :=
  r ← execute_command (ZSCORE name value);
  match r with Double s => mret s | _ => raise ResponseError end.

Definition zcard (name : bytes) : M Z :=
  execute_command (ZCARD name) ≫= int_reply.

Definition zscan_iter (name : bytes) : M (list (bytes * Z)) :=
  r ← execute_command (ZSCAN name);
  match r with Scored l => mret l | _ => raise ResponseError end.

Definition zremrangebyscore (name : bytes) (lo hi : bound) : M Z :=
  execute_command (ZREMRANGEBYSCORE name lo hi) ≫= int_reply.

(** [transaction(func, ...)] with keys to watch: the keys are watched and
    [func] is called with the pipeline.  A pipeline that is watching sends
    each command at once and returns its reply, until [multi()] is called;
    the functions of the library use these replies and never call
    [multi()], so their commands reach the store one by one, like any other
    command, with what other clients send in between.  Nothing is queued
    when [func] returns, so that the closing [execute()] sends nothing and
    cannot fail; what [func] has done when it raises stays done. *)
Definition transaction {A} (func : M A) (watches : list pyval) : M unit :=
  λ w,
  let '(r, w') :=
    func (World (db w) (sent w ++ [Begin watches]) (others w)
                (random w) (drawn w)) in
  (match r with Ok _ => Ok tt | Raise e => Raise e end,
   World (db w') (sent w' ++ [if r is Ok _ then Commit else Abort])
         (others w') (random w') (drawn w')).

(** [transaction] again, keeping what [func] has computed: the library's
    functions append it to a list [rbox] that the caller reads afterwards. *)
Definition run_transaction {A} (func : M A) (watches : list pyval) : M A :=
  λ w,
  let '(r, w') :=
    func (World (db w) (sent w ++ [Begin watches]) (others w)
                (random w) (drawn w)) in
  (r, World (db w') (sent w' ++ [if r is Ok _ then Commit else Abort])
            (others w') (random w') (drawn w')).

(** [pipeline().a(...).b(...).execute()]: the queued commands run as one
    block with no command of another client in between, each of them even
    when the store has refused an earlier one; an error reply is then
    raised. *)
Definition run_block (cs : list cmd) (d : database) : list reply * database :=
  foldl (λ acc c, let '(r, d') := exec c acc.2 in (acc.1 ++ [r], d'))
        ([], d) cs.

Definition is_error (r : reply) : bool :=
  match r with Error _ => true | _ => false end.

Definition pipeline_execute (cs : list cmd) : M (list reply) := λ w,
  let '(rs, d) := run_block cs (next_batch w) in
  (if existsb is_error rs then Raise ResponseError else Ok rs,
   World d (sent w ++ Begin [] :: (Cmd <$> cs) ++ [Commit])
         (tail (others w)) (random w) (drawn w)).

End redis.

(** * [pyredis/collections.py]

    One module per class; [t] is the state of an instance (its [redis]
    attribute is the connection of the world it runs in).  The wrappers come
    before [ObjectRedis], which builds them. *)

Module RedisList.

Record t := RedisList { name : bytes; serializer : codec }.

Definition __getitem__ (self : t) (index : Z) : M pyval :=
  rval ← redis.lindex (name self) index;
  match rval with
  | None => raise IndexError
  | Some b => lift (loads (serializer self) b)
  end.

Definition __len__ (self : t) : M Z := redis.llen (name self).

(** [current] is [None] only where [lset] raises. *)
Definition __insert (self : t) (index : Z) (value : pyval) : M unit :=
  let value := dumps (serializer self) value in
  len ← redis.llen (name self);
  if decide (index >= len) then
    redis.rpush (name self) [value];; mret tt
  else
    current ← redis.lindex (name self) index;
    tok ← _token;
    let token := "-=-INSERTING-=-" +:+ tok in
    redis.lset (name self) index token;;
    redis.linsert (name self) Store.BEFORE token value;;
    redis.linsert (name self) Store.AFTER token (default "None" current);;
    redis.lrem (name self) 1 token;;
    mret tt.

Definition insert (self : t) (index : Z) (value : pyval) : M unit :=
  redis.transaction (__insert self index value) [PyBytes (name self)].

Definition append (self : t) (value : pyval) : M unit :=
  redis.rpush (name self) [dumps (serializer self) value];; mret tt.

Definition extend (self : t) (values : pyval) : M unit :=
  vs ← lift (py_iter values);
  redis.rpush (name self) (dumps (serializer self) <$> vs);; mret tt.

Definition clear (self : t) : M unit :=
  redis.delete (name self);; mret tt.

(** The generator, run to its end: [list(self)]. *)
Definition __iter__ (self : t) : M (list pyval) :=
  len ← __len__ self;
  xs ← redis.lrange (name self) 0 len;
  map_each (λ x, lift (loads (serializer self) x)) xs.

Definition __setitem__ (self : t) (index : Z) (value : pyval) : M unit :=
  redis.lset (name self) index (dumps (serializer self) value);; mret tt.

Definition __delitem__ (self : t) (index : Z) : M unit :=
  tok ← _token;
  let token := "-=-DELETING-=-" +:+ tok in
  redis.pipeline_execute
    [Store.LSET (name self) index token; Store.LREM (name self) 1 token];;
  mret tt.

Definition remove (self : t) (value : pyval) : M unit :=
  n ← redis.lrem (name self) 1 (dumps (serializer self) value);
  if decide (n = 0) then raise ValueError else mret tt.

(** The position of the first [x == bi] of the loop of [__index]. *)
Fixpoint first_at (bi : bytes) (xs : list bytes) (ix : Z) : option Z :=
  match xs with
  | [] => None
  | x :: xs' => if decide (x = bi) then Some ix else first_at bi xs' (ix + 1)
  end.

(** The result is what the function has put in [rbox]. *)
Definition __index (self : t) (value : pyval) (start : Z) (stop : option Z)
    : M (list Z) :=
  stop ← match stop with
         | None => redis.llen (name self)
         | Some n => mret n
         end;
  let bi := dumps (serializer self) value in
  xs ← redis.lrange (name self) start stop;
  mret (match first_at bi xs 0 with Some ix => [ix] | None => [] end).

Definition index (self : t) (value : pyval) (start : Z) (stop : option Z)
    : M Z :=
  rbox ← redis.run_transaction (__index self value start stop)
                               [PyBytes (name self)];
  match last rbox with
  | Some ix => mret ix
  | None => raise ValueError
  end.

Definition __contains__ (self : t) (item : pyval) : M bool :=
  catch (index self item 0 None;; mret true) ValueError (mret false).

Definition __reversed__ (self : t) : M (list pyval) :=
  xs ← __iter__ self; mret (reverse xs).

End RedisList.

Module RedisSet.

Record t := RedisSet { name : bytes; serializer : codec }.

Definition __iter__ (self : t) : M (list pyval) :=
  items ← redis.sscan_iter (name self);
  map_each (λ item, lift (loads (serializer self) item)) items.

(** The list comprehension of [update]: every item of every sublist, hashed
    and then serialized. *)
Fixpoint new_data (self : t) (items : list pyval) : result (list bytes) :=
  match items with
  | [] => Ok []
  | item :: items' =>
      if hashable item then
        match new_data self items' with
        | Ok bs => Ok (dumps (serializer self) item :: bs)
        | Raise e => Raise e
        end
      else Raise TypeError
  end.

Fixpoint flatten (others : list pyval) : result (list pyval) :=
  match others with
  | [] => Ok []
  | sublist :: others' =>
      match py_iter sublist, flatten others' with
      | Ok items, Ok rest => Ok (items ++ rest)
      | Raise e, _ | _, Raise e => Raise e
      end
  end.

Definition update (self : t) (others : list pyval) : M unit :=
  items ← lift (flatten others);
  new_data ← lift (new_data self items);
  if decide (length new_data ≠ 0%nat) then
    redis.sadd (name self) new_data;; mret tt
  else mret tt.

Definition add (self : t) (item : pyval) : M unit :=
  update self [PyTuple [item]].

Definition clear (self : t) : M unit :=
  redis.delete (name self);; mret tt.

End RedisSet.

Module RedisDict.

Record t := RedisDict {
  name : bytes;
  serializer : codec;
  key_serializer : codec
}.

Definition __setitem__ (self : t) (item value : pyval) : M unit :=
  __hash__ item;;
  redis.hset (name self) (dumps (key_serializer self) item)
             (dumps (serializer self) value);;
  mret tt.

Definition __delitem__ (self : t) (item : pyval) : M unit :=
  n ← redis.hdel (name self) (dumps (key_serializer self) item);
  if decide (n = 0) then raise KeyError else mret tt.

Definition clear (self : t) : M unit :=
  redis.delete (name self);; mret tt.

(** The generator [items], run to its end. *)
Definition items (self : t) : M (list (pyval * pyval)) :=
  kvs ← redis.hscan_iter (name self);
  map_each (λ '(k, v),
              k' ← lift (loads (key_serializer self) k);
              v' ← lift (loads (serializer self) v);
              mret (k', v')) kvs.

(** Inherited from [MutableMapping]: [self[key] = other[key]] for every key
    of the mapping [other]. *)
Definition update (self : t) (other : pyval) : M unit :=
  kvs ← lift (py_items other);
  for_each (λ '(k, v), __setitem__ self k v) kvs.

(** The generator [__iter__], run to its end. *)
Definition __iter__ (self : t) : M (list pyval) :=
  kvs ← redis.hscan_iter (name self);
  map_each (λ '(k, v), lift (loads (key_serializer self) k)) kvs.

End RedisDict.

Module RedisSortedSet.

Record t := RedisSortedSet { name : bytes; serializer : codec }.

Definition __contains__ (self : t) (item : pyval) : M bool :=
  s ← redis.zscore (name self) (dumps (serializer self) item);
  mret (bool_decide (s ≠ None)).

Definition items (self : t) : M (list (pyval * Z)) :=
  kvs ← redis.zscan_iter (name self);
  map_each (λ '(k, v),
              k' ← lift (loads (serializer self) k); mret (k', v)) kvs.

Definition __len__ (self : t) : M Z := redis.zcard (name self).

Definition __getitem__ (self : t) (key : pyval) : M Z :=
  rval ← redis.zscore (name self) (dumps (serializer self) key);
  match rval with
  | None => raise KeyError
  | Some s => mret s
  end.

(** Inherited from [Mapping]: [self[key]], or the default on [KeyError]. *)
Definition get (self : t) (key : pyval) (default : option Z) : M (option Z) :=
  catch (Some <$> __getitem__ self key) KeyError (mret default).

Definition __setitem__ (self : t) (key value : pyval) : M unit :=
  __hash__ key;;
  score ← lift (as_score value);
  redis.zadd (name self) [(score, dumps (serializer self) key)];;
  mret tt.

Definition __delitem__ (self : t) (value : pyval) : M unit :=
  n ← redis.zrem (name self) (dumps (serializer self) value);
  if decide (n = 0) then raise KeyError else mret tt.

Definition update (self : t) (other : pyval) : M unit :=
  new_stuff ← lift (py_scores other);
  redis.zadd (name self)
             ((λ '(k, v), (v, dumps (serializer self) k)) <$> new_stuff);;
  mret tt.

Definition clear (self : t) : M unit :=
  redis.delete (name self);; mret tt.

(** The generator [__iter__], run to its end. *)
Definition __iter__ (self : t) : M (list pyval) :=
  kvs ← redis.zscan_iter (name self);
  map_each (λ '(k, v), lift (loads (serializer self) k)) kvs.

End RedisSortedSet.

(** [key[n:]] on bytes. *)
Fixpoint slice_from (n : nat) (s : bytes) : bytes :=
  match n, s with
  | O, _ => s
  | S n', String _ s' => slice_from n' s'
  | S _, EmptyString => EmptyString
  end.

Module ObjectRedis.

Record t := ObjectRedis {
  namespace : option bytes;
  serializer : codec;
  key_serializer : codec;
  __missing__ : pyval → M pyval;
  __missing_ttl__ : pyval → M (option Z)
}.

(** What [__getitem__] returns: a stored object, or a wrapper of a stored
    collection. *)
Inductive item :=
| AValue (v : pyval)
| AList (l : RedisList.t)
| ASet (s : RedisSet.t)
| ADict (d : RedisDict.t)
| ASortedSet (z : RedisSortedSet.t).

(** The methods of the class that [__init__] leaves in place when no
    [missing] and no [missing_ttl] are given. *)
Definition default_missing (key : pyval) : M pyval := raise KeyError.

Definition default_missing_ttl (key : pyval) : M (option Z) := mret None.

(** [str_utf8 x] stands for the builtin expression
    [str(x).encode('utf-8')]. *)
Definition __init__ (str_utf8 : pyval → bytes) (namespace : option pyval)
    (serializer key_serializer : codec)
    (missing : option (pyval → M pyval))
    (missing_ttl : option (pyval → M (option Z))) : t :=
  {| namespace :=
       match namespace with
       | None => None
       | Some ns =>
           Some ((match ns with
                  | PyBytes b => if decide (b = "") then str_utf8 ns else b
                  | _ => str_utf8 ns
                  end) +:+ ":::")
       end;
     serializer := serializer;
     key_serializer := key_serializer;
     __missing__ := default default_missing missing;
     __missing_ttl__ := default default_missing_ttl missing_ttl |}.

Definition _ns (self : t) (key : pyval) : bytes :=
  match namespace self with
  | Some ns => ns +:+ dumps (key_serializer self) key
  | None => dumps (key_serializer self) key
  end.

Definition _dns (self : t) (key : bytes) : result pyval :=
  match namespace self with
  | Some ns =>
      if String.prefix ns key then
        loads (key_serializer self) (slice_from (String.length ns) key)
      else Raise ValueError
  | None => loads (key_serializer self) key
  end.

(** [if ttl is not None: pipe.expire(bkey, ttl)], the end of each of the
    four functions that [set] hands to [transaction]. *)
Definition expire_if (bkey : bytes) (ttl : option Z) : M unit :=
  match ttl with
  | Some seconds => redis.expire bkey seconds;; mret tt
  | None => mret tt
  end.

Definition set (self : t) (key value : pyval) (ttl : option Z) : M unit :=
  __hash__ key;;
  let bkey := _ns self key in
  let d := dir value in
  if contains d "__imul__" && contains d "__iter__" then
    let new_list :=
      let rl := RedisList.RedisList bkey (serializer self) in
      RedisList.clear rl;; RedisList.extend rl value;; expire_if bkey ttl in
    redis.transaction new_list [key]
  else if contains d "__xor__" && contains d "__iter__" then
    let new_set :=
      let rs := RedisSet.RedisSet bkey (serializer self) in
      RedisSet.clear rs;; RedisSet.update rs [value];; expire_if bkey ttl in
    redis.transaction new_set [key]
  else if contains d "__getitem__" && negb (contains d "index") then
    let new_hash :=
      let rd := RedisDict.RedisDict bkey (serializer self) (serializer self) in
      RedisDict.clear rd;; RedisDict.update rd value;; expire_if bkey ttl in
    redis.transaction new_hash [key]
  else if contains d "__getitem__" && contains d "values" then
    let new_zset :=
      let rz := RedisSortedSet.RedisSortedSet bkey (serializer self) in
      RedisSortedSet.clear rz;; RedisSortedSet.update rz value;;
      expire_if bkey ttl in
    redis.transaction new_zset [key]
  else
    match ttl with
    | None => redis.set bkey (dumps (serializer self) value);; mret tt
    | Some seconds =>
        redis.setex bkey seconds (dumps (serializer self) value);; mret tt
    end.

Definition __memoize (self : t) (key : pyval) : M pyval :=
  val ← __missing__ self key;
  ttl ← __missing_ttl__ self key;
  set self key val ttl;;
  mret val.

Definition __getitem__ (self : t) (key : pyval) : M item :=
  let rkey := _ns self key in
  rtype ← redis.type rkey;
  if decide (rtype = "none") then
    AValue <$> __memoize self key
  else if decide (rtype = "string") then
    bval ← redis.get rkey;
    match bval with
    | Some b => AValue <$> lift (loads (serializer self) b)
    | None => AValue <$> __memoize self key
    end
  else if decide (rtype = "list") then
    mret (AList (RedisList.RedisList rkey (serializer self)))
  else if decide (rtype = "set") then
    mret (ASet (RedisSet.RedisSet rkey (serializer self)))
  else if decide (rtype = "hash") then
    mret (ADict (RedisDict.RedisDict rkey (serializer self)
                                     (key_serializer self)))
  else if decide (rtype = "zset") then
    mret (ASortedSet (RedisSortedSet.RedisSortedSet rkey (serializer self)))
  else raise NotImplementedError.

Definition __setitem__ (self : t) (key value : pyval) : M unit :=
  set self key value None.

Definition __delitem__ (self : t) (key : pyval) : M unit :=
  n ← redis.delete (_ns self key);
  if decide (n = 0) then raise KeyError else mret tt.

End ObjectRedis.

(** * [pyredis/ttl.py] *)

Module RedisTime.

(** Times are integers, in microseconds: the store answers [TIME] with
    seconds and microseconds. *)
Record t := RedisTime {
  refresh_interval : Z;
  delta : Z;
  next_check : Z
}.

Definition __init__ (refresh_interval : Z) : t :=
  RedisTime refresh_interval 0 0.

(** [local] gives the successive readings of the local clock
    [time.time()] during the call, and [redis_time] the answer of the store
    to [TIME], should the call ask. *)
Definition time (self : t) (local : nat → Z) (redis_time : Z * Z) : Z * t :=
  if decide (next_check self < local 0%nat) then
    let '(sec, micros) := redis_time in
    let rclock := sec * 1000000 + micros in
    let now := local 1%nat in
    (rclock,
     RedisTime (refresh_interval self) (rclock - now)
               (now + refresh_interval self))
  else (delta self + local 1%nat, self).

End RedisTime.

Module RedisTTLSet.

(** [time] is the clock given to the constructor, any callable. *)
Record t := RedisTTLSet {
  name : bytes;
  serializer : codec;
  ttl : Z;
  time : M Z;
  dict : RedisSortedSet.t
}.

Definition __init__ (name : bytes) (ttl : Z) (serializer : codec)
    (time : M Z) : t :=
  {| name := name; serializer := serializer; ttl := ttl; time := time;
     dict := RedisSortedSet.RedisSortedSet name serializer |}.

Definition discard (self : t) (item : pyval) : M unit :=
  catch (RedisSortedSet.__delitem__ (dict self) item) KeyError (mret tt).

Definition __contains__ (self : t) (item : pyval) : M bool :=
  expiry ← RedisSortedSet.get (dict self) item None;
  match expiry with
  | None => mret false
  | Some e =>
      now ← time self;
      if decide (e < now) then discard self item;; mret false
      else mret true
  end.

Definition __cleanup (self : t) : M unit :=
  now ← time self;
  redis.zremrangebyscore (name self) Store.NegInf (Store.Score now);;
  mret tt.

Definition __len__ (self : t) : M Z :=
  __cleanup self;;
  RedisSortedSet.__len__ (dict self).

(** The generator, run to its end; the items of the sorted set are read
    when it starts. *)
Definition __iter__ (self : t) : M (list pyval) :=
  __cleanup self;;
  kvs ← RedisSortedSet.items (dict self);
  yielded ← map_each (λ '(k, v),
                        now ← time self;
                        if decide (v < now) then
                          c ← __contains__ self k;
                          mret (if c : bool then [k] else [])
                        else mret [k]) kvs;
  mret (concat yielded).

(** Building the [dict] of the new items hashes each of them. *)
Definition update (self : t) (other : list pyval) : M unit :=
  now ← time self;
  let t := now + ttl self in
  items ← lift (RedisSet.flatten other);
  for_each __hash__ items;;
  RedisSortedSet.update (dict self) (PyDict ((λ k, (k, PyInt t)) <$> items)).

Definition add (self : t) (item : pyval) : M unit :=
  now ← time self;
  RedisSortedSet.__setitem__ (dict self) item (PyInt (now + ttl self)).

Definition clear (self : t) : M unit := RedisSortedSet.clear (dict self).

End RedisTTLSet.

(** * A small codec and a quiet world, to run the library on examples *)

Module Example.

(** A codec for [None], booleans, text, bytes and one-byte integers. *)
Definition pickle_dumps (v : pyval) : bytes :=
  match v with
  | PyNone => "N"
  | PyBool true => "T"
  | PyBool false => "F"
  | PyStr s => String "S"%char s
  | PyBytes s => String "B"%char s
  | PyInt z => String "I"%char (String (Ascii.ascii_of_N (Z.to_N z)) "")
  | _ => "?"
  end.

Definition pickle_loads (b : bytes) : result pyval :=
  match b with
  | "N" => Ok PyNone
  | "T" => Ok (PyBool true)
  | "F" => Ok (PyBool false)
  | String "S"%char s => Ok (PyStr s)
  | String "B"%char s => Ok (PyBytes s)
  | String "I"%char (String c "") => Ok (PyInt (Z.of_N (Ascii.N_of_ascii c)))
  | _ => Raise UnpicklingError
  end.

Definition pickle : codec := Codec pickle_dumps pickle_loads.

(** No other client, and tokens that count up. *)
Definition tokens (n : nat) : bytes := String (Ascii.ascii_of_nat n) "tok".

Definition quiet (d : Store.database) : world := World d [] [] tokens 0.

Definition fresh : world := quiet Store.empty.

End Example.

(** * Namespaced keys *)

Section namespace.

Lemma prefix_app (a r : bytes) : String.prefix a (a +:+ r) = true.
Proof.
  induction a as [|c a IH]; simpl; [by destruct r|].
  by destruct (Ascii.ascii_dec c c).
Qed.

Lemma prefix_inv (a s : bytes) :
  String.prefix a s = true → ∃ r, s = a +:+ r.
Proof.
  revert s. induction a as [|c a IH]; intros s; simpl; [by exists s|].
  destruct s as [|c' s]; [done|]. simpl.
  destruct (Ascii.ascii_dec c c') as [->|]; [|done].
  intros [r ->]%IH. by exists r.
Qed.

Lemma slice_from_app (a r : bytes) :
  slice_from (String.length a) (a +:+ r) = r.
Proof. induction a as [|c a IH]; [done|exact IH]. Qed.

(** C7. Decoding a namespaced key gives the key back, for a key
    serializer whose [loads] undoes its [dumps] on that key: [_ns]
    prepends the namespace (the constructor's bytes followed by [:::])
    to the serialized key, or just serializes it when no namespace is
    set, and [_dns] raises [ValueError] on a stored key that does not
    start with the namespace. *)
Theorem dns_ns_roundtrip (self : ObjectRedis.t) (key : pyval) :
  loads (ObjectRedis.key_serializer self)
        (dumps (ObjectRedis.key_serializer self) key) = Ok key →
  ObjectRedis._dns self (ObjectRedis._ns self key) = Ok key ∧
  (∀ ns, ObjectRedis.namespace self = Some ns →
     ObjectRedis._ns self key
     = ns +:+ dumps (ObjectRedis.key_serializer self) key) ∧
  (ObjectRedis.namespace self = None →
     ObjectRedis._ns self key
     = dumps (ObjectRedis.key_serializer self) key) ∧
  (∀ ns stored, ObjectRedis.namespace self = Some ns →
     (∀ rest, stored ≠ ns +:+ rest) →
     ObjectRedis._dns self stored = Raise ValueError) ∧
  (∀ str_utf8 b s ks m mt, b ≠ "" →
     ObjectRedis.namespace
       (ObjectRedis.__init__ str_utf8 (Some (PyBytes b)) s ks m mt)
     = Some (b +:+ ":::")) ∧
  (∀ str_utf8 s ks m mt,
     ObjectRedis.namespace (ObjectRedis.__init__ str_utf8 None s ks m mt)
     = None).
Proof.
  intros Hrt. unfold ObjectRedis._dns, ObjectRedis._ns.
  split_and!.
  - destruct (ObjectRedis.namespace self) as [ns|]; [|done].
    by rewrite prefix_app, slice_from_app.
  - by intros ns ->.
  - by intros ->.
  - intros ns stored -> Hno.
    destruct (String.prefix ns stored) eqn:Hp; [|done].
    apply prefix_inv in Hp as [r ->]. by destruct (Hno r).
  - intros str_utf8 b s ks m mt Hb. simpl. by rewrite decide_False.
  - done.
Qed.

End namespace.

Lemma dns_ns_roundtrip_witness :
  let self := ObjectRedis.__init__ (λ _, "?") (Some (PyBytes "foo"))
                Example.pickle Example.pickle None None in
  ObjectRedis._ns self (PyStr "k") = "foo:::Sk" ∧
  ObjectRedis._dns self "foo:::Sk" = Ok (PyStr "k") ∧
  ObjectRedis._dns self "bar:::Sk" = Raise ValueError.
Proof.
  intros self.
  destruct (dns_ns_roundtrip self (PyStr "k") eq_refl)
    as (Hrt & Hns & _ & Hbad & _).
  split_and!.
  - exact (Hns "foo:::" eq_refl).
  - exact Hrt.
  - apply (Hbad "foo:::" "bar:::Sk" eq_refl). intros rest. discriminate.
Defined.

(** * Reasoning about calls *)

(** The store as our next command finds it: after the next batch of the
    other clients. *)
Definition seen (w : world) : Store.database := redis.next_batch w.

(** The world once a command of ours has been sent and answered. *)
Definition after (c : Store.cmd) (w : world) : world :=
  World (Store.exec c (seen w)).2 (sent w ++ [Cmd c]) (tail (others w))
        (random w) (drawn w).

Definition answer (c : Store.cmd) (w : world) : Store.reply :=
  (Store.exec c (seen w)).1.

Lemma execute_command_eq (c : Store.cmd) (w : world) :
  redis.execute_command c w
  = (match answer c w with
     | Store.Error _ => Raise ResponseError
     | _ => Ok (answer c w)
     end, after c w).
Proof.
  unfold redis.execute_command, answer, after, seen.
  by destruct (Store.exec c (redis.next_batch w)).
Qed.

Lemma bind_eq {A B} (m : M A) (f : A → M B) (w : world) :
  (m ≫= f) w = match m w with
               | (Ok a, w') => f a w'
               | (Raise e, w') => (Raise e, w')
               end.
Proof. done. Qed.

Lemma fmap_eq {A B} (f : A → B) (m : M A) (w : world) :
  (f <$> m) w = match m w with
                | (Ok a, w') => (Ok (f a), w')
                | (Raise e, w') => (Raise e, w')
                end.
Proof. unfold fmap, M_fmap. rewrite bind_eq. by destruct (m w) as [[a|e] w']. Qed.

(** Unfold one call down to the commands it sends. *)
Ltac step :=
  repeat (rewrite bind_eq || rewrite fmap_eq || rewrite execute_command_eq).

(** * Unhashable keys *)

Section unhashable.
Context (key : pyval) (Hkey : hashable key = false).

Lemma hash_raises (w : world) : __hash__ key w = (Raise TypeError, w).
Proof using Hkey. unfold __hash__. by rewrite Hkey. Qed.

Lemma new_data_raises (self : RedisSet.t) (items : list pyval) :
  key ∈ items → RedisSet.new_data self items = Raise TypeError.
Proof using Hkey.
  induction items as [|x items IH]; [by intros ?%elem_of_nil|].
  intros [->|Hin]%elem_of_cons; simpl.
  - by rewrite Hkey.
  - destruct (hashable x); [|done]. by rewrite IH.
Qed.

Lemma py_iter_raises (v : pyval) (e : exn) :
  py_iter v = Raise e → e = TypeError.
Proof. destruct v; naive_solver. Qed.

Lemma flatten_raises (others : list pyval) (e : exn) :
  RedisSet.flatten others = Raise e → e = TypeError.
Proof.
  induction others as [|o others IH]; simpl; [done|].
  destruct (py_iter o) as [?|e1] eqn:Ho.
  - destruct (RedisSet.flatten others) as [?|e2]; [done|].
    intros [= <-]. by apply IH.
  - intros [= <-]. by eapply py_iter_raises.
Qed.

Lemma flatten_elem (others : list pyval) (sub : pyval)
    (items all : list pyval) :
  sub ∈ others → py_iter sub = Ok items →
  RedisSet.flatten others = Ok all → key ∈ items → key ∈ all.
Proof.
  intros Hsub Hit. revert all.
  induction others as [|o others IH]; intros all;
    [by apply elem_of_nil in Hsub|].
  simpl. destruct (py_iter o) as [its|] eqn:Ho; [|done].
  destruct (RedisSet.flatten others) as [rest|]; [|done].
  intros [= <-] Hin. apply elem_of_app.
  apply elem_of_cons in Hsub as [->|Hsub].
  - left. congruence.
  - right. by apply IH.
Qed.

Lemma flatten_cases (others : list pyval) (sub : pyval) (items : list pyval) :
  sub ∈ others → py_iter sub = Ok items → key ∈ items →
  RedisSet.flatten others = Raise TypeError ∨
  ∃ all, RedisSet.flatten others = Ok all ∧ key ∈ all.
Proof.
  intros Hsub Hit Hin.
  destruct (RedisSet.flatten others) as [all|e] eqn:Hf.
  - right. exists all. eauto using flatten_elem.
  - left. f_equal. by eapply flatten_raises.
Qed.

(** C9. With an unhashable key, [ObjectRedis.set], [RedisDict.__setitem__]
    and [RedisSortedSet.__setitem__], and [RedisSet.update] with the key
    among the items of one of its arguments, raise [TypeError] and leave
    the world as it was: nothing was sent, so the store is unchanged. *)
Theorem unhashable_key_type_error (w : world) :
  (∀ self value ttl,
     ObjectRedis.set self key value ttl w = (Raise TypeError, w)) ∧
  (∀ self value,
     RedisDict.__setitem__ self key value w = (Raise TypeError, w)) ∧
  (∀ self value,
     RedisSortedSet.__setitem__ self key value w = (Raise TypeError, w)) ∧
  (∀ self others sub items,
     sub ∈ others → py_iter sub = Ok items → key ∈ items →
     RedisSet.update self others w = (Raise TypeError, w)).
Proof using Hkey.
  split_and!.
  - intros. unfold ObjectRedis.set. by rewrite bind_eq, hash_raises.
  - intros. unfold RedisDict.__setitem__. by rewrite bind_eq, hash_raises.
  - intros. unfold RedisSortedSet.__setitem__.
    by rewrite bind_eq, hash_raises.
  - intros self others sub items Hsub Hit Hin. unfold RedisSet.update.
    rewrite bind_eq. unfold lift at 1.
    destruct (flatten_cases others sub items Hsub Hit Hin)
      as [->|(all & -> & Hall)]; [done|].
    rewrite bind_eq. unfold lift. by rewrite new_data_raises.
Qed.

End unhashable.

Lemma unhashable_key_type_error_witness :
  let key := PyList [PyStr "nohash"] in
  let w := Example.fresh in
  hashable key = false ∧
  ObjectRedis.set (ObjectRedis.__init__ (λ _, "") None Example.pickle
                     Example.pickle None None) key (PyInt 1) (Some 5) w
  = (Raise TypeError, w) ∧
  RedisSet.update (RedisSet.RedisSet "foo" Example.pickle)
                  [PyTuple [PyStr "a"; key]] w
  = (Raise TypeError, w).
Proof.
  intros key w.
  destruct (unhashable_key_type_error key eq_refl w) as (Hset & _ & _ & Hupd).
  split_and!; [reflexivity|apply Hset|].
  apply (Hupd _ _ (PyTuple [PyStr "a"; key]) [PyStr "a"; key]);
    [by left|reflexivity|by right; left].
Defined.

(** * Deletion *)

Lemma seen_quiet (w : world) : others w = [] → seen w = db w.
Proof. unfold seen, redis.next_batch. by intros ->. Qed.

Lemma as_hash_put_hash k h d :
  Store.as_hash (Store.data (Store.put_hash k h d) !! k) = Some h.
Proof.
  unfold Store.put_hash. case_decide as Hh; simpl.
  - by rewrite lookup_delete_eq, Hh.
  - by rewrite lookup_insert_eq.
Qed.

Lemma as_zset_put_zset k z d :
  Store.as_zset (Store.data (Store.put_zset k z d) !! k) = Some z.
Proof.
  unfold Store.put_zset. case_decide as Hz; simpl.
  - by rewrite lookup_delete_eq, Hz.
  - by rewrite lookup_insert_eq.
Qed.

(** C10. Deleting a key raises [KeyError] exactly when the store answers
    that it removed nothing, which is exactly when the key is absent (from
    the keyspace, or from the hash or sorted set of the wrapper); the store
    is then as the command found it.  A key that is present is removed, and
    nothing is raised. *)
Theorem delitem_key_error (w : world) :
  (∀ (self : ObjectRedis.t) (key : pyval),
     let k := ObjectRedis._ns self key in
     let r := (ObjectRedis.__delitem__ self key w).1 in
     let w' := (ObjectRedis.__delitem__ self key w).2 in
     (r = Raise KeyError ↔ answer (Store.DEL k) w = Store.Int 0) ∧
     (r = Raise KeyError ↔ Store.data (seen w) !! k = None) ∧
     (r = Raise KeyError → db w' = seen w) ∧
     (is_Some (Store.data (seen w) !! k) →
        r = Ok tt ∧ Store.data (db w') = delete k (Store.data (seen w)))) ∧
  (∀ (self : RedisDict.t) (item : pyval),
     let f := dumps (RedisDict.key_serializer self) item in
     let r := (RedisDict.__delitem__ self item w).1 in
     let w' := (RedisDict.__delitem__ self item w).2 in
     (r = Raise KeyError
      ↔ answer (Store.HDEL (RedisDict.name self) f) w = Store.Int 0) ∧
     (r = Raise KeyError → db w' = seen w) ∧
     (∀ h, Store.as_hash (Store.data (seen w) !! RedisDict.name self) = Some h →
        (r = Raise KeyError ↔ h !! f = None) ∧
        (is_Some (h !! f) →
           r = Ok tt ∧
           Store.as_hash (Store.data (db w') !! RedisDict.name self)
           = Some (delete f h)))) ∧
  (∀ (self : RedisSortedSet.t) (value : pyval),
     let m := dumps (RedisSortedSet.serializer self) value in
     let r := (RedisSortedSet.__delitem__ self value w).1 in
     let w' := (RedisSortedSet.__delitem__ self value w).2 in
     (r = Raise KeyError
      ↔ answer (Store.ZREM (RedisSortedSet.name self) m) w = Store.Int 0) ∧
     (r = Raise KeyError → db w' = seen w) ∧
     (∀ z, Store.as_zset (Store.data (seen w) !! RedisSortedSet.name self)
           = Some z →
        (r = Raise KeyError ↔ z !! m = None) ∧
        (is_Some (z !! m) →
           r = Ok tt ∧
           Store.as_zset (Store.data (db w') !! RedisSortedSet.name self)
           = Some (delete m z)))).
Proof.
  split_and!.
  - intros self key k r w'. subst r w'.
    unfold ObjectRedis.__delitem__, redis.delete. fold k. step.
    unfold answer, after. simpl.
    destruct (Store.data (seen w) !! k) as [v|] eqn:Hk; simpl.
    + split_and!; done.
    + split_and!; done.
  - intros self item f r w'. subst r w'.
    unfold RedisDict.__delitem__, redis.hdel. fold f. step.
    unfold answer, after. simpl.
    destruct (Store.as_hash _) as [h|] eqn:Hh; simpl.
    + destruct (h !! f) as [v|] eqn:Hf; simpl.
      * split_and!; try done. intros ? [= <-]. rewrite Hf.
        split_and!; try done. intros _. split; [done|].
        apply as_hash_put_hash.
      * split_and!; try done. intros ? [= <-]. rewrite Hf.
        split_and!; done.
    + split_and!; try done.
  - intros self item f r w'. subst r w'.
    unfold RedisSortedSet.__delitem__, redis.zrem. fold f. step.
    unfold answer, after. simpl.
    destruct (Store.as_zset _) as [h|] eqn:Hh; simpl.
    + destruct (h !! f) as [v|] eqn:Hf; simpl.
      * split_and!; try done. intros ? [= <-]. rewrite Hf.
        split_and!; try done. intros _. split; [done|].
        apply as_zset_put_zset.
      * split_and!; try done. intros ? [= <-]. rewrite Hf.
        split_and!; done.
    + split_and!; try done.
Qed.

Lemma delitem_key_error_witness :
  let self := ObjectRedis.__init__ (λ _, "") None Example.pickle
                Example.pickle None None in
  let w := Example.quiet
             (Store.Database {[ "Sk" := Store.RString "I*" ]} ∅) in
  (ObjectRedis.__delitem__ self (PyStr "k") w).1 = Ok tt ∧
  (ObjectRedis.__delitem__ self (PyStr "absent") w).1 = Raise KeyError.
Proof.
  intros self w. destruct (delitem_key_error w) as (Hdel & _ & _). split.
  - destruct (Hdel self (PyStr "k")) as (_ & _ & _ & Hpresent).
    apply Hpresent. vm_compute. eauto.
  - destruct (Hdel self (PyStr "absent")) as (_ & Habsent & _).
    apply Habsent. vm_compute. reflexivity.
Defined.

(** * [ObjectRedis.__getitem__] *)

Definition loaded (r : result pyval) : result ObjectRedis.item :=
  match r with
  | Ok v => Ok (ObjectRedis.AValue v)
  | Raise e => Raise e
  end.

Lemma type_eq (k : bytes) (w : world) :
  redis.type k w
  = (Ok (Store.type_name (Store.data (seen w) !! k)), after (Store.TYPE k) w).
Proof. unfold redis.type. by step. Qed.

Lemma get_eq (k : bytes) (w : world) :
  redis.get k w
  = (match Store.data (seen w) !! k with
     | None => Ok None
     | Some (Store.RString b) => Ok (Some b)
     | Some _ => Raise ResponseError
     end, after (Store.GET k) w).
Proof.
  unfold redis.get. step. unfold answer, after. simpl.
  by destruct (Store.data (seen w) !! k) as [[]|].
Qed.

Lemma seen_after_quiet (c : Store.cmd) (w : world) :
  others w = [] → seen (after c w) = (Store.exec c (db w)).2.
Proof.
  intros Hq. unfold seen at 1, redis.next_batch, after. simpl.
  by rewrite Hq, (seen_quiet w Hq).
Qed.

(** The dispatch, with the answer to [TYPE] put in. *)
Definition dispatch (self : ObjectRedis.t) (key : pyval) (rtype : bytes)
    : M ObjectRedis.item :=
  let rkey := ObjectRedis._ns self key in
  let missing := ObjectRedis.AValue <$> ObjectRedis.__memoize self key in
  if decide (rtype = "none") then missing
  else if decide (rtype = "string") then
    bval ← redis.get rkey;
    match bval with
    | Some b => ObjectRedis.AValue
                  <$> lift (loads (ObjectRedis.serializer self) b)
    | None => missing
    end
  else if decide (rtype = "list") then
    mret (ObjectRedis.AList
            (RedisList.RedisList rkey (ObjectRedis.serializer self)))
  else if decide (rtype = "set") then
    mret (ObjectRedis.ASet
            (RedisSet.RedisSet rkey (ObjectRedis.serializer self)))
  else if decide (rtype = "hash") then
    mret (ObjectRedis.ADict
            (RedisDict.RedisDict rkey (ObjectRedis.serializer self)
               (ObjectRedis.key_serializer self)))
  else if decide (rtype = "zset") then
    mret (ObjectRedis.ASortedSet
            (RedisSortedSet.RedisSortedSet rkey
               (ObjectRedis.serializer self)))
  else raise NotImplementedError.

Lemma getitem_eq (self : ObjectRedis.t) (key : pyval) (w : world) :
  let rkey := ObjectRedis._ns self key in
  ObjectRedis.__getitem__ self key w
  = dispatch self key (Store.type_name (Store.data (seen w) !! rkey))
             (after (Store.TYPE rkey) w).
Proof.
  intros rkey. unfold ObjectRedis.__getitem__, dispatch. fold rkey.
  by rewrite bind_eq, type_eq.
Qed.

(** C2. [__getitem__] asks the store for the type of the namespaced key and
    dispatches on the answer: for [string] it reads the value and returns
    its [loads], or calls the handler of missing values when the value is
    gone by then; for [list], [set], [hash] and [zset] it returns the
    wrapper of that name on the namespaced key; for [none] it calls the
    handler of missing values, which raises [KeyError] unless the
    constructor was given another; for any other type it raises
    [NotImplementedError]. *)
Theorem getitem_dispatch (self : ObjectRedis.t) (key : pyval) (w : world) :
  let rkey := ObjectRedis._ns self key in
  let rtype := Store.type_name (Store.data (seen w) !! rkey) in
  let w1 := after (Store.TYPE rkey) w in
  let w2 := after (Store.GET rkey) w1 in
  let got := ObjectRedis.__getitem__ self key w in
  let missing := ObjectRedis.AValue <$> ObjectRedis.__memoize self key in
  (rtype = "none" → got = missing w1) ∧
  (rtype = "string" →
     (∀ b, Store.data (seen w1) !! rkey = Some (Store.RString b) →
        got = (loaded (loads (ObjectRedis.serializer self) b), w2)) ∧
     (Store.data (seen w1) !! rkey = None → got = missing w2) ∧
     (others w = [] → ∀ b,
        Store.data (db w) !! rkey = Some (Store.RString b) →
        got = (loaded (loads (ObjectRedis.serializer self) b), w2))) ∧
  (rtype = "list" →
     got = (Ok (ObjectRedis.AList
                  (RedisList.RedisList rkey (ObjectRedis.serializer self))),
            w1)) ∧
  (rtype = "set" →
     got = (Ok (ObjectRedis.ASet
                  (RedisSet.RedisSet rkey (ObjectRedis.serializer self))),
            w1)) ∧
  (rtype = "hash" →
     got = (Ok (ObjectRedis.ADict
                  (RedisDict.RedisDict rkey (ObjectRedis.serializer self)
                     (ObjectRedis.key_serializer self))), w1)) ∧
  (rtype = "zset" →
     got = (Ok (ObjectRedis.ASortedSet
                  (RedisSortedSet.RedisSortedSet rkey
                     (ObjectRedis.serializer self))), w1)) ∧
  (rtype ∉ ["none"; "string"; "list"; "set"; "hash"; "zset"] →
     got = (Raise NotImplementedError, w1)) ∧
  (ObjectRedis.__missing__ self = ObjectRedis.default_missing →
     ∀ w', missing w' = (Raise KeyError, w')).
Proof.
  intros rkey rtype w1 w2 got missing.
  subst got. rewrite getitem_eq. unfold dispatch.
  fold rkey rtype w1 missing.
  split_and!.
  - intros ->. done.
  - intros ->. simpl. rewrite bind_eq, get_eq. fold w2.
    split_and!.
    + intros b ->. rewrite fmap_eq. unfold lift.
      by destruct (loads _ b).
    + by intros ->.
    + intros Hq b Hb. subst w1. rewrite (seen_after_quiet _ _ Hq). simpl.
      rewrite Hb, fmap_eq. unfold lift. by destruct (loads _ b).
  - intros ->. done.
  - intros ->. done.
  - intros ->. done.
  - intros ->. done.
  - intros Hno. repeat (rewrite decide_False; [|set_solver]). done.
  - intros Hm w'. subst missing. rewrite fmap_eq.
    unfold ObjectRedis.__memoize. rewrite bind_eq, Hm. done.
Qed.

(** The value had type [string] when asked and is gone when read: another
    client deleted it in between. *)
Lemma getitem_dispatch_witness :
  let self := ObjectRedis.__init__ (λ _, "") None Example.pickle
                Example.pickle (Some (λ _, mret (PyStr "lost"))) None in
  let d := Store.Database {[ "Sk" := Store.RString "I*" ]} ∅ in
  (ObjectRedis.__getitem__ self (PyStr "k") (Example.quiet d)).1
  = Ok (ObjectRedis.AValue (PyInt 42)) ∧
  (ObjectRedis.__getitem__ self (PyStr "k")
     (World d [] [[]; [Store.DEL "Sk"]] Example.tokens 0)).1
  = Ok (ObjectRedis.AValue (PyStr "lost")).
Proof.
  intros self d. split.
  - destruct (getitem_dispatch self (PyStr "k") (Example.quiet d))
      as (_ & Hstring & _).
    destruct (Hstring eq_refl) as (_ & _ & Hquiet).
    by rewrite (Hquiet eq_refl "I*" eq_refl).
  - destruct (getitem_dispatch self (PyStr "k")
                (World d [] [[]; [Store.DEL "Sk"]] Example.tokens 0))
      as (_ & Hstring & _).
    destruct (Hstring eq_refl) as (_ & Hgone & _).
    by rewrite (Hgone eq_refl).
Defined.

(** * What a call sends *)

(** [emits P m]: whatever the world, [m] only adds events to the record of
    what was sent, and all of them satisfy [P]. *)
Definition emits {A} (P : event → Prop) (m : M A) : Prop :=
  ∀ w, ∃ new, sent (m w).2 = sent w ++ new ∧ Forall P new.

Lemma emits_ret {A} P (a : A) : emits P (mret a).
Proof. intros w. exists []. by rewrite app_nil_r. Qed.

Lemma emits_raise {A} P (e : exn) : emits P (raise e : M A).
Proof. intros w. exists []. by rewrite app_nil_r. Qed.

Lemma emits_lift {A} P (r : result A) : emits P (lift r).
Proof. intros w. exists []. by rewrite app_nil_r. Qed.

Lemma emits_bind {A B} P (m : M A) (f : A → M B) :
  emits P m → (∀ a, emits P (f a)) → emits P (m ≫= f).
Proof.
  intros Hm Hf w. rewrite bind_eq. destruct (Hm w) as (n1 & H1 & HP1).
  destruct (m w) as [[a|e] w1]; simpl in *; [|by exists n1].
  destruct (Hf a w1) as (n2 & H2 & HP2). exists (n1 ++ n2).
  rewrite H2, H1, (assoc_L (++)). split; [done|]. by apply Forall_app.
Qed.

Lemma emits_fmap {A B} P (f : A → B) (m : M A) : emits P m → emits P (f <$> m).
Proof. intros Hm. apply emits_bind; [done|]. intros a. apply emits_ret. Qed.

Lemma emits_execute P (c : Store.cmd) :
  P (Cmd c) → emits P (redis.execute_command c).
Proof.
  intros Hc w. rewrite execute_command_eq. exists [Cmd c]. split; [done|].
  by apply Forall_singleton.
Qed.

Lemma emits_for_each {A} P (f : A → M unit) (l : list A) :
  (∀ a, emits P (f a)) → emits P (for_each f l).
Proof.
  intros Hf. induction l as [|x l IH]; simpl; [apply emits_ret|].
  apply emits_bind; [apply Hf|]. by intros _.
Qed.

Lemma emits_hash P (key : pyval) : emits P (__hash__ key).
Proof.
  unfold __hash__. destruct (hashable key); [apply emits_ret|apply emits_raise].
Qed.

Lemma emits_int_reply P r : emits P (redis.int_reply r).
Proof. destruct r; first [apply emits_ret|apply emits_raise]. Qed.

Lemma emits_status_reply P r : emits P (redis.status_reply r).
Proof. destruct r; first [apply emits_ret|apply emits_raise]. Qed.

(** A command that asks the store for no expiry. *)
Definition plain (e : event) : Prop :=
  match e with
  | Cmd (Store.SETEX _ _ _) | Cmd (Store.EXPIRE _ _) => False
  | Cmd _ => True
  | _ => False
  end.

Ltac emits :=
  repeat first
    [ apply emits_ret | apply emits_raise | apply emits_lift
    | apply emits_hash | apply emits_int_reply | apply emits_status_reply
    | apply emits_execute; exact I
    | apply emits_for_each; intros []
    | apply emits_fmap
    | apply emits_bind; [|intros ?] ].

Lemma emits_list_clear (rl : RedisList.t) : emits plain (RedisList.clear rl).
Proof. unfold RedisList.clear, redis.delete. emits. Qed.

Lemma emits_list_extend (rl : RedisList.t) (v : pyval) :
  emits plain (RedisList.extend rl v).
Proof. unfold RedisList.extend, redis.rpush. emits. Qed.

Lemma emits_set_clear (rs : RedisSet.t) : emits plain (RedisSet.clear rs).
Proof. unfold RedisSet.clear, redis.delete. emits. Qed.

Lemma emits_set_update (rs : RedisSet.t) (vs : list pyval) :
  emits plain (RedisSet.update rs vs).
Proof. unfold RedisSet.update, redis.sadd. emits. case_decide; emits. Qed.

Lemma emits_dict_clear (rd : RedisDict.t) : emits plain (RedisDict.clear rd).
Proof. unfold RedisDict.clear, redis.delete. emits. Qed.

Lemma emits_dict_update (rd : RedisDict.t) (v : pyval) :
  emits plain (RedisDict.update rd v).
Proof.
  unfold RedisDict.update, RedisDict.__setitem__, redis.hset. emits.
Qed.

Lemma emits_zset_clear (rz : RedisSortedSet.t) :
  emits plain (RedisSortedSet.clear rz).
Proof. unfold RedisSortedSet.clear, redis.delete. emits. Qed.

Lemma emits_zset_update (rz : RedisSortedSet.t) (v : pyval) :
  emits plain (RedisSortedSet.update rz v).
Proof. unfold RedisSortedSet.update, redis.zadd. emits. Qed.

(** * The time to live given to [ObjectRedis.set] *)

(** The expiry an event asks the store for, if any. *)
Definition expiry_of (e : event) : option (bytes * Z) :=
  match e with
  | Cmd (Store.SETEX k t _) | Cmd (Store.EXPIRE k t) => Some (k, t)
  | _ => None
  end.

Lemma plain_no_expiry (e : event) : plain e → expiry_of e = None.
Proof. by destruct e as [[]| | |]. Qed.

(** The branch of [set] a value takes: one of the four collections, or the
    plain value of the last [else]. *)
Definition is_collection (value : pyval) : bool :=
  let d := dir value in
  contains d "__imul__" && contains d "__iter__"
  || contains d "__xor__" && contains d "__iter__"
  || contains d "__getitem__" && negb (contains d "index")
  || contains d "__getitem__" && contains d "values".

Definition expire_events (bkey : bytes) (ttl : option Z) : list event :=
  match ttl with
  | Some t => [Cmd (Store.EXPIRE bkey t)]
  | None => []
  end.

Lemma expire_if_eq (bkey : bytes) (ttl : option Z) (w : world) :
  (ObjectRedis.expire_if bkey ttl w).1 = Ok tt ∧
  sent (ObjectRedis.expire_if bkey ttl w).2
  = sent w ++ expire_events bkey ttl.
Proof.
  destruct ttl as [t|]; simpl; [|by rewrite app_nil_r].
  unfold redis.expire. step. unfold answer. simpl.
  destruct (Store.data (seen w) !! bkey); [case_decide|]; done.
Qed.

(** A transaction that writes and then sets the expiry: either the writes
    raise and no expiry is asked for, or the expiry closes the
    transaction. *)
Lemma transaction_log (m1 m2 : M unit) (bkey : bytes) (ttl : option Z)
    (key : pyval) (w : world) :
  emits plain m1 → emits plain m2 →
  let call :=
    redis.transaction (m1;; m2;; ObjectRedis.expire_if bkey ttl) [key] w in
  ∃ body, Forall plain body ∧
    (call.1 = Ok tt ∧
     sent call.2
     = sent w ++ Begin [key] :: body ++ expire_events bkey ttl ++ [Commit]
     ∨
     call.1 ≠ Ok tt ∧
     sent call.2 = sent w ++ Begin [key] :: body ++ [Abort]).
Proof.
  intros H1 H2 call. subst call. unfold redis.transaction.
  set (w0 := World _ _ _ _ _).
  rewrite bind_eq. destruct (H1 w0) as (n1 & Hs1 & P1).
  destruct (m1 w0) as [[[]|e] w1]; simpl in Hs1; cycle 1.
  { exists n1. split; [done|]. right. simpl. split; [done|].
    rewrite Hs1. simpl. by rewrite <-!(assoc_L (++)). }
  rewrite bind_eq. destruct (H2 w1) as (n2 & Hs2 & P2).
  destruct (m2 w1) as [[[]|e] w2]; simpl in Hs2; cycle 1.
  { exists (n1 ++ n2). split; [by apply Forall_app|]. right. simpl.
    split; [done|]. rewrite Hs2, Hs1. simpl. by rewrite <-!(assoc_L (++)). }
  destruct (expire_if_eq bkey ttl w2) as [Hr Hs3].
  destruct (ObjectRedis.expire_if bkey ttl w2) as [r3 w3]. simpl in *.
  subst r3. exists (n1 ++ n2). split; [by apply Forall_app|]. left.
  split; [done|]. simpl. rewrite Hs3, Hs2, Hs1. simpl.
  by rewrite <-!(assoc_L (++)).
Qed.

Lemma hash_ok (key : pyval) (w : world) :
  hashable key = true → __hash__ key w = (Ok tt, w).
Proof. unfold __hash__. by intros ->. Qed.

Lemma expiry_in_transaction (body : list event) (bkey : bytes)
    (ttl : option Z) (key : pyval) (tail : list event) (e : event) k t :
  Forall plain body → tail = [Commit] ∨ tail = [Abort] →
  e ∈ Begin [key] :: body ++ expire_events bkey ttl ++ tail →
  expiry_of e = Some (k, t) → k = bkey ∧ ttl = Some t.
Proof.
  intros Hbody Htail. rewrite elem_of_cons, !elem_of_app.
  intros [->|[Hin|[Hin|Hin]]]; [done| | |].
  - rewrite Forall_forall in Hbody. intros He.
    by rewrite (plain_no_expiry e (Hbody e Hin)) in He.
  - destruct ttl as [t'|]; [|by apply elem_of_nil in Hin].
    apply list_elem_of_singleton in Hin as ->. by intros [= -> ->].
  - by destruct Htail as [-> | ->]; apply list_elem_of_singleton in Hin as ->.
Qed.

(** C6. [set] hands the caller's [ttl] to the store as it is.  Every expiry
    the call asks the store for is on the namespaced key and is the [ttl]
    of the caller, so none is asked for when [ttl] is [None].  For a plain
    value the call sends one command: [SETEX] with [ttl], or [SET] when
    there is none.  For a collection the call is one transaction, which
    ends with [EXPIRE] with [ttl] after the writes, when they went through
    and [ttl] is given. *)
Theorem set_passes_ttl (self : ObjectRedis.t) (key value : pyval)
    (ttl : option Z) (w : world) :
  hashable key = true →
  let bkey := ObjectRedis._ns self key in
  let bval := dumps (ObjectRedis.serializer self) value in
  let r := (ObjectRedis.set self key value ttl w).1 in
  let w' := (ObjectRedis.set self key value ttl w).2 in
  ∃ new, sent w' = sent w ++ new ∧
    (∀ e k t, e ∈ new → expiry_of e = Some (k, t) → k = bkey ∧ ttl = Some t) ∧
    (is_collection value = false →
       new = [Cmd (match ttl with
                   | Some t => Store.SETEX bkey t bval
                   | None => Store.SET bkey bval
                   end)]) ∧
    (is_collection value = true →
       ∃ body, Forall plain body ∧
         (r = Ok tt ∧
          new = Begin [key] :: body ++ expire_events bkey ttl ++ [Commit]
          ∨
          r ≠ Ok tt ∧ new = Begin [key] :: body ++ [Abort])).
Proof.
  intros Hkey bkey bval r w'. subst r w'.
  unfold ObjectRedis.set. rewrite bind_eq, (hash_ok key w Hkey).
  fold bkey. unfold is_collection.
  assert (Hcoll : ∀ m1 m2 : M unit, emits plain m1 → emits plain m2 →
    let call := redis.transaction
                  (m1;; m2;; ObjectRedis.expire_if bkey ttl) [key] w in
    ∃ new, sent call.2 = sent w ++ new ∧
      (∀ e k t, e ∈ new → expiry_of e = Some (k, t) →
                k = bkey ∧ ttl = Some t) ∧
      ∃ body, Forall plain body ∧
         (call.1 = Ok tt ∧
          new = Begin [key] :: body ++ expire_events bkey ttl ++ [Commit]
          ∨
          call.1 ≠ Ok tt ∧ new = Begin [key] :: body ++ [Abort])).
  { intros m1 m2 H1 H2 call.
    destruct (transaction_log m1 m2 bkey ttl key w H1 H2)
      as (body & Hbody & [[Hr Hs]|[Hr Hs]]); fold call in Hr, Hs.
    - eexists. split; [exact Hs|]. split; [|by eauto 6].
      intros e k t. apply expiry_in_transaction; auto.
    - eexists. split; [exact Hs|]. split; [|by eauto 6].
      intros e k t Hin He.
      by destruct (expiry_in_transaction body bkey None key [Abort] e k t
                     Hbody (or_intror eq_refl) Hin He) as [_ [=]]. }
  destruct (contains (dir value) "__imul__" && contains (dir value) "__iter__")
    eqn:Hlist; simpl.
  { destruct (Hcoll _ _ (emits_list_clear (RedisList.RedisList bkey
                (ObjectRedis.serializer self)))
              (emits_list_extend (RedisList.RedisList bkey
                (ObjectRedis.serializer self)) value))
      as (new & Hs & Hexp & Hbody).
    exists new. split_and!; [done..|]. by intros _. }
  destruct (contains (dir value) "__xor__" && contains (dir value) "__iter__")
    eqn:Hset; simpl.
  { destruct (Hcoll _ _ (emits_set_clear (RedisSet.RedisSet bkey
                (ObjectRedis.serializer self)))
              (emits_set_update (RedisSet.RedisSet bkey
                (ObjectRedis.serializer self)) [value]))
      as (new & Hs & Hexp & Hbody).
    exists new. split_and!; [done..|]. by intros _. }
  destruct (contains (dir value) "__getitem__"
            && negb (contains (dir value) "index")) eqn:Hhash; simpl.
  { destruct (Hcoll _ _ (emits_dict_clear (RedisDict.RedisDict bkey
                (ObjectRedis.serializer self) (ObjectRedis.serializer self)))
              (emits_dict_update (RedisDict.RedisDict bkey
                (ObjectRedis.serializer self) (ObjectRedis.serializer self))
                value))
      as (new & Hs & Hexp & Hbody).
    exists new. split_and!; [done..|]. by intros _. }
  destruct (contains (dir value) "__getitem__"
            && contains (dir value) "values") eqn:Hzset; simpl.
  { destruct (Hcoll _ _ (emits_zset_clear (RedisSortedSet.RedisSortedSet bkey
                (ObjectRedis.serializer self)))
              (emits_zset_update (RedisSortedSet.RedisSortedSet bkey
                (ObjectRedis.serializer self)) value))
      as (new & Hs & Hexp & Hbody).
    exists new. split_and!; [done..|]. by intros _. }
  destruct ttl as [t|].
  - exists [Cmd (Store.SETEX bkey t bval)]. unfold redis.setex. step.
    split_and!; [by destruct (answer _ _)| |done..].
    intros e k t' ->%list_elem_of_singleton. by intros [= -> ->].
  - exists [Cmd (Store.SET bkey bval)]. unfold redis.set. step.
    split_and!; [by destruct (answer _ _)| |done..].
    by intros e k t' ->%list_elem_of_singleton.
Qed.

Lemma set_passes_ttl_witness :
  let self := ObjectRedis.__init__ (λ _, "") None Example.pickle
                Example.pickle None None in
  sent (ObjectRedis.set self (PyStr "k") (PyInt 42) (Some 5)
          Example.fresh).2
  = [Cmd (Store.SETEX "Sk" 5 "I*")] ∧
  ∃ body,
    sent (ObjectRedis.set self (PyStr "k") (PyList [PyInt 42]) (Some 5)
            Example.fresh).2
    = Begin [PyStr "k"] :: body ++ [Cmd (Store.EXPIRE "Sk" 5); Commit].
Proof.
  intros self. split.
  - destruct (set_passes_ttl self (PyStr "k") (PyInt 42) (Some 5)
                Example.fresh eq_refl) as (new & Hs & _ & Hplain & _).
    rewrite Hs, (Hplain eq_refl). reflexivity.
  - destruct (set_passes_ttl self (PyStr "k") (PyList [PyInt 42]) (Some 5)
                Example.fresh eq_refl) as (new & Hs & _ & _ & Hcoll).
    destruct (Hcoll eq_refl) as (body & _ & [[_ ->]|[Hr _]]).
    + exists body. exact Hs.
    + exfalso. apply Hr. vm_compute. reflexivity.
Defined.

(** With a [ttl] of 5 seconds, a plain value under an unhashable key and an
    empty list under a hashable key: the call raises, and no command it has
    sent asks for an expiry. *)
Lemma set_ttl_not_sent :
  let self := ObjectRedis.__init__ (λ _, "") None Example.pickle
                Example.pickle None None in
  let unhashable :=
    ObjectRedis.set self (PyList [PyStr "nohash"]) (PyInt 42) (Some 5)
      Example.fresh in
  let empty :=
    ObjectRedis.set self (PyStr "k") (PyList []) (Some 5) Example.fresh in
  is_collection (PyInt 42) = false ∧
  unhashable.1 = Raise TypeError ∧ sent unhashable.2 = [] ∧
  is_collection (PyList []) = true ∧
  empty.1 = Raise ResponseError ∧
  sent empty.2 = [Begin [PyStr "k"]; Cmd (Store.DEL "Sk");
                  Cmd (Store.RPUSH "Sk" []); Abort].
Proof. vm_compute. by split_and!. Qed.

(** * [RedisList.insert] *)

Section list_commands.
Context (tok v cur : bytes) (pre post : list bytes).
Context (Hfresh : tok ∉ pre) (Hv : tok ≠ v).

Lemma lset_middle :
  <[length pre:=tok]> (pre ++ cur :: post) = pre ++ tok :: post.
Proof.
  rewrite insert_app_r_alt, Nat.sub_diag by lia. done.
Qed.

Lemma linsert_before :
  Store.linsert Store.BEFORE tok v (pre ++ tok :: post)
  = Some (pre ++ v :: tok :: post).
Proof using Hfresh.
  induction pre as [|x pre' IH]; simpl.
  - by rewrite decide_True.
  - apply not_elem_of_cons in Hfresh as [Hx Hpre].
    rewrite decide_False by done. by rewrite IH.
Qed.

Lemma linsert_after :
  Store.linsert Store.AFTER tok cur (pre ++ v :: tok :: post)
  = Some (pre ++ v :: tok :: cur :: post).
Proof using Hfresh Hv.
  induction pre as [|x pre' IH]; simpl.
  - rewrite decide_False by done. simpl. by rewrite decide_True.
  - apply not_elem_of_cons in Hfresh as [Hx Hpre].
    rewrite decide_False by done. by rewrite IH.
Qed.

Lemma lrem_token :
  Store.lrem 1 tok (pre ++ v :: tok :: cur :: post)
  = pre ++ v :: cur :: post.
Proof using Hfresh Hv.
  unfold Store.lrem. rewrite decide_True by lia.
  change (Z.to_nat 1) with 1%nat.
  induction pre as [|x pre' IH]; simpl.
  - rewrite decide_False by done. rewrite decide_True by done.
    by destruct post.
  - apply not_elem_of_cons in Hfresh as [Hx Hpre].
    rewrite decide_False by done. by rewrite IH.
Qed.

End list_commands.

Lemma execute_quiet (c : Store.cmd) d s rnd n :
  redis.execute_command c (World d s [] rnd n)
  = (match (Store.exec c d).1 with
     | Store.Error _ => Raise ResponseError
     | _ => Ok (Store.exec c d).1
     end, World (Store.exec c d).2 (s ++ [Cmd c]) [] rnd n).
Proof. by rewrite execute_command_eq. Qed.

Lemma norm_index_nonneg (len : nat) (i : Z) :
  0 ≤ i < Z.of_nat len → Store.norm_index len i = Some (Z.to_nat i).
Proof.
  intros Hi. unfold Store.norm_index.
  destruct (decide (i < 0)); [lia|]. by rewrite decide_True by lia.
Qed.

Lemma norm_index_neg (len : nat) (i : Z) :
  - Z.of_nat len ≤ i < 0 →
  Store.norm_index len i = Some (Z.to_nat (Z.of_nat len + i)).
Proof.
  intros Hi. unfold Store.norm_index.
  destruct (decide (i < 0)); [|lia]. by rewrite decide_True by lia.
Qed.

Lemma norm_index_below (len : nat) (i : Z) :
  i < - Z.of_nat len → Store.norm_index len i = None.
Proof.
  intros Hi. unfold Store.norm_index.
  destruct (decide (i < 0)); [|lia]. by rewrite decide_False by lia.
Qed.

(** The position an index of [insert] stands for: counted from the end
    when negative. *)
Definition position (len : nat) (index : Z) : nat :=
  Z.to_nat (if decide (index < 0) then Z.of_nat len + index else index).

Lemma norm_index_position (len : nat) (i : Z) :
  - Z.of_nat len ≤ i < Z.of_nat len →
  Store.norm_index len i = Some (position len i) ∧ (position len i < len)%nat.
Proof.
  intros Hi. unfold position. case_decide.
  - rewrite norm_index_neg by lia. split; [done|lia].
  - rewrite norm_index_nonneg by lia. split; [done|lia].
Qed.

(** What [insert] sends inside its transaction. *)
Definition insert_commands (name : bytes) (len : nat) (index : Z)
    (token v cur : bytes) : list event :=
  if decide (index >= Z.of_nat len) then
    [Cmd (Store.LLEN name); Cmd (Store.RPUSH name [v])]
  else
    [Cmd (Store.LLEN name); Cmd (Store.LINDEX name index);
     Cmd (Store.LSET name index token);
     Cmd (Store.LINSERT name Store.BEFORE token v);
     Cmd (Store.LINSERT name Store.AFTER token cur);
     Cmd (Store.LREM name 1 token)].

Local Arguments String.append : simpl never.

Lemma insert_spec (self : RedisList.t) (index : Z) (value : pyval)
    (w : world) (l : list bytes) :
  let name := RedisList.name self in
  let v := dumps (RedisList.serializer self) value in
  let token := "-=-INSERTING-=-" +:+ random w (drawn w) in
  let r := (RedisList.insert self index value w).1 in
  let w' := (RedisList.insert self index value w).2 in
  tail (others w) = [] →
  Store.as_list (Store.data (seen w) !! name) = Some l →
  token ∉ l → token ≠ v →
  - Z.of_nat (length l) ≤ index →
  r = Ok tt ∧
  Store.data (db w')
  = <[name := Store.RList
               (if decide (index >= Z.of_nat (length l)) then l ++ [v]
                else take (position (length l) index) l
                     ++ v :: drop (position (length l) index) l)]>
      (Store.data (seen w)) ∧
  sent w'
  = sent w ++ Begin [PyBytes name]
      :: insert_commands name (length l) index token v
           (default "" (l !! position (length l) index))
      ++ [Commit].
Proof.
  intros name v token r w' Htail Hl Hfresh Hv Hidx. subst r w'.
  assert (Htok : "-=-INSERTING-=-" +:+ random w (drawn w) = token) by done.
  clearbody token.
  unfold RedisList.insert, redis.transaction, RedisList.__insert.
  fold name v.
  unfold redis.llen. rewrite !bind_eq, execute_command_eq.
  unfold answer, after.
  change (seen (World (db w) _ (others w) _ _)) with (seen w).
  cbn [db sent others random drawn]. rewrite Htail. simpl.
  rewrite Hl. simpl. unfold insert_commands.
  destruct (decide (index >= Z.of_nat (length l))) as [Hge|Hlt].
  - unfold redis.rpush. rewrite !bind_eq, execute_quiet. simpl.
    rewrite Hl. simpl. split_and!; try done.
    by rewrite <-!(assoc_L (++)).
  - assert (Hrange : - Z.of_nat (length l) ≤ index < Z.of_nat (length l))
      by lia.
    destruct (norm_index_position _ _ Hrange) as [Hnorm Hpos].
    set (j := position (length l) index) in *.
    destruct (lookup_lt_is_Some_2 l j Hpos) as [cur Hcur].
    assert (Hsplit : l = take j l ++ cur :: drop (S j) l)
      by (by rewrite take_drop_middle).
    assert (Hdata : Store.data (seen w) !! name = Some (Store.RList l)).
    { destruct (Store.data (seen w) !! name) as [[]|]; simplify_eq/=; done. }
    assert (Hpre : token ∉ take j l).
    { intros Hin. apply Hfresh. rewrite Hsplit. apply elem_of_app. by left. }
    assert (Hlen : length (take j l) = j) by (rewrite length_take; lia).
    unfold redis.lindex. rewrite !bind_eq, execute_quiet. simpl.
    rewrite Hl, Hnorm. simpl. rewrite Hcur. simpl.
    rewrite bind_eq. unfold _token at 1. simpl. rewrite Htok.
    unfold redis.lset. rewrite !bind_eq, execute_quiet. simpl.
    rewrite Hdata, Hnorm. simpl.
    unfold redis.linsert. rewrite !bind_eq, execute_quiet. simpl.
    rewrite lookup_insert_eq.
    assert (Hset : <[j:=token]> l = take j l ++ token :: drop (S j) l).
    { rewrite Hsplit at 1. rewrite <-Hlen at 1. apply lset_middle. }
    rewrite Hset, (linsert_before token v _ _ Hpre). simpl.
    rewrite !bind_eq, execute_quiet. simpl. rewrite lookup_insert_eq.
    rewrite (linsert_after token v cur _ _ Hpre Hv). simpl.
    unfold redis.lrem. rewrite !bind_eq, execute_quiet. simpl.
    rewrite lookup_insert_eq. simpl.
    rewrite (lrem_token token v cur _ _ Hpre Hv).
    unfold Store.put_list. rewrite decide_False by (by destruct (take j l)).
    simpl. split_and!; try done.
    + rewrite !insert_insert_eq. do 2 f_equal.
      by rewrite (drop_S l cur j Hcur).
    + by rewrite <-!(assoc_L (++)).
Qed.

Lemma inserted_lookups {A} (l : list A) (v : A) (p : nat) :
  (p < length l)%nat →
  let l' := take p l ++ v :: drop p l in
  l' !! p = Some v ∧
  (∀ i, (i < p)%nat → l' !! i = l !! i) ∧
  (∀ i, (p ≤ i)%nat → l' !! S i = l !! i).
Proof.
  intros Hp l'. subst l'.
  assert (Hlen : length (take p l) = p) by (rewrite length_take; lia).
  split_and!.
  - rewrite lookup_app_r, Hlen, Nat.sub_diag by lia. done.
  - intros i Hi. rewrite lookup_app_l by lia. by apply lookup_take_lt.
  - intros i Hi. rewrite lookup_app_r by lia. rewrite Hlen.
    replace (S i - p)%nat with (S (i - p)) by lia. simpl.
    rewrite lookup_drop. f_equal. lia.
Qed.

(** C5, amended. [insert] hands its commands to [transaction] with the key
    of the list watched; they reach the store one by one.  When no other
    client gets a command through once the first of them has been answered,
    and with a token that is neither in the list nor the serialized value:
    when [index] is at least the length, the value is appended; when it is
    below the length and not below minus the length, the value is placed
    at that position (counted from the end when negative), the element
    that was there and all later ones move right by one, and the elements
    before it stay; no other key changes. *)
Theorem insert_effect (self : RedisList.t) (index : Z) (value : pyval)
    (w : world) (l : list bytes) :
  let name := RedisList.name self in
  let v := dumps (RedisList.serializer self) value in
  let token := "-=-INSERTING-=-" +:+ random w (drawn w) in
  let r := (RedisList.insert self index value w).1 in
  let w' := (RedisList.insert self index value w).2 in
  let p := position (length l) index in
  tail (others w) = [] →
  Store.as_list (Store.data (seen w) !! name) = Some l →
  token ∉ l → token ≠ v →
  - Z.of_nat (length l) ≤ index →
  r = Ok tt ∧
  (∃ l', Store.data (db w') !! name = Some (Store.RList l') ∧
     (index >= Z.of_nat (length l) → l' = l ++ [v]) ∧
     (index < Z.of_nat (length l) →
        l' = take p l ++ v :: drop p l ∧
        l' !! p = Some v ∧
        (∀ i, (i < p)%nat → l' !! i = l !! i) ∧
        (∀ i, (p ≤ i)%nat → l' !! S i = l !! i))) ∧
  (∀ k, k ≠ name → Store.data (db w') !! k = Store.data (seen w) !! k) ∧
  (∃ body, sent w' = sent w ++ Begin [PyBytes name] :: body ++ [Commit] ∧
           Forall plain body).
Proof.
  intros name v token r w' p Htail Hl Hfresh Hv Hidx.
  destruct (insert_spec self index value w l Htail Hl Hfresh Hv Hidx)
    as (Hr & Hdb & Hsent).
  fold name v token r w' p in Hr, Hdb, Hsent.
  split_and!; [done| | |].
  - eexists. rewrite Hdb, lookup_insert_eq. split; [done|].
    case_decide; split; try lia; [done|]. intros Hlt. split; [done|].
    apply inserted_lookups. unfold p, position. case_decide; lia.
  - intros k Hk. by rewrite Hdb, lookup_insert_ne.
  - eexists. split; [exact Hsent|]. unfold insert_commands.
    case_decide; repeat constructor.
Qed.

(** Another client appends ["Sc"] just before the call; nothing comes in
    after that. *)
Lemma insert_effect_witness :
  let self := RedisList.RedisList "foo" Example.pickle in
  let w := World (Store.Database {[ "foo" := Store.RList ["Sa"; "Sb"] ]} ∅)
                 [] [[Store.RPUSH "foo" ["Sc"]]] Example.tokens 0 in
  Store.data (db (RedisList.insert self (-1) (PyStr "x") w).2) !! "foo"
  = Some (Store.RList ["Sa"; "Sb"; "Sx"; "Sc"]).
Proof.
  intros self w.
  assert (Hl : Store.as_list (Store.data (seen w) !! "foo")
               = Some ["Sa"; "Sb"; "Sc"]) by (vm_compute; reflexivity).
  assert (Hfresh : "-=-INSERTING-=-" +:+ random w (drawn w)
                   ∉ ["Sa"; "Sb"; "Sc"]).
  { intros Hin. by repeat (apply elem_of_cons in Hin as [|Hin]; [done|]);
      apply elem_of_nil in Hin. }
  destruct (insert_effect self (-1) (PyStr "x") w ["Sa"; "Sb"; "Sc"] eq_refl
              Hl Hfresh)
    as (_ & (l' & Hl' & _ & Hin) & _); [done|simpl; lia|].
  destruct Hin as (-> & _); [simpl; lia|]. exact Hl'.
Defined.

(** Two calls that place nothing.  An index below minus the length: the
    store refuses the [LSET], the call raises, and the list is as it was.
    And an index in range, with another client that deletes the list once
    [LLEN] has been answered: the commands of [insert] are not one block,
    the store finds no list at [LSET], the call raises and the list is
    gone. *)
Lemma insert_not_placed :
  let self := RedisList.RedisList "foo" Example.pickle in
  let d := Store.Database {[ "foo" := Store.RList ["Sa"; "Sb"] ]} ∅ in
  let call := RedisList.insert self (-3) (PyStr "x") (Example.quiet d) in
  let raced :=
    RedisList.insert self 0 (PyStr "x")
      (World d [] [[]; [Store.DEL "foo"]] Example.tokens 0) in
  (call.1 = Raise ResponseError ∧
   Store.data (db call.2) !! "foo" = Some (Store.RList ["Sa"; "Sb"]) ∧
   sent call.2
   = [Begin [PyBytes "foo"]; Cmd (Store.LLEN "foo");
      Cmd (Store.LINDEX "foo" (-3));
      Cmd (Store.LSET "foo" (-3) ("-=-INSERTING-=-" +:+ Example.tokens 0));
      Abort]) ∧
  (raced.1 = Raise ResponseError ∧
   Store.data (db raced.2) !! "foo" = None ∧
   sent raced.2
   = [Begin [PyBytes "foo"]; Cmd (Store.LLEN "foo");
      Cmd (Store.LINDEX "foo" 0);
      Cmd (Store.LSET "foo" 0 ("-=-INSERTING-=-" +:+ Example.tokens 0));
      Abort]).
Proof. vm_compute. by split_and!. Qed.

(** * Storing a value and reading it back *)

(** The four functions that [set] hands to [transaction] start by deleting
    the key. *)
Definition cleared (k : bytes) (d : Store.database) : Store.database :=
  (Store.exec (Store.DEL k) d).2.

Local Arguments cleared : simpl never.

Lemma data_after_del (k : bytes) (d : Store.database) :
  Store.data (cleared k d) = delete k (Store.data d).
Proof.
  unfold cleared. simpl. destruct (Store.data d !! k) eqn:Hk; simpl; [done|].
  by rewrite delete_id.
Qed.

Lemma delete_quiet (k : bytes) d s rnd n :
  ∃ m, redis.delete k (World d s [] rnd n)
       = (Ok m, World (cleared k d) (s ++ [Cmd (Store.DEL k)]) [] rnd n).
Proof.
  unfold redis.delete, cleared. rewrite bind_eq, execute_quiet. simpl.
  destruct (Store.data d !! k); simpl; eauto.
Qed.

Lemma map_each_lift {A B} (f : A → result B) (l : list A) (ys : list B)
    (w : world) :
  Forall2 (λ x y, f x = Ok y) l ys →
  map_each (λ x, lift (f x)) l w = (Ok ys, w).
Proof.
  intros Hl. revert w. induction Hl as [|x y l ys Hx _ IH]; intros w; [done|].
  simpl. rewrite bind_eq. unfold lift at 1. rewrite Hx.
  by rewrite bind_eq, IH.
Qed.


Lemma lrange_all (l : list bytes) :
  Store.lrange 0 (Z.of_nat (length l)) l = l.
Proof.
  unfold Store.lrange. destruct (decide (0 < 0)); [lia|].
  destruct (decide (Z.of_nat (length l) < 0)); [lia|].
  case_decide as Hle.
  - rewrite drop_0, take_ge; [done|lia].
  - destruct l; [done|]. simpl in Hle. lia.
Qed.

Lemma cleared_lookup (k : bytes) (d : Store.database) :
  Store.data (cleared k d) !! k = None.
Proof. by rewrite data_after_del, lookup_delete_eq. Qed.




Definition roundtrip (s : codec) (x : pyval) : Prop :=
  loads s (dumps s x) = Ok x.






Lemma new_data_hashable (rs : RedisSet.t) (l : list pyval) :
  Forall (λ x, hashable x = true) l →
  RedisSet.new_data rs l = Ok (dumps (RedisSet.serializer rs) <$> l).
Proof.
  induction 1 as [|x l Hx _ IH]; simpl; [done|]. by rewrite Hx, IH.
Qed.

(** Reading a stored set through its wrapper. *)
Lemma set_iter_quiet (name : bytes) (s : codec) (S : gset bytes)
    (xs : list pyval) d sn rnd n :
  Store.data d !! name = Some (Store.RSet S) →
  Forall2 (λ b x, loads s b = Ok x) (elements S) xs →
  (RedisSet.__iter__ (RedisSet.RedisSet name s) (World d sn [] rnd n)).1
  = Ok xs.
Proof.
  intros Hd Hbs. unfold RedisSet.__iter__, redis.sscan_iter.
  rewrite !bind_eq, execute_quiet. simpl. rewrite Hd. simpl.
  by rewrite (map_each_lift _ (elements S) xs).
Qed.











Lemma zset_items_quiet (name : bytes) (s : codec) (h : gmap bytes Z)
    (kvs : list (pyval * Z)) d sn rnd n :
  Store.as_zset (Store.data d !! name) = Some h →
  Forall2 (λ fb kv, loads s fb.1 = Ok kv.1 ∧ fb.2 = kv.2)
          (map_to_list h) kvs →
  RedisSortedSet.items (RedisSortedSet.RedisSortedSet name s)
     (World d sn [] rnd n)
  = (Ok kvs, World d (sn ++ [Cmd (Store.ZSCAN name)]) [] rnd n).
Proof.
  intros Hd HR. unfold RedisSortedSet.items, redis.zscan_iter.
  rewrite !bind_eq, execute_quiet. simpl. rewrite Hd. simpl.
  match goal with |- map_each ?f _ ?w = _ =>
    enough (Hm : ∀ w', map_each f (map_to_list h) w' = (Ok kvs, w'))
      by (by rewrite Hm)
  end.
  induction HR as [|[f b] [k v] fbs kvs [Hk Hv] _ IH]; intros w; [done|].
  simpl in *. rewrite !bind_eq. unfold lift at 1. rewrite Hk. simpl.
  by rewrite bind_eq, IH, Hv.
Qed.











(** * [RedisTTLSet] *)

(** The members that a purge at clock value [now] leaves: those whose
    expiry is above [now]. *)
Definition alive (now : Z) (z : gmap bytes Z) : gmap bytes Z :=
  filter (λ ms, now < ms.2) z.

Lemma zremrangebyscore_alive (now : Z) (z : gmap bytes Z) :
  Store.zremrangebyscore Store.NegInf (Store.Score now) z = alive now z.
Proof.
  unfold Store.zremrangebyscore, alive. apply map_filter_ext.
  intros m e _. unfold Store.in_range. simpl. case_bool_decide; split; try done; lia.
Qed.

Section ttl_set.
Context (name : bytes) (ttl : Z) (s : codec) (time : M Z) (now : Z).
Context (Hclock : ∀ w, time w = (Ok now, w)).

Let self := RedisTTLSet.__init__ name ttl s time.

Lemma ttl_add_quiet (item : pyval) (z : gmap bytes Z) d sn rnd n :
  hashable item = true →
  Store.as_zset (Store.data d !! name) = Some z →
  RedisTTLSet.add self item (World d sn [] rnd n)
  = (Ok tt,
     World (Store.put name (Store.RZSet (<[dumps s item := now + ttl]> z)) d)
           (sn ++ [Cmd (Store.ZADD name [(now + ttl, dumps s item)])])
           [] rnd n).
Proof using Hclock.
  intros Hh Hz. unfold RedisTTLSet.add. simpl.
  rewrite bind_eq, Hclock. unfold RedisSortedSet.__setitem__. simpl.
  rewrite bind_eq, hash_ok by done. rewrite bind_eq. simpl.
  unfold redis.zadd. rewrite !bind_eq, execute_quiet. simpl.
  by rewrite Hz.
Qed.

Lemma ttl_get_quiet (item : pyval) (z : gmap bytes Z) d sn rnd n :
  Store.as_zset (Store.data d !! name) = Some z →
  RedisSortedSet.get (RedisTTLSet.dict self) item None (World d sn [] rnd n)
  = (Ok (z !! dumps s item),
     World d (sn ++ [Cmd (Store.ZSCORE name (dumps s item))]) [] rnd n).
Proof.
  intros Hz. unfold RedisSortedSet.get, catch, RedisSortedSet.__getitem__.
  simpl. rewrite fmap_eq, bind_eq. unfold redis.zscore.
  rewrite bind_eq, execute_quiet. simpl. rewrite Hz. simpl.
  by destruct (z !! dumps s item).
Qed.

Lemma ttl_contains_quiet (item : pyval) (z : gmap bytes Z) d sn rnd n :
  Store.as_zset (Store.data d !! name) = Some z →
  let m := dumps s item in
  let c := RedisTTLSet.__contains__ self item (World d sn [] rnd n) in
  match z !! m with
  | None => c.1 = Ok false ∧ db c.2 = d
  | Some e =>
      if decide (e < now) then
        c.1 = Ok false ∧ db c.2 = Store.put_zset name (delete m z) d
      else c.1 = Ok true ∧ db c.2 = d
  end.
Proof using Hclock.
  intros Hz m c. subst c. unfold RedisTTLSet.__contains__.
  rewrite bind_eq, (ttl_get_quiet item z) by done. fold m.
  destruct (z !! m) as [e|] eqn:He; [|done].
  simpl. rewrite bind_eq, Hclock. case_decide; [|done].
  rewrite bind_eq. unfold RedisTTLSet.discard, catch. simpl.
  unfold RedisSortedSet.__delitem__. simpl. unfold redis.zrem.
  rewrite !bind_eq, execute_quiet. simpl. rewrite Hz. fold m. rewrite He.
  done.
Qed.

End ttl_set.

(** ** A clock that moves

    The clock given to the constructor is any callable.  All that is asked
    of it here is that it returns a reading and leaves alone the store,
    the record of what was sent and the other clients; its readings may
    differ from one call to the next. *)
Definition is_clock (time : M Z) : Prop :=
  ∀ w, ∃ t w', time w = (Ok t, w') ∧
    db w' = db w ∧ sent w' = sent w ∧ others w' = others w.

(** [t] is a reading of the clock in a world that has sent at least [sn]
    and no more than [sn']. *)
Definition read_between (time : M Z) (sn sn' : list event) (t : Z) : Prop :=
  ∃ w w', time w = (Ok t, w') ∧ sn `prefix_of` sent w ∧ sent w `prefix_of` sn'.

Lemma read_between_mono (time : M Z) (sn0 sn sn' sn1 : list event) (t : Z) :
  sn0 `prefix_of` sn → sn' `prefix_of` sn1 →
  read_between time sn sn' t → read_between time sn0 sn1 t.
Proof.
  intros H0 H1 (w & w' & Ht & Ha & Hb). exists w, w'.
  split_and!; [done|by etrans..].
Qed.

(** What the loop of [__iter__] yields, item by item. *)
Lemma yielded_members {P Q : pyval * Z → Prop} (kvs : list (pyval * Z))
    (yss : list (list pyval)) :
  NoDup kvs.*1 →
  Forall2 (λ kv ys, (ys = [kv.1] ∧ P kv) ∨ (ys = [] ∧ Q kv)) kvs yss →
  concat yss `sublist_of` kvs.*1 ∧
  ∀ kv, kv ∈ kvs →
    (kv.1 ∈ concat yss ∧ P kv) ∨ ((kv.1 ∉ concat yss) ∧ Q kv).
Proof.
  intros Hnd HR. induction HR as [|kv0 ys0 kvs yss H0 _ IH]; simpl.
  { split; [done|]. by intros kv ?%elem_of_nil. }
  rewrite fmap_cons in Hnd. apply NoDup_cons in Hnd as [Hk0 Hnd].
  destruct (IH Hnd) as [Hsub Hmem].
  assert (Hout : kv0.1 ∉ concat yss).
  { intros Hin. apply Hk0. by eapply elem_of_sublist. }
  split.
  - destruct H0 as [[-> _]|[-> _]]; simpl.
    + by apply sublist_skip.
    + by apply sublist_cons.
  - intros kv [->|Hin]%elem_of_cons.
    + destruct H0 as [[-> HP]|[-> HQ]]; simpl; [left|right]; split; try done.
      by left.
    + assert (Hne : kv.1 ≠ kv0.1).
      { intros Heq. apply Hk0. rewrite <-Heq.
        apply list_elem_of_fmap. by exists kv. }
      destruct (Hmem kv Hin) as [[Hy HP]|[Hy HQ]]; [left|right];
        (split; [|done]).
      * apply elem_of_app. by right.
      * rewrite elem_of_app. intros [Hy0|?]; [|done].
        destruct H0 as [[-> _]|[-> _]].
        -- by apply list_elem_of_singleton in Hy0.
        -- by apply elem_of_nil in Hy0.
Qed.

Section ttl_clock.
Context (name : bytes) (ttl : Z) (s : codec) (time : M Z).
Context (Hclock : is_clock time).

Let self := RedisTTLSet.__init__ name ttl s time.

Lemma clock_quiet d sn rnd n :
  ∃ t rnd' n',
    time (World d sn [] rnd n) = (Ok t, World d sn [] rnd' n').
Proof using Hclock.
  destruct (Hclock (World d sn [] rnd n))
    as (t & [d' sn' ot' rnd' n'] & Ht & Hd & Hs & Ho).
  simpl in *. subst. eauto.
Qed.

Lemma ttl_add_at (item : pyval) (z : gmap bytes Z) (now : Z)
    d sn rnd n rnd' n' :
  time (World d sn [] rnd n) = (Ok now, World d sn [] rnd' n') →
  hashable item = true →
  Store.as_zset (Store.data d !! name) = Some z →
  RedisTTLSet.add self item (World d sn [] rnd n)
  = (Ok tt,
     World (Store.put name (Store.RZSet (<[dumps s item := now + ttl]> z)) d)
           (sn ++ [Cmd (Store.ZADD name [(now + ttl, dumps s item)])])
           [] rnd' n').
Proof.
  intros Ht Hh Hz. unfold RedisTTLSet.add. simpl.
  rewrite bind_eq, Ht. unfold RedisSortedSet.__setitem__. simpl.
  rewrite bind_eq, hash_ok by done. rewrite bind_eq. simpl.
  unfold redis.zadd. rewrite !bind_eq, execute_quiet. simpl.
  by rewrite Hz.
Qed.

Lemma ttl_absent_at (item : pyval) (z : gmap bytes Z) d sn rnd n :
  Store.as_zset (Store.data d !! name) = Some z →
  z !! dumps s item = None →
  RedisTTLSet.__contains__ self item (World d sn [] rnd n)
  = (Ok false,
     World d (sn ++ [Cmd (Store.ZSCORE name (dumps s item))]) [] rnd n).
Proof.
  intros Hz Hm. unfold RedisTTLSet.__contains__.
  rewrite bind_eq, (ttl_get_quiet name ttl s time item z) by done.
  by rewrite Hm.
Qed.

Lemma ttl_contains_at (item : pyval) (z : gmap bytes Z) (e now : Z)
    d sn rnd n rnd' n' :
  let m := dumps s item in
  let asked := sn ++ [Cmd (Store.ZSCORE name m)] in
  Store.as_zset (Store.data d !! name) = Some z →
  z !! m = Some e →
  time (World d asked [] rnd n) = (Ok now, World d asked [] rnd' n') →
  RedisTTLSet.__contains__ self item (World d sn [] rnd n)
  = if decide (e < now) then
      (Ok false,
       World (Store.put_zset name (delete m z) d)
             (asked ++ [Cmd (Store.ZREM name m)]) [] rnd' n')
    else (Ok true, World d asked [] rnd' n').
Proof.
  intros m asked Hz He Ht. unfold RedisTTLSet.__contains__.
  rewrite bind_eq, (ttl_get_quiet name ttl s time item z) by done.
  fold m asked. rewrite He. simpl. rewrite bind_eq.
  fold asked. rewrite Ht. case_decide; [|done].
  rewrite bind_eq. unfold RedisTTLSet.discard, catch. simpl.
  unfold RedisSortedSet.__delitem__. simpl. unfold redis.zrem.
  rewrite !bind_eq, execute_quiet. simpl. rewrite Hz. fold m. rewrite He.
  done.
Qed.

Lemma ttl_cleanup_at (z : gmap bytes Z) (now : Z) d sn rnd n rnd' n' :
  time (World d sn [] rnd n) = (Ok now, World d sn [] rnd' n') →
  Store.as_zset (Store.data d !! name) = Some z →
  RedisTTLSet.__cleanup self (World d sn [] rnd n)
  = (Ok tt,
     World (Store.put_zset name (alive now z) d)
           (sn ++ [Cmd (Store.ZREMRANGEBYSCORE name Store.NegInf
                          (Store.Score now))]) [] rnd' n').
Proof.
  intros Ht Hz. unfold RedisTTLSet.__cleanup.
  rewrite bind_eq. simpl. rewrite Ht. unfold redis.zremrangebyscore. simpl.
  rewrite !bind_eq, execute_quiet. simpl. rewrite Hz. simpl.
  by rewrite zremrangebyscore_alive.
Qed.

(** The loop of [__iter__], from any state of the sorted set in which the
    items still to come are members with their scores.  An item is yielded
    when a reading of the clock does not pass its deadline, and it stays in
    the store; it is removed, and not yielded, when the reading of the loop
    and the one of [__contains__] both pass it. *)
Lemma ttl_sweep (kvs : list (pyval * Z)) :
  NoDup (dumps s <$> kvs.*1) →
  ∀ d sn rnd n zc,
  Store.as_zset (Store.data d !! name) = Some zc →
  Forall (λ kv, zc !! dumps s kv.1 = Some kv.2) kvs →
  ∃ yss d' sn' rnd' n' zc',
    map_each (λ '(k, v),
                t ← RedisTTLSet.time self;
                if decide (v < t) then
                  c ← RedisTTLSet.__contains__ self k;
                  mret (if c : bool then [k] else [])
                else mret [k]) kvs (World d sn [] rnd n)
    = (Ok yss, World d' sn' [] rnd' n') ∧
    Store.as_zset (Store.data d' !! name) = Some zc' ∧
    sn `prefix_of` sn' ∧
    (∀ m, m ∉ dumps s <$> kvs.*1 → zc' !! m = zc !! m) ∧
    zc' ⊆ zc ∧
    Forall2 (λ kv ys,
               (ys = [kv.1] ∧
                zc' !! dumps s kv.1 = Some kv.2 ∧
                ∃ t, read_between time sn sn' t ∧ ¬ kv.2 < t)
               ∨ (ys = [] ∧
                zc' !! dumps s kv.1 = None ∧
                ∃ t, read_between time sn sn' t ∧ kv.2 < t)) kvs yss.
Proof using Hclock.
  induction kvs as [|[k v] kvs IH]; intros Hnd d sn rnd n zc Hz Hin.
  { exists [], d, sn, rnd, n, zc. by split_and!. }
  rewrite !fmap_cons in Hnd. apply NoDup_cons in Hnd as [Hk Hnd]. simpl in Hk.
  apply Forall_cons in Hin as [Hv Hin]. simpl in Hv.
  set (m := dumps s k) in *.
  (* the rest of the loop, from a world that has sent [sn1] *)
  assert (Hrest : ∀ d1 sn1 rnd1 n1 zc1 (y : list pyval),
    Store.as_zset (Store.data d1 !! name) = Some zc1 →
    sn `prefix_of` sn1 → zc1 ⊆ zc →
    (∀ m', m' ≠ m → zc1 !! m' = zc !! m') →
    ((y = [k] ∧ (zc1 !! m = Some v ∧
                 ∃ t, read_between time sn sn1 t ∧ ¬ v < t))
     ∨ (y = [] ∧ (zc1 !! m = None ∧
                  ∃ t, read_between time sn sn1 t ∧ v < t))) →
    ∃ yss d' sn' rnd' n' zc',
      (ys ← map_each (λ '(k, v),
                        t ← RedisTTLSet.time self;
                        if decide (v < t) then
                          c ← RedisTTLSet.__contains__ self k;
                          mret (if c : bool then [k] else [])
                        else mret [k]) kvs;
       mret (y :: ys)) (World d1 sn1 [] rnd1 n1)
      = (Ok yss, World d' sn' [] rnd' n') ∧
      Store.as_zset (Store.data d' !! name) = Some zc' ∧
      sn `prefix_of` sn' ∧
      (∀ m', m' ∉ m :: (dumps s <$> kvs.*1) → zc' !! m' = zc !! m') ∧
      zc' ⊆ zc ∧
      Forall2 (λ kv ys,
                 (ys = [kv.1] ∧
                  zc' !! dumps s kv.1 = Some kv.2 ∧
                  ∃ t, read_between time sn sn' t ∧ ¬ kv.2 < t)
                 ∨ (ys = [] ∧
                  zc' !! dumps s kv.1 = None ∧
                  ∃ t, read_between time sn sn' t ∧ kv.2 < t))
              ((k, v) :: kvs) yss).
  { intros d1 sn1 rnd1 n1 zc1 y Hz1 Hpre Hsub1 Hframe1 Hy.
    assert (Hin1 : Forall (λ kv, zc1 !! dumps s kv.1 = Some kv.2) kvs).
    { apply Forall_forall. intros kv Hkv. rewrite Hframe1.
      - by apply (proj1 (Forall_forall _ _) Hin).
      - intros Heq. apply Hk. rewrite <-Heq. apply list_elem_of_fmap.
        exists kv.1. split; [done|]. apply list_elem_of_fmap. by exists kv. }
    destruct (IH Hnd d1 sn1 rnd1 n1 zc1 Hz1 Hin1)
      as (yss & d' & sn' & rnd' & n' & zc' & Hrun & Hz' & Hpre' & Hframe'
          & Hsub' & HR).
    exists (y :: yss), d', sn', rnd', n', zc'.
    rewrite bind_eq, Hrun. split_and!; [done|done|by etrans| |by etrans|].
    - intros m' [Hne Hm']%not_elem_of_cons.
      by rewrite Hframe', Hframe1.
    - constructor.
      + simpl. fold m. rewrite (Hframe' m Hk).
        destruct Hy as [(-> & Hm & t & Hr & Ht)|(-> & Hm & t & Hr & Ht)];
          [left|right]; (split; [done|]); (split; [done|]); exists t;
          (split; [|done]);
          by apply (read_between_mono time sn sn sn1 sn').
      + eapply Forall2_impl; [exact HR|]. intros kv ys.
        intros [(-> & Hm & t & Hr & Ht)|(-> & Hm & t & Hr & Ht)];
          [left|right]; (split; [done|]); (split; [done|]); exists t;
          (split; [|done]);
          by apply (read_between_mono time sn sn1 sn' sn'). }
  cbn [map_each]. rewrite bind_eq.
  destruct (clock_quiet d sn rnd n) as (t1 & rnd1 & n1 & Ht1).
  assert (Hr1 : read_between time sn sn t1).
  { by exists (World d sn [] rnd n), (World d sn [] rnd1 n1). }
  rewrite bind_eq.
  change (RedisTTLSet.time self) with time. rewrite Ht1.
  destruct (decide (v < t1)) as [Hexp|Hlive]; cycle 1.
  { (* not expired at the reading of the loop *)
    cbn [mret M_ret].
    apply (Hrest d sn rnd1 n1 zc [k]); [done..|].
    left. split; [done|]. split; [done|]. by exists t1. }
  rewrite bind_eq.
  destruct (clock_quiet d (sn ++ [Cmd (Store.ZSCORE name m)]) rnd1 n1)
    as (t2 & rnd2 & n2 & Ht2).
  rewrite (ttl_contains_at k zc v t2 d sn rnd1 n1 rnd2 n2 Hz Hv Ht2).
  fold m.
  assert (Hr2 : ∀ sn', sn ++ [Cmd (Store.ZSCORE name m)] `prefix_of` sn' →
                       read_between time sn sn' t2).
  { intros sn' Hp.
    exists (World d (sn ++ [Cmd (Store.ZSCORE name m)]) [] rnd1 n1),
           (World d (sn ++ [Cmd (Store.ZSCORE name m)]) [] rnd2 n2).
    split_and!; [done| |done]. by apply prefix_app_r. }
  destruct (decide (v < t2)) as [Hexp2|Hlive2].
  - (* expired at both readings: removed *)
    cbn [mret M_ret].
    apply (Hrest _ _ rnd2 n2 (delete m zc) []).
    + apply as_zset_put_zset.
    + rewrite <-(assoc_L (++)). by apply prefix_app_r.
    + apply delete_subseteq.
    + intros m' Hne. by rewrite lookup_delete_ne.
    + right. split; [done|]. split; [apply lookup_delete_eq|].
      exists t2. split; [|done]. apply Hr2. by apply prefix_app_r.
  - (* refreshed, or the clock has gone back *)
    cbn [mret M_ret].
    apply (Hrest _ _ rnd2 n2 zc [k]); [done|by apply prefix_app_r|done..|].
    left. split; [done|]. split; [done|]. exists t2. split; [|done].
    by apply Hr2.
Qed.

Lemma ttl_len_at (z : gmap bytes Z) (now : Z) d sn rnd n rnd' n' :
  time (World d sn [] rnd n) = (Ok now, World d sn [] rnd' n') →
  Store.as_zset (Store.data d !! name) = Some z →
  let c := RedisTTLSet.__len__ self (World d sn [] rnd n) in
  c.1 = Ok (Z.of_nat (size (alive now z))) ∧
  db c.2 = Store.put_zset name (alive now z) d.
Proof.
  intros Ht Hz c. subst c. unfold RedisTTLSet.__len__.
  rewrite bind_eq, (ttl_cleanup_at z now d sn rnd n rnd' n') by done.
  unfold RedisSortedSet.__len__, redis.zcard. simpl.
  rewrite !bind_eq, execute_quiet. simpl.
  by rewrite as_zset_put_zset.
Qed.

Lemma ttl_iter_at (z : gmap bytes Z) (now : Z) (kvs : list (pyval * Z))
    d sn rnd n rnd' n' :
  time (World d sn [] rnd n) = (Ok now, World d sn [] rnd' n') →
  Store.as_zset (Store.data d !! name) = Some z →
  Forall2 (λ ms kv, loads s ms.1 = Ok kv.1 ∧ dumps s kv.1 = ms.1
                    ∧ ms.2 = kv.2) (map_to_list (alive now z)) kvs →
  let c := RedisTTLSet.__iter__ self (World d sn [] rnd n) in
  let scanned :=
    sn ++ [Cmd (Store.ZREMRANGEBYSCORE name Store.NegInf (Store.Score now));
           Cmd (Store.ZSCAN name)] in
  ∃ ys zf,
    c.1 = Ok ys ∧
    Store.as_zset (Store.data (db c.2) !! name) = Some zf ∧
    ys `sublist_of` kvs.*1 ∧
    (∀ k v, (k, v) ∈ kvs →
       (k ∈ ys ∧
        zf !! dumps s k = Some v ∧
        ∃ t, read_between time scanned (sent c.2) t ∧ ¬ v < t)
       ∨ ((k ∉ ys) ∧
        zf !! dumps s k = None ∧
        ∃ t, read_between time scanned (sent c.2) t ∧ v < t)) ∧
    zf ⊆ alive now z.
Proof using Hclock.
  intros Ht Hz HR c scanned. subst c. unfold RedisTTLSet.__iter__.
  rewrite bind_eq, (ttl_cleanup_at z now d sn rnd n rnd' n') by done.
  rewrite bind_eq.
  assert (HR0 : Forall2 (λ fb kv, loads s fb.1 = Ok kv.1 ∧ fb.2 = kv.2)
                  (map_to_list (alive now z)) kvs).
  { eapply Forall2_impl; [exact HR|]. by intros ?? (? & ? & ?). }
  change (RedisTTLSet.dict self) with (RedisSortedSet.RedisSortedSet name s).
  rewrite (zset_items_quiet name s (alive now z) kvs)
    by (by rewrite ?as_zset_put_zset).
  assert (Hkeys : dumps s <$> kvs.*1 = (map_to_list (alive now z)).*1).
  { clear -HR. induction HR as [|[m e] [k v] mes kvs (_ & Hm & _) _ IH];
      [done|]. rewrite !fmap_cons, IH. simpl in *. by rewrite Hm. }
  assert (Hnd : NoDup (dumps s <$> kvs.*1)).
  { rewrite Hkeys. apply NoDup_fst_map_to_list. }
  assert (Hin : Forall (λ kv, alive now z !! dumps s kv.1 = Some kv.2) kvs).
  { apply Forall_forall. intros [k v] Hkv.
    apply list_elem_of_lookup in Hkv as [i Hi].
    destruct (Forall2_lookup_r _ _ _ i (k, v) HR Hi)
      as ([m e] & Hme & _ & Hm & He). simpl in *. subst.
    by apply list_elem_of_lookup_2, elem_of_map_to_list in Hme. }
  rewrite <-(assoc_L (++)).
  change (sn ++ [Cmd (Store.ZREMRANGEBYSCORE name Store.NegInf
                        (Store.Score now))] ++ [Cmd (Store.ZSCAN name)])
    with scanned.
  destruct (ttl_sweep kvs Hnd (Store.put_zset name (alive now z) d) scanned
              rnd' n' (alive now z) (as_zset_put_zset _ _ _) Hin)
    as (yss & d' & sn' & rnd2 & n2 & zf & Hrun & Hzf & Hpre & _ & Hsub & HF).
  rewrite bind_eq, Hrun. cbn [fst snd db sent mret M_ret].
  destruct (yielded_members kvs yss (NoDup_fmap_1 _ _ Hnd) HF)
    as [Hys Hmem].
  exists (concat yss), zf. split_and!; [done..| |done].
  intros k v Hkv. apply (Hmem (k, v) Hkv).
Qed.

End ttl_clock.

(** C8. With no other client in between and a clock that may move between
    one reading and the next: [add] stores the item with the reading of the
    clock plus [ttl] as its score; [__contains__] reads the clock once it
    has the score of the item, is true exactly when the score is not below
    the reading, and removes the item when it is; [__len__] removes every
    item whose score is at or below the reading of the clock, then counts
    the items that are left; [__iter__] removes the same and then goes
    through the items that are left: an item is yielded only if a reading
    made after the scan does not pass its score, it is then still in the
    store; an item that is not yielded has a reading made after the scan
    above its score, and is removed. *)
Theorem ttl_set_expiry (name : bytes) (ttl : Z) (s : codec) (time : M Z)
    (w : world) (z : gmap bytes Z) :
  let self := RedisTTLSet.__init__ name ttl s time in
  is_clock time →
  others w = [] →
  Store.as_zset (Store.data (db w) !! name) = Some z →
  (∀ item now w1, hashable item = true → time w = (Ok now, w1) →
     let a := RedisTTLSet.add self item w in
     a.1 = Ok tt ∧
     sent a.2
     = sent w ++ [Cmd (Store.ZADD name [(now + ttl, dumps s item)])] ∧
     Store.as_zset (Store.data (db a.2) !! name)
     = Some (<[dumps s item := now + ttl]> z)) ∧
  (∀ item,
     let m := dumps s item in
     let c := RedisTTLSet.__contains__ self item w in
     (z !! m = None → c.1 = Ok false ∧ db c.2 = db w) ∧
     (∀ e now w1, z !! m = Some e →
        time (after (Store.ZSCORE name m) w) = (Ok now, w1) →
        (e < now →
           c.1 = Ok false ∧
           Store.as_zset (Store.data (db c.2) !! name) = Some (delete m z)) ∧
        (now ≤ e → c.1 = Ok true ∧ db c.2 = db w))) ∧
  (∀ now w1, time w = (Ok now, w1) →
     let c := RedisTTLSet.__len__ self w in
     c.1 = Ok (Z.of_nat (size (alive now z))) ∧
     Store.as_zset (Store.data (db c.2) !! name) = Some (alive now z)) ∧
  (∀ now w1 kvs, time w = (Ok now, w1) →
     Forall2 (λ ms kv, loads s ms.1 = Ok kv.1 ∧ dumps s kv.1 = ms.1
                       ∧ ms.2 = kv.2) (map_to_list (alive now z)) kvs →
     let c := RedisTTLSet.__iter__ self w in
     let scanned :=
       sent w
       ++ [Cmd (Store.ZREMRANGEBYSCORE name Store.NegInf (Store.Score now));
           Cmd (Store.ZSCAN name)] in
     ∃ ys zf,
       c.1 = Ok ys ∧
       Store.as_zset (Store.data (db c.2) !! name) = Some zf ∧
       ys `sublist_of` kvs.*1 ∧
       (∀ k v, (k, v) ∈ kvs →
          (k ∈ ys ∧
           zf !! dumps s k = Some v ∧
           ∃ t, read_between time scanned (sent c.2) t ∧ ¬ v < t)
          ∨ ((k ∉ ys) ∧
           zf !! dumps s k = None ∧
           ∃ t, read_between time scanned (sent c.2) t ∧ v < t)) ∧
       zf ⊆ alive now z) ∧
  (∀ now m e, alive now z !! m = Some e ↔ z !! m = Some e ∧ now < e).
Proof.
  intros self Hclock Hq Hz. destruct w as [d sn ot rnd n].
  simpl in Hq, Hz. subst ot.
  assert (Hread : ∀ sn0 now w1,
    time (World d sn0 [] rnd n) = (Ok now, w1) →
    ∃ rnd' n', w1 = World d sn0 [] rnd' n').
  { intros sn0 now w1 Ht.
    destruct (clock_quiet time Hclock d sn0 rnd n) as (t & rnd' & n' & Ht').
    rewrite Ht' in Ht. injection Ht as <- <-. eauto. }
  split_and!.
  - intros item now w1 Hh Ht a. subst a self.
    destruct (Hread _ _ _ Ht) as (rnd' & n' & ->).
    rewrite (ttl_add_at name ttl s time item z now d sn rnd n rnd' n')
      by done.
    simpl. by rewrite lookup_insert_eq.
  - intros item m c. subst c self. split.
    + intros Hm. by rewrite (ttl_absent_at name ttl s time item z).
    + intros e now w1 Hm Ht.
      assert (Hafter : after (Store.ZSCORE name m)
                         (World d sn [] rnd n)
                       = World d (sn ++ [Cmd (Store.ZSCORE name m)]) []
                               rnd n).
      { unfold after, seen. simpl.
        change (redis.next_batch (World d sn [] rnd n)) with d.
        by rewrite Hz. }
      rewrite Hafter in Ht. destruct (Hread _ _ _ Ht) as (rnd' & n' & ->).
      rewrite (ttl_contains_at name ttl s time item z e now d sn rnd n
                 rnd' n' Hz Hm Ht).
      split; intros He.
      * rewrite decide_True by done. simpl.
        by rewrite as_zset_put_zset.
      * by rewrite decide_False by lia.
  - intros now w1 Ht c.
    destruct (Hread _ _ _ Ht) as (rnd' & n' & ->).
    destruct (ttl_len_at name ttl s time z now d sn rnd n rnd' n' Ht Hz)
      as [Hr Hd].
    fold self c in Hr, Hd. by rewrite Hr, Hd, as_zset_put_zset.
  - intros now w1 kvs Ht HR.
    destruct (Hread _ _ _ Ht) as (rnd' & n' & ->).
    apply (ttl_iter_at name ttl s time Hclock z now kvs d sn rnd n rnd' n'
             Ht Hz HR).
  - intros now m e. unfold alive. by rewrite map_lookup_filter_Some.
Qed.

(** A clock that counts what has been sent, and an item whose deadline is
    1.  The purge of [__iter__] reads 0 and leaves the item; the loop reads
    2 and [__contains__] reads 3: the item is not yielded.  [__len__], which
    reads the clock once, counts it. *)
Lemma ttl_set_expiry_witness :
  let time : M Z := λ w, (Ok (Z.of_nat (length (sent w))), w) in
  let self := RedisTTLSet.__init__ "foo" 5 Example.pickle time in
  let z : gmap bytes Z := {[ "Sgrunge" := 1 ]} in
  let w := Example.quiet (Store.Database {[ "foo" := Store.RZSet z ]} ∅) in
  (RedisTTLSet.__iter__ self w).1 = Ok [] ∧
  (RedisTTLSet.__len__ self w).1 = Ok 1.
Proof.
  intros time self z w.
  assert (Hclock : is_clock time) by (intros w0; by eexists _, _).
  assert (Hz : Store.as_zset (Store.data (db w) !! "foo") = Some z)
    by (by vm_compute).
  assert (Halive : alive 0 z = z) by (by vm_compute).
  destruct (ttl_set_expiry "foo" 5 Example.pickle time w z Hclock eq_refl Hz)
    as (_ & _ & Hl & Hi & _).
  split.
  - destruct (Hi 0 w [(PyStr "grunge", 1)] eq_refl)
      as (ys & zf & Hys & _ & Hsub & Hmem & _).
    { rewrite Halive. unfold z. rewrite map_to_list_singleton.
      by repeat constructor. }
    etrans; [exact Hys|]. f_equal.
    destruct (Hmem (PyStr "grunge") 1) as [(_ & _ & t & Hr & Ht)|[Hout _]];
      [by left| |].
    + exfalso. destruct Hr as (wr & wr' & Hread & Hpre & _).
      injection Hread as <- _. apply prefix_length in Hpre.
      simpl in Hpre. lia.
    + destruct ys as [|y ys]; [done|]. exfalso. apply Hout.
      assert (Hy : y ∈ [PyStr "grunge"]).
      { eapply elem_of_sublist; [|exact Hsub]. by left. }
      apply list_elem_of_singleton in Hy as ->. by left.
  - destruct (Hl 0 w eq_refl) as [Hlen _]. etrans; [exact Hlen|].
    rewrite Halive. by vm_compute.
Defined.

(** * Who decides that something has expired *)

Lemma emits_mono {A} (P Q : event → Prop) (m : M A) :
  (∀ e, P e → Q e) → emits P m → emits Q m.
Proof.
  intros HPQ Hm w. destruct (Hm w) as (new & Hs & HP). exists new.
  split; [done|]. eapply Forall_impl; eauto.
Qed.

Lemma emits_transaction {A} P (func : M A) (watches : list pyval) :
  P (Begin watches) → P Commit → P Abort →
  emits P func → emits P (redis.transaction func watches).
Proof.
  intros HB HC HA Hf w. unfold redis.transaction.
  set (w0 := World _ _ _ _ _). destruct (Hf w0) as (new & Hs & HP).
  destruct (func w0) as [r w1]. simpl in *.
  exists (Begin watches :: new ++ [if r is Ok _ then Commit else Abort]).
  split.
  - rewrite Hs. by rewrite <-!(assoc_L (++)).
  - constructor; [done|]. apply Forall_app. split; [done|].
    apply Forall_singleton. by destruct r.
Qed.

(** An event that asks the store for no expiry but [ttl] on [bkey]. *)
Definition only_ttl (bkey : bytes) (ttl : option Z) (e : event) : Prop :=
  ∀ k t, expiry_of e = Some (k, t) → k = bkey ∧ ttl = Some t.

Lemma plain_only_ttl bkey ttl (e : event) : plain e → only_ttl bkey ttl e.
Proof. intros He k t Hk. by rewrite (plain_no_expiry e He) in Hk. Qed.

Lemma emits_expire_if (bkey : bytes) (ttl : option Z) :
  emits (only_ttl bkey ttl) (ObjectRedis.expire_if bkey ttl).
Proof.
  destruct ttl as [t|]; simpl; [|apply emits_ret].
  apply emits_bind; [|intros; apply emits_ret].
  apply emits_bind; [|intros; apply emits_int_reply].
  apply emits_execute. by intros k t' [= <- <-].
Qed.

Lemma set_emits_ttl (self : ObjectRedis.t) (key value : pyval)
    (ttl : option Z) :
  emits (only_ttl (ObjectRedis._ns self key) ttl)
        (ObjectRedis.set self key value ttl).
Proof.
  set (bkey := ObjectRedis._ns self key).
  assert (Hcoll : ∀ m1 m2 : M unit, emits plain m1 → emits plain m2 →
    emits (only_ttl bkey ttl)
      (redis.transaction (m1;; m2;; ObjectRedis.expire_if bkey ttl) [key])).
  { intros m1 m2 H1 H2. apply emits_transaction; [done..|].
    apply emits_bind; [by eapply emits_mono, H1; apply plain_only_ttl|].
    intros _.
    apply emits_bind; [by eapply emits_mono, H2; apply plain_only_ttl|].
    intros _. apply emits_expire_if. }
  unfold ObjectRedis.set. fold bkey.
  apply emits_bind; [apply emits_hash|]. intros _.
  repeat case_match.
  - apply Hcoll; [apply emits_list_clear|apply emits_list_extend].
  - apply Hcoll; [apply emits_set_clear|apply emits_set_update].
  - apply Hcoll; [apply emits_dict_clear|apply emits_dict_update].
  - apply Hcoll; [apply emits_zset_clear|apply emits_zset_update].
  - unfold redis.setex.
    apply emits_bind; [|intros; apply emits_ret].
    apply emits_bind; [|intros; apply emits_status_reply].
    apply emits_execute. by intros k t' [= <- <-].
  - unfold redis.set.
    apply emits_bind; [|intros; apply emits_ret].
    apply emits_bind; [|intros; apply emits_status_reply].
    by apply emits_execute.
Qed.

(** C4, amended. [ObjectRedis.set] asks the store for no expiry but the
    [ttl] of its caller.  [RedisTTLSet] keeps the expiry itself: [add]
    computes the deadline [now + ttl] from its clock, sends it as the score
    of the item and asks the store for no expiry; [__contains__] compares
    the stored deadline with its clock.  [RedisTime.time], between two
    refreshes, reads the local clock and adds the offset it has kept,
    whatever the clock of the store. *)
Theorem expiry_policy :
  (∀ self key value ttl,
     emits (only_ttl (ObjectRedis._ns self key) ttl)
           (ObjectRedis.set self key value ttl)) ∧
  (∀ name ttl s time now item z d sn rnd n,
     (∀ w, time w = (Ok now, w)) → hashable item = true →
     Store.as_zset (Store.data d !! name) = Some z →
     let self := RedisTTLSet.__init__ name ttl s time in
     let a := RedisTTLSet.add self item (World d sn [] rnd n) in
     sent a.2 = sn ++ [Cmd (Store.ZADD name [(now + ttl, dumps s item)])] ∧
     Store.expires (db a.2) = Store.expires d) ∧
  (∀ name ttl s time now item z e d sn rnd n,
     (∀ w, time w = (Ok now, w)) →
     Store.as_zset (Store.data d !! name) = Some z →
     z !! dumps s item = Some e →
     let self := RedisTTLSet.__init__ name ttl s time in
     (RedisTTLSet.__contains__ self item (World d sn [] rnd n)).1
     = Ok (bool_decide (¬ e < now))) ∧
  (∀ self local redis_time,
     ¬ RedisTime.next_check self < local 0%nat →
     RedisTime.time self local redis_time
     = (RedisTime.delta self + local 1%nat, self)).
Proof.
  split_and!.
  - apply set_emits_ttl.
  - intros name ttl s time now item z d sn rnd n Hclock Hh Hz self a.
    subst a self.
    by rewrite (ttl_add_quiet name ttl s time now Hclock item z).
  - intros name ttl s time now item z e d sn rnd n Hclock Hz He self.
    pose proof (ttl_contains_quiet name ttl s time now Hclock item z d sn rnd n
                  Hz) as Hc.
    simpl in Hc. rewrite He in Hc. subst self.
    case_decide; destruct Hc as [-> _].
    + by rewrite bool_decide_false by tauto.
    + by rewrite bool_decide_true.
  - intros self local rt Hn. unfold RedisTime.time. by rewrite decide_False.
Qed.

Lemma expiry_policy_witness :
  let d := Store.Database {[ "foo" := Store.RZSet {[ "Sgrunge" := 6 ]} ]} ∅ in
  let self := RedisTTLSet.__init__ "foo" 5 Example.pickle (mret 7) in
  (RedisTTLSet.__contains__ self (PyStr "grunge") (Example.quiet d)).1
  = Ok false ∧
  RedisTime.time (RedisTime.RedisTime 5000000 250 9000000)
                 (λ _, 8000000) (1, 0)
  = (8000250, RedisTime.RedisTime 5000000 250 9000000).
Proof.
  intros d self. destruct expiry_policy as (_ & _ & Hc & Ht). split.
  - etrans.
    + apply (Hc "foo" 5 Example.pickle (mret 7) 7 (PyStr "grunge")
                {[ "Sgrunge" := 6 ]} 6 d [] Example.tokens 0%nat);
        [done|by vm_compute..].
    + by vm_compute.
  - apply Ht. simpl. lia.
Defined.

(** The same store and the same item, two readings of the clock of the
    library: the item is in the set at 5 and expired at 7; and the deadline
    6 that [add] sends at clock 1 with a [ttl] of 5 is computed by the
    library, which asks the store for no expiry. *)
Lemma ttl_set_decides_locally :
  let d := Store.Database {[ "foo" := Store.RZSet {[ "Sgrunge" := 6 ]} ]} ∅ in
  let at_ (t : Z) := RedisTTLSet.__init__ "foo" 5 Example.pickle (mret t) in
  (RedisTTLSet.__contains__ (at_ 5) (PyStr "grunge") (Example.quiet d)).1
  = Ok true ∧
  (RedisTTLSet.__contains__ (at_ 7) (PyStr "grunge") (Example.quiet d)).1
  = Ok false ∧
  sent (RedisTTLSet.add (at_ 1) (PyStr "grunge") Example.fresh).2
  = [Cmd (Store.ZADD "foo" [(6, "Sgrunge")])] ∧
  Store.expires (db (RedisTTLSet.add (at_ 1) (PyStr "grunge")
                       Example.fresh).2) = ∅.
Proof. vm_compute. by split_and!. Qed.

(** * More of [RedisList]

    The commands of a list, on a store with no other client in between;
    [as_list] reads a missing key as the empty list. *)

Lemma as_list_nonempty (v : option Store.rvalue) (l : list bytes) :
  Store.as_list v = Some l → l ≠ [] → v = Some (Store.RList l).
Proof. destruct v as [[]|]; naive_solver. Qed.

Lemma as_list_put_list (k : bytes) (l : list bytes) (d : Store.database) :
  Store.as_list (Store.data (Store.put_list k l d) !! k) = Some l.
Proof.
  unfold Store.put_list. case_decide as Hl; simpl.
  - by rewrite lookup_delete_eq, Hl.
  - by rewrite lookup_insert_eq.
Qed.

Lemma llen_quiet (k : bytes) (l : list bytes) d sn rnd n :
  Store.as_list (Store.data d !! k) = Some l →
  redis.llen k (World d sn [] rnd n)
  = (Ok (Z.of_nat (length l)),
     World d (sn ++ [Cmd (Store.LLEN k)]) [] rnd n).
Proof.
  intros Hl. unfold redis.llen. rewrite bind_eq, execute_quiet. simpl.
  by rewrite Hl.
Qed.

Lemma lrange_quiet (k : bytes) (start stop : Z) (l : list bytes) d sn rnd n :
  Store.as_list (Store.data d !! k) = Some l →
  redis.lrange k start stop (World d sn [] rnd n)
  = (Ok (Store.lrange start stop l),
     World d (sn ++ [Cmd (Store.LRANGE k start stop)]) [] rnd n).
Proof.
  intros Hl. unfold redis.lrange. rewrite bind_eq, execute_quiet. simpl.
  by rewrite Hl.
Qed.

Lemma lindex_quiet (k : bytes) (i : Z) (l : list bytes) d sn rnd n :
  Store.as_list (Store.data d !! k) = Some l →
  redis.lindex k i (World d sn [] rnd n)
  = (Ok (Store.norm_index (length l) i ≫= λ j, l !! j),
     World d (sn ++ [Cmd (Store.LINDEX k i)]) [] rnd n).
Proof.
  intros Hl. unfold redis.lindex. rewrite bind_eq, execute_quiet. simpl.
  by rewrite Hl.
Qed.

Lemma norm_index_lt (len : nat) (i : Z) (j : nat) :
  Store.norm_index len i = Some j → (j < len)%nat.
Proof.
  unfold Store.norm_index. repeat case_decide; intros [= <-]; lia.
Qed.

(** [LSET] on a position of the list, and off the list. *)
Lemma exec_lset (k : bytes) (i : Z) (v : bytes) (l : list bytes)
    (d : Store.database) :
  Store.as_list (Store.data d !! k) = Some l →
  match Store.norm_index (length l) i with
  | Some j =>
      Store.exec (Store.LSET k i v) d
      = (Store.Status "OK", Store.put k (Store.RList (<[j:=v]> l)) d)
  | None =>
      ∃ msg, Store.exec (Store.LSET k i v) d = (Store.Error msg, d)
  end.
Proof.
  intros Hl. destruct (Store.norm_index (length l) i) as [j|] eqn:Hj.
  - assert (l ≠ []).
    { intros ->. apply norm_index_lt in Hj. simpl in Hj. lia. }
    simpl. by rewrite (as_list_nonempty _ l Hl), Hj.
  - simpl. destruct (Store.data d !! k) as [[]|]; simplify_eq/=; eauto.
    rewrite Hj. eauto.
Qed.

Lemma lset_quiet (k : bytes) (i : Z) (v : bytes) (l : list bytes)
    d sn rnd n :
  Store.as_list (Store.data d !! k) = Some l →
  redis.lset k i v (World d sn [] rnd n)
  = match Store.norm_index (length l) i with
    | Some j =>
        (Ok "OK",
         World (Store.put k (Store.RList (<[j:=v]> l)) d)
               (sn ++ [Cmd (Store.LSET k i v)]) [] rnd n)
    | None =>
        (Raise ResponseError,
         World d (sn ++ [Cmd (Store.LSET k i v)]) [] rnd n)
    end.
Proof.
  intros Hl. unfold redis.lset. rewrite bind_eq, execute_quiet.
  pose proof (exec_lset k i v l d Hl) as He.
  destruct (Store.norm_index (length l) i) as [j|].
  - by rewrite He.
  - destruct He as [msg ->]. done.
Qed.

Lemma norm_index_outside (len : nat) (i : Z) :
  i < - Z.of_nat len ∨ Z.of_nat len ≤ i → Store.norm_index len i = None.
Proof.
  intros Hi. unfold Store.norm_index.
  destruct (decide (i < 0)); by rewrite decide_False by lia.
Qed.

(** X1. [list[index]] on a stored list: an index from minus the length up
    to the length (excluded) reads the element at that position, counted
    from the end when negative, and decodes it; any other index, and so any
    index on a missing key, raises [IndexError].  The store is not
    changed. *)
Theorem list_getitem (self : RedisList.t) (index : Z) (w : world)
    (l : list bytes) :
  others w = [] →
  Store.as_list (Store.data (db w) !! RedisList.name self) = Some l →
  let got := RedisList.__getitem__ self index w in
  let len := Z.of_nat (length l) in
  db got.2 = db w ∧
  (- len ≤ index < len →
     ∃ b, l !! position (length l) index = Some b ∧
          got.1 = loads (RedisList.serializer self) b) ∧
  (index < - len ∨ len ≤ index → got.1 = Raise IndexError).
Proof.
  intros Hq Hl got len. subst got. destruct w as [d sn ot rnd n].
  simpl in Hq, Hl. subst ot. unfold RedisList.__getitem__.
  rewrite bind_eq, (lindex_quiet _ _ l) by done. split_and!.
  - by destruct (_ ≫= _).
  - intros Hi. destruct (norm_index_position _ _ Hi) as [-> Hpos].
    destruct (lookup_lt_is_Some_2 l _ Hpos) as [b Hb].
    exists b. split; [done|]. simpl. by rewrite Hb.
  - intros Hi. by rewrite norm_index_outside.
Qed.

Lemma list_getitem_witness :
  let self := RedisList.RedisList "foo" Example.pickle in
  let w := Example.quiet
             (Store.Database {[ "foo" := Store.RList ["Sa"; "Sb"] ]} ∅) in
  (RedisList.__getitem__ self (-1) w).1 = Ok (PyStr "b") ∧
  (RedisList.__getitem__ self 2 w).1 = Raise IndexError.
Proof.
  intros self w.
  assert (Hl : Store.as_list (Store.data (db w) !! "foo") = Some ["Sa"; "Sb"])
    by (by vm_compute).
  destruct (list_getitem self (-1) w ["Sa"; "Sb"] eq_refl Hl)
    as (_ & Hin & _).
  destruct (list_getitem self 2 w ["Sa"; "Sb"] eq_refl Hl) as (_ & _ & Hout).
  split.
  - destruct Hin as (b & Hb & ->); [simpl; lia|].
    vm_compute in Hb. by injection Hb as <-.
  - apply Hout. simpl. lia.
Defined.

(** X2. [list[index] = value] then [list[index]]: on a position of the
    list the element is replaced, the others stay, and reading the index
    gives the value back; off the list the store refuses the [LSET]:
    [ResponseError] is raised, not [IndexError], and nothing changes. *)
Theorem list_setitem_getitem (self : RedisList.t) (index : Z) (value : pyval)
    (w : world) (l : list bytes) :
  others w = [] →
  Store.as_list (Store.data (db w) !! RedisList.name self) = Some l →
  roundtrip (RedisList.serializer self) value →
  let put := RedisList.__setitem__ self index value w in
  let len := Z.of_nat (length l) in
  (- len ≤ index < len →
     put.1 = Ok tt ∧
     Store.data (db put.2) !! RedisList.name self
     = Some (Store.RList (<[position (length l) index
                            := dumps (RedisList.serializer self) value]> l)) ∧
     (RedisList.__getitem__ self index put.2).1 = Ok value) ∧
  (index < - len ∨ len ≤ index →
     put.1 = Raise ResponseError ∧ db put.2 = db w).
Proof.
  intros Hq Hl Hrt put len. subst put. destruct w as [d sn ot rnd n].
  simpl in Hq, Hl. subst ot. unfold RedisList.__setitem__.
  rewrite bind_eq, (lset_quiet _ _ _ l) by done. split.
  - intros Hi. destruct (norm_index_position _ _ Hi) as [Hn Hpos].
    rewrite Hn. simpl. rewrite lookup_insert_eq. split_and!; [done..|].
    unfold RedisList.__getitem__.
    rewrite bind_eq, (lindex_quiet _ _ (<[position (length l) index
      := dumps (RedisList.serializer self) value]> l))
      by (simpl; by rewrite lookup_insert_eq).
    rewrite length_insert, Hn. simpl.
    by rewrite list_lookup_insert_eq by done.
  - intros Hi. by rewrite norm_index_outside.
Qed.

Lemma list_setitem_getitem_witness :
  let self := RedisList.RedisList "foo" Example.pickle in
  let w := Example.quiet
             (Store.Database {[ "foo" := Store.RList ["Sa"; "Sb"] ]} ∅) in
  (RedisList.__getitem__ self 1
     (RedisList.__setitem__ self 1 (PyStr "x") w).2).1 = Ok (PyStr "x") ∧
  (RedisList.__setitem__ self 2 (PyStr "x") w).1 = Raise ResponseError.
Proof.
  intros self w.
  assert (Hl : Store.as_list (Store.data (db w) !! "foo") = Some ["Sa"; "Sb"])
    by (by vm_compute).
  destruct (list_setitem_getitem self 1 (PyStr "x") w ["Sa"; "Sb"]
              eq_refl Hl eq_refl) as [Hin _].
  destruct (list_setitem_getitem self 2 (PyStr "x") w ["Sa"; "Sb"]
              eq_refl Hl eq_refl) as [_ Hout].
  split.
  - apply Hin. simpl. lia.
  - apply Hout. simpl. lia.
Defined.

Lemma lrem_head_absent (c : nat) (tok : bytes) (l : list bytes) :
  tok ∉ l → Store.lrem_head c tok l = l.
Proof.
  intros Hl. induction l as [|x l IH]; [done|]. simpl.
  apply not_elem_of_cons in Hl as [Hx Hl]. destruct c; [done|].
  rewrite decide_False by done. by rewrite IH.
Qed.

Lemma lrem_head_first (tok : bytes) (pre post : list bytes) :
  tok ∉ pre → Store.lrem_head 1 tok (pre ++ tok :: post) = pre ++ post.
Proof.
  intros Hpre. induction pre as [|x pre IH]; simpl.
  - rewrite decide_True by done. by destruct post.
  - apply not_elem_of_cons in Hpre as [Hx Hpre].
    rewrite decide_False by done. by rewrite IH.
Qed.

Lemma lrem_one (tok : bytes) (l : list bytes) :
  Store.lrem 1 tok l = Store.lrem_head 1 tok l.
Proof. unfold Store.lrem. by rewrite decide_True by lia. Qed.

Lemma pipeline_quiet (cs : list Store.cmd) d sn rnd n :
  redis.pipeline_execute cs (World d sn [] rnd n)
  = (if existsb redis.is_error (redis.run_block cs d).1
     then Raise ResponseError else Ok (redis.run_block cs d).1,
     World (redis.run_block cs d).2
           (sn ++ Begin [] :: (Cmd <$> cs) ++ [Commit]) [] rnd n).
Proof.
  unfold redis.pipeline_execute. change (redis.next_batch _) with d.
  by destruct (redis.run_block cs d).
Qed.

Lemma list_delitem_quiet (self : RedisList.t) (index : Z) (l : list bytes)
    d sn rnd n :
  let name := RedisList.name self in
  Store.as_list (Store.data d !! name) = Some l →
  "-=-DELETING-=-" +:+ rnd n ∉ l →
  ∃ sn',
    RedisList.__delitem__ self index (World d sn [] rnd n)
    = match Store.norm_index (length l) index with
      | Some j =>
          (Ok tt, World (Store.put_list name (delete j l)
                           (Store.put name
                              (Store.RList
                                 (<[j:="-=-DELETING-=-" +:+ rnd n]> l)) d))
                        sn' [] rnd (S n))
      | None =>
          (Raise ResponseError,
           World (Store.put_list name l d) sn' [] rnd (S n))
      end.
Proof.
  intros name Hl Hfresh.
  remember ("-=-DELETING-=-" +:+ rnd n) as token eqn:Htok.
  unfold RedisList.__delitem__. rewrite bind_eq. unfold _token at 1.
  cbn [db sent others random drawn]. rewrite <-Htok. fold name.
  rewrite bind_eq, pipeline_quiet. unfold redis.run_block.
  cbn [foldl fst snd].
  pose proof (exec_lset name index token l d Hl) as Hset.
  destruct (Store.norm_index (length l) index) as [j|] eqn:Hn.
  - rewrite Hset. pose proof (norm_index_lt _ _ _ Hn) as Hpos.
    destruct (lookup_lt_is_Some_2 l j Hpos) as [cur Hcur].
    assert (Hpre : token ∉ take j l).
    { intros Hin. apply Hfresh. rewrite <-(take_drop j l).
      apply elem_of_app. by left. }
    assert (Hins : <[j:=token]> l = take j l ++ token :: drop (S j) l).
    { rewrite <-(take_drop_middle l j cur Hcur) at 1.
      rewrite insert_app_r_alt by (rewrite length_take; lia).
      rewrite length_take, Nat.min_l, Nat.sub_diag by lia. done. }
    simpl. rewrite lookup_insert_eq. simpl.
    rewrite lrem_one, Hins, lrem_head_first by done.
    rewrite <-Hins, <-delete_take_drop. eauto.
  - destruct Hset as [msg ->]. simpl. rewrite Hl. simpl.
    rewrite lrem_one, lrem_head_absent by done. eauto.
Qed.

(** X3. [del list[index]], with a token that is not in the list: on a
    position of the list exactly that element goes and the others keep
    their order; off the list the [LSET] of the pipeline is refused,
    [ResponseError] is raised and the list is as it was. *)
Theorem list_delitem (self : RedisList.t) (index : Z) (w : world)
    (l : list bytes) :
  others w = [] →
  Store.as_list (Store.data (db w) !! RedisList.name self) = Some l →
  "-=-DELETING-=-" +:+ random w (drawn w) ∉ l →
  let del := RedisList.__delitem__ self index w in
  let len := Z.of_nat (length l) in
  (- len ≤ index < len →
     del.1 = Ok tt ∧
     Store.as_list (Store.data (db del.2) !! RedisList.name self)
     = Some (delete (position (length l) index) l)) ∧
  (index < - len ∨ len ≤ index →
     del.1 = Raise ResponseError ∧
     Store.as_list (Store.data (db del.2) !! RedisList.name self) = Some l).
Proof.
  intros Hq Hl Hfresh del len. subst del. destruct w as [d sn ot rnd n].
  simpl in Hq, Hl, Hfresh. subst ot.
  destruct (list_delitem_quiet self index l d sn rnd n Hl Hfresh) as [sn' ->].
  split.
  - intros Hi. destruct (norm_index_position _ _ Hi) as [-> _].
    split; [done|]. simpl. by rewrite as_list_put_list.
  - intros Hi. rewrite norm_index_outside by done.
    split; [done|]. simpl. by rewrite as_list_put_list.
Qed.

Lemma list_delitem_witness :
  let self := RedisList.RedisList "foo" Example.pickle in
  let w := Example.quiet
             (Store.Database {[ "foo" := Store.RList ["Sa"; "Sb"; "Sc"] ]} ∅) in
  Store.as_list
    (Store.data (db (RedisList.__delitem__ self 1 w).2) !! "foo")
  = Some ["Sa"; "Sc"] ∧
  (RedisList.__delitem__ self 3 w).1 = Raise ResponseError.
Proof.
  intros self w.
  assert (Hl : Store.as_list (Store.data (db w) !! "foo")
               = Some ["Sa"; "Sb"; "Sc"]) by (by vm_compute).
  assert (Hfresh : "-=-DELETING-=-" +:+ random w (drawn w)
                   ∉ ["Sa"; "Sb"; "Sc"]).
  { intros Hin. by repeat (apply elem_of_cons in Hin as [|Hin]; [done|]);
      apply elem_of_nil in Hin. }
  destruct (list_delitem self 1 w _ eq_refl Hl Hfresh) as [Hin _].
  destruct (list_delitem self 3 w _ eq_refl Hl Hfresh) as [_ Hout].
  split.
  - apply Hin. simpl. lia.
  - apply Hout. simpl. lia.
Defined.

Lemma lrem_quiet (k : bytes) (c : Z) (v : bytes) (l : list bytes)
    d sn rnd n :
  Store.as_list (Store.data d !! k) = Some l →
  redis.lrem k c v (World d sn [] rnd n)
  = (Ok (Z.of_nat (length l - length (Store.lrem c v l))),
     World (Store.put_list k (Store.lrem c v l) d)
           (sn ++ [Cmd (Store.LREM k c v)]) [] rnd n).
Proof.
  intros Hl. unfold redis.lrem. rewrite bind_eq, execute_quiet. simpl.
  by rewrite Hl.
Qed.

(** X4. [list.remove(value)] takes out the first element equal to the
    serialized value and leaves the rest in order; when there is none it
    raises [ValueError] and the list is as it was. *)
Theorem list_remove (self : RedisList.t) (value : pyval) (w : world)
    (l : list bytes) :
  others w = [] →
  Store.as_list (Store.data (db w) !! RedisList.name self) = Some l →
  let b := dumps (RedisList.serializer self) value in
  let rm := RedisList.remove self value w in
  (b ∉ l →
     rm.1 = Raise ValueError ∧
     Store.as_list (Store.data (db rm.2) !! RedisList.name self) = Some l) ∧
  (∀ pre post, l = pre ++ b :: post → b ∉ pre →
     rm.1 = Ok tt ∧
     Store.as_list (Store.data (db rm.2) !! RedisList.name self)
     = Some (pre ++ post)).
Proof.
  intros Hq Hl b rm. subst rm. destruct w as [d sn ot rnd n].
  simpl in Hq, Hl. subst ot. unfold RedisList.remove. fold b.
  rewrite bind_eq, (lrem_quiet _ _ _ l) by done. rewrite lrem_one. split.
  - intros Hb. rewrite lrem_head_absent, Nat.sub_diag by done. simpl.
    by rewrite as_list_put_list.
  - intros pre post -> Hpre. rewrite lrem_head_first by done.
    rewrite !length_app. simpl.
    rewrite decide_False by lia. simpl. by rewrite as_list_put_list.
Qed.

Lemma list_remove_witness :
  let self := RedisList.RedisList "foo" Example.pickle in
  let w := Example.quiet
             (Store.Database {[ "foo" := Store.RList ["Sa"; "Sb"; "Sa"] ]} ∅) in
  Store.as_list
    (Store.data (db (RedisList.remove self (PyStr "a") w).2) !! "foo")
  = Some ["Sb"; "Sa"] ∧
  (RedisList.remove self (PyStr "t") w).1 = Raise ValueError.
Proof.
  intros self w.
  assert (Hl : Store.as_list (Store.data (db w) !! "foo")
               = Some ["Sa"; "Sb"; "Sa"]) by (by vm_compute).
  destruct (list_remove self (PyStr "a") w _ eq_refl Hl) as [_ Hin].
  destruct (list_remove self (PyStr "t") w _ eq_refl Hl) as [Hout _].
  split.
  - apply (Hin [] ["Sb"; "Sa"] eq_refl). apply not_elem_of_nil.
  - apply Hout. intros Hin'.
    by repeat (apply elem_of_cons in Hin' as [|Hin']; [done|]);
      apply elem_of_nil in Hin'.
Defined.

Lemma lrange_from (start : Z) (l : list bytes) :
  0 ≤ start →
  Store.lrange start (Z.of_nat (length l)) l = drop (Z.to_nat start) l.
Proof.
  intros Hs. unfold Store.lrange.
  destruct (decide (start < 0)); [lia|].
  destruct (decide (Z.of_nat (length l) < 0)); [lia|].
  rewrite Z.max_r by lia. case_decide as Hle.
  - rewrite take_ge; [done|]. rewrite length_drop. lia.
  - rewrite drop_ge; [done|]. lia.
Qed.

Lemma first_at_absent (b : bytes) (l : list bytes) (k : Z) :
  b ∉ l → RedisList.first_at b l k = None.
Proof.
  revert k. induction l as [|x l IH]; intros k Hb; [done|]. simpl.
  apply not_elem_of_cons in Hb as [Hx Hb].
  rewrite decide_False by done. by apply IH.
Qed.

Lemma first_at_found (b : bytes) (pre post : list bytes) (k : Z) :
  b ∉ pre →
  RedisList.first_at b (pre ++ b :: post) k = Some (k + Z.of_nat (length pre)).
Proof.
  revert k. induction pre as [|x pre IH]; intros k Hb; simpl.
  - rewrite decide_True by done. f_equal. lia.
  - apply not_elem_of_cons in Hb as [Hx Hb].
    rewrite decide_False by done. rewrite IH by done. f_equal. lia.
Qed.

Lemma list_index_quiet (self : RedisList.t) (value : pyval) (start : Z)
    (l : list bytes) d sn rnd n :
  Store.as_list (Store.data d !! RedisList.name self) = Some l →
  0 ≤ start →
  ∃ sn',
    RedisList.index self value start None (World d sn [] rnd n)
    = (match RedisList.first_at (dumps (RedisList.serializer self) value)
               (drop (Z.to_nat start) l) 0 with
       | Some ix => Ok ix
       | None => Raise ValueError
       end, World d sn' [] rnd n).
Proof.
  intros Hl Hs. unfold RedisList.index, redis.run_transaction.
  rewrite bind_eq. change (redis.next_batch _) with d.
  unfold RedisList.__index.
  rewrite bind_eq, (llen_quiet _ l) by done.
  rewrite bind_eq, (lrange_quiet _ _ _ l) by done.
  rewrite lrange_from by done. simpl.
  destruct (RedisList.first_at _ _ _); simpl; eauto.
Qed.



(** X6. [item in list] is true exactly when the serialized item is an
    element of the stored list; the store is not changed. *)
Theorem list_contains (self : RedisList.t) (item : pyval) (w : world)
    (l : list bytes) :
  others w = [] →
  Store.as_list (Store.data (db w) !! RedisList.name self) = Some l →
  let b := dumps (RedisList.serializer self) item in
  let c := RedisList.__contains__ self item w in
  c.1 = Ok (bool_decide (b ∈ l)) ∧ db c.2 = db w.
Proof.
  intros Hq Hl b c. subst c. destruct w as [d sn ot rnd n].
  simpl in Hq, Hl. subst ot. unfold RedisList.__contains__, catch.
  rewrite bind_eq.
  destruct (list_index_quiet self item 0 l d sn rnd n Hl) as [sn' ->]; [lia|].
  change (Z.to_nat 0) with 0%nat. rewrite drop_0. fold b.
  destruct (decide (b ∈ l)) as [Hin|Hout].
  - apply list_elem_of_split_l in Hin as (pre & post & -> & Hpre).
    rewrite first_at_found by done. simpl.
    rewrite bool_decide_true; [done|]. apply elem_of_app. right. by left.
  - rewrite first_at_absent by done. simpl. by rewrite bool_decide_false.
Qed.

Lemma list_contains_witness :
  let self := RedisList.RedisList "foo" Example.pickle in
  let w := Example.quiet
             (Store.Database {[ "foo" := Store.RList ["Sa"; "Sz"] ]} ∅) in
  (RedisList.__contains__ self (PyStr "z") w).1 = Ok true ∧
  (RedisList.__contains__ self (PyStr "t") w).1 = Ok false.
Proof.
  intros self w.
  assert (Hl : Store.as_list (Store.data (db w) !! "foo") = Some ["Sa"; "Sz"])
    by (by vm_compute).
  split.
  - by destruct (list_contains self (PyStr "z") w _ eq_refl Hl) as [-> _].
  - by destruct (list_contains self (PyStr "t") w _ eq_refl Hl) as [-> _].
Defined.

(** X7. [list(a_list)] gives every element of the stored list, decoded, in
    the order of the list, and [reversed(a_list)] gives them in the opposite
    order; a missing key gives no element.  The store is not changed. *)
Theorem list_iter_reversed (self : RedisList.t) (w : world) (l : list bytes)
    (xs : list pyval) :
  others w = [] →
  Store.as_list (Store.data (db w) !! RedisList.name self) = Some l →
  Forall2 (λ b x, loads (RedisList.serializer self) b = Ok x) l xs →
  (RedisList.__iter__ self w).1 = Ok xs ∧
  (RedisList.__reversed__ self w).1 = Ok (reverse xs) ∧
  db (RedisList.__iter__ self w).2 = db w ∧
  db (RedisList.__reversed__ self w).2 = db w.
Proof.
  intros Hq Hl Hxs. destruct w as [d sn ot rnd n]. simpl in Hq, Hl. subst ot.
  assert (Hit : ∃ sn', RedisList.__iter__ self (World d sn [] rnd n)
                       = (Ok xs, World d sn' [] rnd n)).
  { unfold RedisList.__iter__, RedisList.__len__.
    rewrite bind_eq, (llen_quiet _ l) by done.
    rewrite bind_eq, (lrange_quiet _ _ _ l) by done.
    rewrite lrange_all, (map_each_lift _ l xs) by done. eauto. }
  destruct Hit as [sn' Hit]. unfold RedisList.__reversed__.
  by rewrite bind_eq, Hit.
Qed.

Lemma list_iter_reversed_witness :
  let self := RedisList.RedisList "foo" Example.pickle in
  let w := Example.quiet
             (Store.Database {[ "foo" := Store.RList ["Sa"; "Sb"] ]} ∅) in
  (RedisList.__iter__ self w).1 = Ok [PyStr "a"; PyStr "b"] ∧
  (RedisList.__reversed__ self w).1 = Ok [PyStr "b"; PyStr "a"].
Proof.
  intros self w.
  destruct (list_iter_reversed self w ["Sa"; "Sb"] [PyStr "a"; PyStr "b"])
    as (Hi & Hr & _); [done|by vm_compute|by repeat constructor|].
  by split.
Defined.

Lemma rpush_quiet (k : bytes) (vs l : list bytes) d sn rnd n :
  Store.as_list (Store.data d !! k) = Some l →
  redis.rpush k vs (World d sn [] rnd n)
  = if decide (vs = []) then
      (Raise ResponseError,
       World d (sn ++ [Cmd (Store.RPUSH k vs)]) [] rnd n)
    else
      (Ok (Z.of_nat (length (l ++ vs))),
       World (Store.put k (Store.RList (l ++ vs)) d)
             (sn ++ [Cmd (Store.RPUSH k vs)]) [] rnd n).
Proof.
  intros Hl. unfold redis.rpush. rewrite bind_eq, execute_quiet. simpl.
  case_decide; [done|]. by rewrite Hl.
Qed.

Lemma list_extend_quiet (self : RedisList.t) (values : pyval)
    (vs : list pyval) (l : list bytes) d sn rnd n :
  let name := RedisList.name self in
  let bs := dumps (RedisList.serializer self) <$> vs in
  Store.as_list (Store.data d !! name) = Some l →
  py_iter values = Ok vs →
  RedisList.extend self values (World d sn [] rnd n)
  = if decide (bs = []) then
      (Raise ResponseError,
       World d (sn ++ [Cmd (Store.RPUSH name bs)]) [] rnd n)
    else
      (Ok tt,
       World (Store.put name (Store.RList (l ++ bs)) d)
             (sn ++ [Cmd (Store.RPUSH name bs)]) [] rnd n).
Proof.
  intros name bs Hl Hvs. unfold RedisList.extend. fold name.
  rewrite bind_eq. unfold lift at 1. rewrite Hvs. fold bs.
  rewrite bind_eq, (rpush_quiet _ _ l) by done. by case_decide.
Qed.

(** X8. [append] puts the serialized value at the end of the list, and
    [extend] the serialized items of its argument, in their order; [extend]
    with nothing to add raises [ResponseError], the answer of the store to
    an [RPUSH] without values, and with an argument that cannot be iterated
    [TypeError] before anything is sent; in both cases nothing changes. *)
Theorem list_append_extend (self : RedisList.t) (w : world) (l : list bytes) :
  let name := RedisList.name self in
  let s := RedisList.serializer self in
  others w = [] →
  Store.as_list (Store.data (db w) !! name) = Some l →
  (∀ value,
     let a := RedisList.append self value w in
     a.1 = Ok tt ∧
     Store.data (db a.2) !! name = Some (Store.RList (l ++ [dumps s value]))) ∧
  (∀ values vs, py_iter values = Ok vs → vs ≠ [] →
     let e := RedisList.extend self values w in
     e.1 = Ok tt ∧
     Store.data (db e.2) !! name = Some (Store.RList (l ++ (dumps s <$> vs)))) ∧
  (∀ values, py_iter values = Ok [] →
     let e := RedisList.extend self values w in
     e.1 = Raise ResponseError ∧ db e.2 = db w) ∧
  (∀ values e, py_iter values = Raise e →
     RedisList.extend self values w = (Raise TypeError, w)).
Proof.
  intros name s Hq Hl. destruct w as [d sn ot rnd n]. simpl in Hq, Hl.
  subst ot. split_and!.
  - intros value a. subst a. unfold RedisList.append. fold name s.
    rewrite bind_eq, (rpush_quiet _ _ l) by done.
    rewrite decide_False by done. simpl. split; [done|].
    apply lookup_insert_eq.
  - intros values vs Hvs Hne e. subst e.
    rewrite (list_extend_quiet self values vs l) by done.
    rewrite decide_False by (by destruct vs). simpl. split; [done|].
    apply lookup_insert_eq.
  - intros values Hvs e. subst e.
    by rewrite (list_extend_quiet self values [] l).
  - intros values e Hvs. unfold RedisList.extend.
    rewrite bind_eq. unfold lift at 1. rewrite Hvs.
    by rewrite (py_iter_raises _ _ Hvs).
Qed.

Lemma list_append_extend_witness :
  let self := RedisList.RedisList "foo" Example.pickle in
  let w := Example.quiet
             (Store.Database {[ "foo" := Store.RList ["Sa"] ]} ∅) in
  Store.data (db (RedisList.extend self (PyList [PyStr "b"; PyStr "c"]) w).2)
    !! "foo" = Some (Store.RList ["Sa"; "Sb"; "Sc"]) ∧
  (RedisList.extend self (PyList []) w).1 = Raise ResponseError ∧
  (RedisList.extend self (PyInt 0) w).1 = Raise TypeError.
Proof.
  intros self w.
  destruct (list_append_extend self w ["Sa"]) as (_ & Hext & Hnone & Hbad);
    [done|by vm_compute|].
  split_and!.
  - by apply (Hext (PyList [PyStr "b"; PyStr "c"]) _ eq_refl).
  - by apply (Hnone (PyList []) eq_refl).
  - by rewrite (Hbad (PyInt 0) TypeError eq_refl).
Defined.

(** * More of [RedisSet] *)

Lemma sadd_quiet (k : bytes) (vs : list bytes) (S : gset bytes) d sn rnd n :
  Store.as_set (Store.data d !! k) = Some S → vs ≠ [] →
  redis.sadd k vs (World d sn [] rnd n)
  = (Ok (Z.of_nat (size (S ∪ list_to_set vs) - size S)),
     World (Store.put k (Store.RSet (S ∪ list_to_set vs)) d)
           (sn ++ [Cmd (Store.SADD k vs)]) [] rnd n).
Proof.
  intros HS Hvs. unfold redis.sadd. rewrite bind_eq, execute_quiet. simpl.
  rewrite decide_False by done. by rewrite HS.
Qed.

Lemma set_update_quiet (self : RedisSet.t) (others : list pyval)
    (items : list pyval) (S : gset bytes) d sn rnd n :
  let name := RedisSet.name self in
  let bs := dumps (RedisSet.serializer self) <$> items in
  Store.as_set (Store.data d !! name) = Some S →
  RedisSet.flatten others = Ok items →
  Forall (λ x, hashable x = true) items →
  RedisSet.update self others (World d sn [] rnd n)
  = if decide (items = []) then (Ok tt, World d sn [] rnd n)
    else (Ok tt,
          World (Store.put name (Store.RSet (S ∪ list_to_set bs)) d)
                (sn ++ [Cmd (Store.SADD name bs)]) [] rnd n).
Proof.
  intros name bs HS Hf Hh. unfold RedisSet.update. fold name.
  rewrite bind_eq. unfold lift at 1. rewrite Hf.
  rewrite bind_eq. unfold lift at 1. rewrite new_data_hashable by done.
  fold bs. destruct items as [|x items]; [done|].
  rewrite decide_True by done. rewrite decide_False by done.
  by rewrite bind_eq, (sadd_quiet _ _ S).
Qed.

(** X9. [set.update] adds the serialized items of its arguments to
    the members, with one [SADD]; with no item at all it sends nothing and
    changes nothing; with an argument that cannot be iterated it raises
    [TypeError] before anything is sent. *)
Theorem set_update (self : RedisSet.t) (others_ : list pyval) (w : world)
    (S : gset bytes) :
  let name := RedisSet.name self in
  let u := RedisSet.update self others_ w in
  others w = [] →
  Store.as_set (Store.data (db w) !! name) = Some S →
  (∀ items, RedisSet.flatten others_ = Ok items →
     Forall (λ x, hashable x = true) items →
     (items = [] → u = (Ok tt, w)) ∧
     (items ≠ [] →
        u.1 = Ok tt ∧
        Store.data (db u.2) !! name
        = Some (Store.RSet
                  (S ∪ list_to_set (dumps (RedisSet.serializer self)
                                      <$> items))))) ∧
  (∀ e, RedisSet.flatten others_ = Raise e → u = (Raise TypeError, w)).
Proof.
  intros name u Hq HS. subst u. destruct w as [d sn ot rnd n].
  simpl in Hq, HS. subst ot. split.
  - intros items Hf Hh.
    rewrite (set_update_quiet self others_ items S) by done. split.
    + intros ->. done.
    + intros Hne. rewrite decide_False by done. simpl. split; [done|].
      apply lookup_insert_eq.
  - intros e Hf. unfold RedisSet.update. rewrite bind_eq. unfold lift at 1.
    rewrite Hf. by rewrite (flatten_raises _ _ Hf).
Qed.

Lemma set_update_witness :
  let self := RedisSet.RedisSet "bar" Example.pickle in
  let w := Example.fresh in
  RedisSet.update self [PyList []] w = (Ok tt, w) ∧
  RedisSet.update self [PyNone] w = (Raise TypeError, w) ∧
  Store.data (db (RedisSet.update self [PyTuple [PyStr "oats"]] w).2) !! "bar"
  = Some (Store.RSet (∅ ∪ list_to_set ["Soats"])).
Proof.
  intros self w.
  split_and!.
  - destruct (set_update self [PyList []] w ∅ eq_refl eq_refl) as [Hok _].
    by apply (Hok [] eq_refl).
  - destruct (set_update self [PyNone] w ∅ eq_refl eq_refl) as [_ Hbad].
    by apply (Hbad TypeError).
  - destruct (set_update self [PyTuple [PyStr "oats"]] w ∅ eq_refl eq_refl)
      as [Hok _].
    destruct (Hok [PyStr "oats"] eq_refl) as [_ Hadd]; [by repeat constructor|].
    by apply Hadd.
Defined.

(** X10. [set.add(item)] with a hashable item makes the serialized item a
    member and keeps the others; adding it again changes nothing in the
    members, and [list(set)] then has the item among as many elements as
    there are members. *)
Theorem set_add (self : RedisSet.t) (item : pyval) (w : world)
    (S : gset bytes) :
  let name := RedisSet.name self in
  let b := dumps (RedisSet.serializer self) item in
  let a := RedisSet.add self item w in
  others w = [] →
  Store.as_set (Store.data (db w) !! name) = Some S →
  hashable item = true →
  a.1 = Ok tt ∧
  Store.data (db a.2) !! name = Some (Store.RSet (S ∪ {[b]})) ∧
  Store.data (db (RedisSet.add self item a.2).2) !! name
  = Some (Store.RSet (S ∪ {[b]})) ∧
  (∀ xs, Forall2 (λ m x, loads (RedisSet.serializer self) m = Ok x)
                 (elements (S ∪ {[b]})) xs →
     roundtrip (RedisSet.serializer self) item →
     (RedisSet.__iter__ self a.2).1 = Ok xs ∧
     item ∈ xs ∧ length xs = size (S ∪ {[b]})).
Proof.
  intros name b a Hq HS Hh. subst a. destruct w as [d sn ot rnd n].
  simpl in Hq, HS. subst ot. unfold RedisSet.add.
  assert (Hone : ∀ S' d' sn',
    Store.as_set (Store.data d' !! name) = Some S' →
    RedisSet.update self [PyTuple [item]] (World d' sn' [] rnd n)
    = (Ok tt, World (Store.put name (Store.RSet (S' ∪ {[b]})) d')
                    (sn' ++ [Cmd (Store.SADD name [b])]) [] rnd n)).
  { intros S' d' sn' HS'.
    rewrite (set_update_quiet self _ [item] S') by (done || by constructor).
    rewrite decide_False by done. simpl.
    by rewrite (right_id_L ∅ (∪)). }
  rewrite (Hone S d sn HS). simpl.
  rewrite (Hone (S ∪ {[b]})) by (simpl; by rewrite lookup_insert_eq).
  simpl. rewrite !lookup_insert_eq.
  split_and!; [done..| |].
  - by rewrite <-(assoc_L (∪)), (idemp_L (∪)).
  - intros xs Hxs Hrt. destruct self as [nm s]. simpl in *.
    rewrite (set_iter_quiet nm s (S ∪ {[b]}) xs)
      by (done || simpl; by rewrite lookup_insert_eq).
    split; [done|]. split.
    + assert (Hb : b ∈ elements (S ∪ {[b]})) 
        by (apply elem_of_elements, elem_of_union; right;
            by apply elem_of_singleton).
      apply list_elem_of_lookup in Hb as [i Hi].
      destruct (Forall2_lookup_l _ _ _ i b Hxs Hi) as (x & Hx & Hload).
      apply list_elem_of_lookup. exists i.
      unfold roundtrip in Hrt. fold b in Hrt. congruence.
    + by rewrite <-(Forall2_length _ _ _ Hxs).
Qed.

Lemma set_add_witness :
  let self := RedisSet.RedisSet "foo" Example.pickle in
  let a := RedisSet.add self (PyStr "grunge") Example.fresh in
  a.1 = Ok tt ∧
  (RedisSet.__iter__ self (RedisSet.add self (PyStr "grunge") a.2).2).1
  = Ok [PyStr "grunge"].
Proof.
  intros self a.
  destruct (set_add self (PyStr "grunge") Example.fresh ∅ eq_refl eq_refl
              eq_refl) as (Hok & _).
  split; [exact Hok|]. by vm_compute.
Defined.

(** * More of [RedisDict] *)

Lemma hset_quiet (k f v : bytes) (h : gmap bytes bytes) d sn rnd n :
  Store.as_hash (Store.data d !! k) = Some h →
  ∃ m, redis.hset k f v (World d sn [] rnd n)
       = (Ok m, World (Store.put k (Store.RHash (<[f:=v]> h)) d)
                      (sn ++ [Cmd (Store.HSET k f v)]) [] rnd n).
Proof.
  intros Hh. unfold redis.hset. rewrite bind_eq, execute_quiet. simpl.
  rewrite Hh. simpl. eauto.
Qed.

Lemma hdel_quiet (k f : bytes) (h : gmap bytes bytes) d sn rnd n :
  Store.as_hash (Store.data d !! k) = Some h →
  redis.hdel k f (World d sn [] rnd n)
  = match h !! f with
    | Some _ => (Ok 1, World (Store.put_hash k (delete f h) d)
                             (sn ++ [Cmd (Store.HDEL k f)]) [] rnd n)
    | None => (Ok 0, World d (sn ++ [Cmd (Store.HDEL k f)]) [] rnd n)
    end.
Proof.
  intros Hh. unfold redis.hdel. rewrite bind_eq, execute_quiet. simpl.
  rewrite Hh. by destruct (h !! f).
Qed.

Lemma dict_setitem_quiet (self : RedisDict.t) (item value : pyval)
    (h : gmap bytes bytes) d sn rnd n :
  let name := RedisDict.name self in
  let f := dumps (RedisDict.key_serializer self) item in
  let b := dumps (RedisDict.serializer self) value in
  Store.as_hash (Store.data d !! name) = Some h → hashable item = true →
  RedisDict.__setitem__ self item value (World d sn [] rnd n)
  = (Ok tt, World (Store.put name (Store.RHash (<[f:=b]> h)) d)
                  (sn ++ [Cmd (Store.HSET name f b)]) [] rnd n).
Proof.
  intros name f b Hh Hk. unfold RedisDict.__setitem__.
  rewrite bind_eq, hash_ok by done. fold name f b. rewrite bind_eq.
  by destruct (hset_quiet name f b h d sn rnd n Hh) as [m ->].
Qed.

Lemma dict_delitem_quiet (self : RedisDict.t) (item : pyval)
    (h : gmap bytes bytes) d sn rnd n :
  let name := RedisDict.name self in
  let f := dumps (RedisDict.key_serializer self) item in
  Store.as_hash (Store.data d !! name) = Some h →
  RedisDict.__delitem__ self item (World d sn [] rnd n)
  = match h !! f with
    | Some _ => (Ok tt, World (Store.put_hash name (delete f h) d)
                              (sn ++ [Cmd (Store.HDEL name f)]) [] rnd n)
    | None => (Raise KeyError,
               World d (sn ++ [Cmd (Store.HDEL name f)]) [] rnd n)
    end.
Proof.
  intros name f Hh. unfold RedisDict.__delitem__. fold name f.
  rewrite bind_eq, (hdel_quiet _ _ h) by done. by destruct (h !! f).
Qed.

(** X11. [d[k] = v] with a hashable key writes the field of the key,
    replacing the value it had; [del d[k]] then succeeds and leaves the
    other fields as they were before the assignment; a second [del d[k]]
    raises [KeyError]. *)
Theorem dict_setitem_delitem (self : RedisDict.t) (item value : pyval)
    (w : world) (h : gmap bytes bytes) :
  let name := RedisDict.name self in
  let f := dumps (RedisDict.key_serializer self) item in
  let b := dumps (RedisDict.serializer self) value in
  let p := RedisDict.__setitem__ self item value w in
  let q := RedisDict.__delitem__ self item p.2 in
  let r := RedisDict.__delitem__ self item q.2 in
  others w = [] →
  Store.as_hash (Store.data (db w) !! name) = Some h →
  hashable item = true →
  p.1 = Ok tt ∧
  Store.data (db p.2) !! name = Some (Store.RHash (<[f:=b]> h)) ∧
  q.1 = Ok tt ∧
  Store.as_hash (Store.data (db q.2) !! name) = Some (delete f h) ∧
  r.1 = Raise KeyError.
Proof.
  intros name f b p q r Hq Hh Hk. subst p q r. destruct w as [d sn ot rnd n].
  simpl in Hq, Hh. subst ot.
  rewrite (dict_setitem_quiet self item value h) by done. cbn [fst snd].
  rewrite (dict_delitem_quiet self item (<[f:=b]> h))
    by (simpl; by rewrite lookup_insert_eq).
  fold f. rewrite lookup_insert_eq, delete_insert_eq. cbn [fst snd].
  rewrite (dict_delitem_quiet self item (delete f h))
    by apply as_hash_put_hash.
  fold f. rewrite lookup_delete_eq. cbn [fst snd db].
  split_and!; try done.
  - apply lookup_insert_eq.
  - apply as_hash_put_hash.
Qed.

Lemma dict_setitem_delitem_witness :
  let self := RedisDict.RedisDict "foo" Example.pickle Example.pickle in
  let p := RedisDict.__setitem__ self (PyStr "a") (PyStr "b") Example.fresh in
  let q := RedisDict.__delitem__ self (PyStr "a") p.2 in
  p.1 = Ok tt ∧ q.1 = Ok tt ∧
  (RedisDict.__delitem__ self (PyStr "a") q.2).1 = Raise KeyError.
Proof.
  intros self p q.
  destruct (dict_setitem_delitem self (PyStr "a") (PyStr "b") Example.fresh ∅
              eq_refl eq_refl eq_refl) as (H1 & _ & H2 & _ & H3).
  by split_and!.
Defined.

Lemma dict_scan_quiet (k : bytes) (h : gmap bytes bytes) d sn rnd n :
  Store.as_hash (Store.data d !! k) = Some h →
  redis.hscan_iter k (World d sn [] rnd n)
  = (Ok (map_to_list h), World d (sn ++ [Cmd (Store.HSCAN k)]) [] rnd n).
Proof.
  intros Hh. unfold redis.hscan_iter. rewrite bind_eq, execute_quiet. simpl.
  by rewrite Hh.
Qed.

(** X12. [d.items()] gives one decoded item for each field of the hash, and
    [list(d)] the keys of these items in the same order; both give nothing
    on a missing key, and [list(d)] does not decode the values.  The store
    is not changed. *)
Theorem dict_items_iter (self : RedisDict.t) (w : world)
    (h : gmap bytes bytes) :
  let s := RedisDict.serializer self in
  let ks := RedisDict.key_serializer self in
  others w = [] →
  Store.as_hash (Store.data (db w) !! RedisDict.name self) = Some h →
  (∀ keys, Forall2 (λ fb k, loads ks fb.1 = Ok k) (map_to_list h) keys →
     (RedisDict.__iter__ self w).1 = Ok keys ∧
     db (RedisDict.__iter__ self w).2 = db w) ∧
  (∀ kvs,
     Forall2 (λ fb kv, loads ks fb.1 = Ok kv.1 ∧ loads s fb.2 = Ok kv.2)
             (map_to_list h) kvs →
     (RedisDict.items self w).1 = Ok kvs ∧
     (RedisDict.__iter__ self w).1 = Ok kvs.*1 ∧
     length kvs = size h ∧
     db (RedisDict.items self w).2 = db w).
Proof.
  intros s ks Hq Hh. destruct w as [d sn ot rnd n]. simpl in Hq, Hh. subst ot.
  assert (Hkeys : ∀ keys,
    Forall2 (λ fb k, loads ks fb.1 = Ok k) (map_to_list h) keys →
    ∃ sn', RedisDict.__iter__ self (World d sn [] rnd n)
           = (Ok keys, World d sn' [] rnd n)).
  { intros keys HR. unfold RedisDict.__iter__.
    rewrite bind_eq, (dict_scan_quiet _ h) by done. fold ks.
    match goal with |- ∃ _, map_each ?f _ ?w = _ =>
      enough (Hm : ∀ w', map_each f (map_to_list h) w' = (Ok keys, w'))
        by (rewrite Hm; eauto)
    end.
    induction HR as [|[f b] k fbs keys Hk _ IH]; intros w; [done|].
    simpl in *. rewrite bind_eq. unfold lift at 1. rewrite Hk.
    by rewrite bind_eq, IH. }
  split.
  - intros keys HR. destruct (Hkeys keys HR) as [sn' ->]. done.
  - intros kvs HR.
    assert (HR' : Forall2 (λ fb k, loads ks fb.1 = Ok k)
                    (map_to_list h) kvs.*1).
    { apply Forall2_fmap_r. eapply Forall2_impl; [exact HR|]. by intros ?? [??]. }
    destruct (Hkeys _ HR') as [sn' ->].
    assert (Hitems : ∃ sn'', RedisDict.items self (World d sn [] rnd n)
                             = (Ok kvs, World d sn'' [] rnd n)).
    { unfold RedisDict.items.
      rewrite bind_eq, (dict_scan_quiet _ h) by done. fold s ks.
      match goal with |- ∃ _, map_each ?f _ ?w = _ =>
        enough (Hm : ∀ w', map_each f (map_to_list h) w' = (Ok kvs, w'))
          by (rewrite Hm; eauto)
      end.
      clear HR' Hkeys. induction HR as [|[f b] [k v] fbs kvs [Hk Hv] _ IH];
        intros w; [done|].
      simpl in *. rewrite !bind_eq. unfold lift at 1. rewrite Hk.
      rewrite bind_eq. unfold lift at 1. rewrite Hv. simpl.
      by rewrite bind_eq, IH. }
    destruct Hitems as [sn'' ->]. split_and!; try done.
    by rewrite <-(Forall2_length _ _ _ HR), length_map_to_list.
Qed.

Lemma dict_items_iter_witness :
  let self := RedisDict.RedisDict "foo" Example.pickle Example.pickle in
  let w := Example.quiet
             (Store.Database
                {[ "foo" := Store.RHash {[ "Sa" := "?" ]} ]} ∅) in
  (RedisDict.__iter__ self w).1 = Ok [PyStr "a"] ∧
  (RedisDict.items self w).1 = Raise UnpicklingError.
Proof.
  intros self w. split; [|by vm_compute].
  destruct (dict_items_iter self w {[ "Sa" := "?" ]} eq_refl) as [Hkeys _];
    [by vm_compute|].
  apply (Hkeys [PyStr "a"]). rewrite map_to_list_singleton.
  by repeat constructor.
Defined.

(** * More of [RedisSortedSet] *)

Lemma zadd_quiet (k : bytes) (pairs : list (Z * bytes)) (z : gmap bytes Z)
    d sn rnd n :
  Store.as_zset (Store.data d !! k) = Some z →
  redis.zadd k pairs (World d sn [] rnd n)
  = if decide (pairs = []) then
      (Raise ResponseError,
       World d (sn ++ [Cmd (Store.ZADD k pairs)]) [] rnd n)
    else
      (Ok (Z.of_nat (size (Store.zadd pairs z) - size z)),
       World (Store.put k (Store.RZSet (Store.zadd pairs z)) d)
             (sn ++ [Cmd (Store.ZADD k pairs)]) [] rnd n).
Proof.
  intros Hz. unfold redis.zadd. rewrite bind_eq, execute_quiet. simpl.
  case_decide; [done|]. by rewrite Hz.
Qed.

Lemma zscore_quiet (k m : bytes) (z : gmap bytes Z) d sn rnd n :
  Store.as_zset (Store.data d !! k) = Some z →
  redis.zscore k m (World d sn [] rnd n)
  = (Ok (z !! m), World d (sn ++ [Cmd (Store.ZSCORE k m)]) [] rnd n).
Proof.
  intros Hz. unfold redis.zscore. rewrite bind_eq, execute_quiet. simpl.
  by rewrite Hz.
Qed.

Lemma as_score_raises (v : pyval) (e : exn) :
  as_score v = Raise e → e = TypeError.
Proof. destruct v; naive_solver. Qed.

Lemma zset_setitem_quiet (self : RedisSortedSet.t) (key value : pyval)
    (sc : Z) (z : gmap bytes Z) d sn rnd n :
  let name := RedisSortedSet.name self in
  let m := dumps (RedisSortedSet.serializer self) key in
  Store.as_zset (Store.data d !! name) = Some z →
  hashable key = true → as_score value = Ok sc →
  RedisSortedSet.__setitem__ self key value (World d sn [] rnd n)
  = (Ok tt, World (Store.put name (Store.RZSet (<[m:=sc]> z)) d)
                  (sn ++ [Cmd (Store.ZADD name [(sc, m)])]) [] rnd n).
Proof.
  intros name m Hz Hk Hv. unfold RedisSortedSet.__setitem__.
  rewrite bind_eq, hash_ok by done. rewrite bind_eq. unfold lift at 1.
  rewrite Hv. fold name m. by rewrite bind_eq, (zadd_quiet _ _ z).
Qed.

Lemma zset_getitem_quiet (self : RedisSortedSet.t) (key : pyval)
    (z : gmap bytes Z) d sn rnd n :
  let name := RedisSortedSet.name self in
  let m := dumps (RedisSortedSet.serializer self) key in
  Store.as_zset (Store.data d !! name) = Some z →
  RedisSortedSet.__getitem__ self key (World d sn [] rnd n)
  = (match z !! m with Some e => Ok e | None => Raise KeyError end,
     World d (sn ++ [Cmd (Store.ZSCORE name m)]) [] rnd n).
Proof.
  intros name m Hz. unfold RedisSortedSet.__getitem__. fold name m.
  rewrite bind_eq, (zscore_quiet _ _ z) by done. by destruct (z !! m).
Qed.

Lemma zset_contains_quiet (self : RedisSortedSet.t) (key : pyval)
    (z : gmap bytes Z) d sn rnd n :
  let name := RedisSortedSet.name self in
  let m := dumps (RedisSortedSet.serializer self) key in
  Store.as_zset (Store.data d !! name) = Some z →
  RedisSortedSet.__contains__ self key (World d sn [] rnd n)
  = (Ok (bool_decide (z !! m ≠ None)),
     World d (sn ++ [Cmd (Store.ZSCORE name m)]) [] rnd n).
Proof.
  intros name m Hz. unfold RedisSortedSet.__contains__. fold name m.
  by rewrite bind_eq, (zscore_quiet _ _ z).
Qed.

(** X13. [s[key] = value] with a hashable key and a number gives the member
    that score, replacing the one it had: [s[key]] then returns the score
    and [key in s] is true.  With a value that is not a number it raises
    [TypeError] before anything is sent. *)
Theorem zset_setitem_getitem (self : RedisSortedSet.t) (key value : pyval)
    (w : world) (z : gmap bytes Z) :
  let name := RedisSortedSet.name self in
  let m := dumps (RedisSortedSet.serializer self) key in
  let p := RedisSortedSet.__setitem__ self key value w in
  others w = [] →
  Store.as_zset (Store.data (db w) !! name) = Some z →
  hashable key = true →
  (∀ sc, as_score value = Ok sc →
     p.1 = Ok tt ∧
     Store.data (db p.2) !! name = Some (Store.RZSet (<[m:=sc]> z)) ∧
     (RedisSortedSet.__getitem__ self key p.2).1 = Ok sc ∧
     (RedisSortedSet.__contains__ self key p.2).1 = Ok true) ∧
  (∀ e, as_score value = Raise e → p = (Raise TypeError, w)).
Proof.
  intros name m p Hq Hz Hk. subst p. destruct w as [d sn ot rnd n].
  simpl in Hq, Hz. subst ot. split.
  - intros sc Hv. rewrite (zset_setitem_quiet self key value sc z) by done.
    cbn [fst snd].
    rewrite (zset_getitem_quiet self key (<[m:=sc]> z))
      by (simpl; by rewrite lookup_insert_eq).
    rewrite (zset_contains_quiet self key (<[m:=sc]> z))
      by (simpl; by rewrite lookup_insert_eq).
    fold m. rewrite !lookup_insert_eq. cbn [fst snd db].
    split_and!; try done. apply lookup_insert_eq.
  - intros e Hv. unfold RedisSortedSet.__setitem__.
    rewrite bind_eq, hash_ok by done. rewrite bind_eq. unfold lift at 1.
    rewrite Hv. by rewrite (as_score_raises _ _ Hv).
Qed.

Lemma zset_setitem_getitem_witness :
  let self := RedisSortedSet.RedisSortedSet "foo" Example.pickle in
  let p := RedisSortedSet.__setitem__ self (PyStr "bar") (PyInt 5)
             Example.fresh in
  (RedisSortedSet.__getitem__ self (PyStr "bar") p.2).1 = Ok 5 ∧
  RedisSortedSet.__setitem__ self (PyStr "bar") (PyStr "baz") Example.fresh
  = (Raise TypeError, Example.fresh).
Proof.
  intros self p. split.
  - destruct (zset_setitem_getitem self (PyStr "bar") (PyInt 5) Example.fresh ∅
                eq_refl eq_refl eq_refl) as [Hnum _].
    by apply (Hnum 5 eq_refl).
  - destruct (zset_setitem_getitem self (PyStr "bar") (PyStr "baz")
                Example.fresh ∅ eq_refl eq_refl eq_refl) as [_ Hbad].
    by apply (Hbad TypeError).
Defined.

(** X14. Reading a member of a sorted set does not change the store.  For a
    member that is there, [s[key]] and [s.get(key)] give its score and
    [key in s] is true; for one that is not, [s[key]] raises [KeyError],
    [s.get(key, default)] gives the default and [key in s] is false. *)
Theorem zset_lookup (self : RedisSortedSet.t) (key : pyval)
    (default : option Z) (w : world) (z : gmap bytes Z) :
  let name := RedisSortedSet.name self in
  let m := dumps (RedisSortedSet.serializer self) key in
  others w = [] →
  Store.as_zset (Store.data (db w) !! name) = Some z →
  (RedisSortedSet.__getitem__ self key w).1
  = match z !! m with Some e => Ok e | None => Raise KeyError end ∧
  (RedisSortedSet.get self key default w).1
  = Ok (match z !! m with Some e => Some e | None => default end) ∧
  (RedisSortedSet.__contains__ self key w).1 = Ok (bool_decide (is_Some (z !! m))) ∧
  db (RedisSortedSet.__getitem__ self key w).2 = db w ∧
  db (RedisSortedSet.get self key default w).2 = db w ∧
  db (RedisSortedSet.__contains__ self key w).2 = db w.
Proof.
  intros name m Hq Hz. destruct w as [d sn ot rnd n].
  simpl in Hq, Hz. subst ot. unfold RedisSortedSet.get, catch.
  rewrite fmap_eq.
  rewrite (zset_getitem_quiet self key z), (zset_contains_quiet self key z)
    by done.
  fold m. destruct (z !! m) as [e|]; simpl; split_and!; done.
Qed.

Lemma zset_lookup_witness :
  let self := RedisSortedSet.RedisSortedSet "foo" Example.pickle in
  let w := Example.quiet
             (Store.Database {[ "foo" := Store.RZSet {[ "Sbar" := 5 ]} ]} ∅) in
  (RedisSortedSet.__getitem__ self (PyStr "bat") w).1 = Raise KeyError ∧
  (RedisSortedSet.get self (PyStr "bat") (Some 0) w).1 = Ok (Some 0) ∧
  (RedisSortedSet.get self (PyStr "bar") (Some 0) w).1 = Ok (Some 5).
Proof.
  intros self w.
  assert (Hz : Store.as_zset (Store.data (db w) !! "foo")
               = Some {[ "Sbar" := 5 ]}) by (by vm_compute).
  destruct (zset_lookup self (PyStr "bat") (Some 0) w _ eq_refl Hz)
    as (H1 & H2 & _).
  destruct (zset_lookup self (PyStr "bar") (Some 0) w _ eq_refl Hz)
    as (_ & H3 & _).
  split_and!.
  - etrans; [exact H1|by vm_compute].
  - etrans; [exact H2|by vm_compute].
  - etrans; [exact H3|by vm_compute].
Defined.






Lemma zscan_quiet (k : bytes) (z : gmap bytes Z) d sn rnd n :
  Store.as_zset (Store.data d !! k) = Some z →
  redis.zscan_iter k (World d sn [] rnd n)
  = (Ok (map_to_list z), World d (sn ++ [Cmd (Store.ZSCAN k)]) [] rnd n).
Proof.
  intros Hz. unfold redis.zscan_iter. rewrite bind_eq, execute_quiet. simpl.
  by rewrite Hz.
Qed.

Lemma zcard_quiet (k : bytes) (z : gmap bytes Z) d sn rnd n :
  Store.as_zset (Store.data d !! k) = Some z →
  redis.zcard k (World d sn [] rnd n)
  = (Ok (Z.of_nat (size z)), World d (sn ++ [Cmd (Store.ZCARD k)]) [] rnd n).
Proof.
  intros Hz. unfold redis.zcard. rewrite bind_eq, execute_quiet. simpl.
  by rewrite Hz.
Qed.

(** X16. [s.items()] gives each member of the sorted set, decoded, with its
    score; [list(s)] gives the members of these items in the same order and
    [len(s)] their number.  None of the three changes the store. *)
Theorem zset_items_iter_len (self : RedisSortedSet.t) (w : world)
    (z : gmap bytes Z) (kvs : list (pyval * Z)) :
  let name := RedisSortedSet.name self in
  let s := RedisSortedSet.serializer self in
  others w = [] →
  Store.as_zset (Store.data (db w) !! name) = Some z →
  Forall2 (λ ms kv, loads s ms.1 = Ok kv.1 ∧ ms.2 = kv.2) (map_to_list z) kvs →
  (RedisSortedSet.items self w).1 = Ok kvs ∧
  (RedisSortedSet.__iter__ self w).1 = Ok kvs.*1 ∧
  (RedisSortedSet.__len__ self w).1 = Ok (Z.of_nat (length kvs)) ∧
  (∀ m e, z !! m = Some e → ∃ k, loads s m = Ok k ∧ (k, e) ∈ kvs) ∧
  db (RedisSortedSet.items self w).2 = db w ∧
  db (RedisSortedSet.__iter__ self w).2 = db w ∧
  db (RedisSortedSet.__len__ self w).2 = db w.
Proof.
  intros name s Hq Hz HR. destruct w as [d sn ot rnd n].
  simpl in Hq, Hz. subst ot.
  subst name s. destruct self as [nm s']. simpl in *.
  rewrite (zset_items_quiet nm s' z kvs) by done.
  unfold RedisSortedSet.__len__. simpl.
  rewrite (zcard_quiet nm z) by done.
  assert (Hiter : ∃ sn',
    RedisSortedSet.__iter__ (RedisSortedSet.RedisSortedSet nm s')
      (World d sn [] rnd n) = (Ok kvs.*1, World d sn' [] rnd n)).
  { unfold RedisSortedSet.__iter__. simpl.
    rewrite bind_eq, (zscan_quiet nm z) by done.
    match goal with |- ∃ _, map_each ?f _ ?w = _ =>
      enough (Hm : ∀ w', map_each f (map_to_list z) w' = (Ok kvs.*1, w'))
        by (rewrite Hm; eauto)
    end.
    clear Hz. induction HR as [|[m e] [k v] mes kvs [Hk Hv] _ IH];
      intros w; [done|].
    simpl in *. rewrite bind_eq. unfold lift at 1. rewrite Hk.
    by rewrite bind_eq, IH. }
  destruct Hiter as [sn' ->]. split_and!; try done.
  - simpl. by rewrite <-(Forall2_length _ _ _ HR), length_map_to_list.
  - intros m e Hm. apply elem_of_map_to_list, list_elem_of_lookup in Hm as [i Hi].
    destruct (Forall2_lookup_l _ _ _ i (m, e) HR Hi) as ([k v] & Hkv & Hk & Hv).
    simpl in *. subst v. exists k. split; [done|].
    by apply list_elem_of_lookup_2 in Hkv.
Qed.

Lemma zset_items_iter_len_witness :
  let self := RedisSortedSet.RedisSortedSet "foo" Example.pickle in
  let w := Example.quiet
             (Store.Database {[ "foo" := Store.RZSet {[ "Sbar" := 5 ]} ]} ∅) in
  (RedisSortedSet.items self w).1 = Ok [(PyStr "bar", 5)] ∧
  (RedisSortedSet.__len__ self w).1 = Ok 1.
Proof.
  intros self w.
  assert (Hz : Store.as_zset (Store.data (db w) !! "foo")
               = Some {[ "Sbar" := 5 ]}) by (by vm_compute).
  assert (HR : Forall2 (λ (ms : bytes * Z) (kv : pyval * Z),
                          loads Example.pickle ms.1 = Ok kv.1 ∧ ms.2 = kv.2)
                 (map_to_list {[ "Sbar" := 5 ]}) [(PyStr "bar", 5)]).
  { rewrite map_to_list_singleton. by repeat constructor. }
  destruct (zset_items_iter_len self w _ _ eq_refl Hz HR)
    as (Hi & _ & Hl & _).
  split; [exact Hi|exact Hl].
Defined.

(** * [clear] *)

(** X17. [clear] of a list, set, dict or sorted set wrapper deletes the key
    whatever it holds and never raises; the other keys are untouched.
    Reading the collection afterwards gives nothing: no items, a length of
    zero, no score. *)
Theorem clear_empties (name : bytes) (s ks : codec) (w : world) :
  let l := RedisList.RedisList name s in
  let st := RedisSet.RedisSet name s in
  let h := RedisDict.RedisDict name s ks in
  let z := RedisSortedSet.RedisSortedSet name s in
  others w = [] →
  ∃ w',
    RedisList.clear l w = (Ok tt, w') ∧ RedisSet.clear st w = (Ok tt, w') ∧
    RedisDict.clear h w = (Ok tt, w') ∧
    RedisSortedSet.clear z w = (Ok tt, w') ∧
    Store.data (db w') = delete name (Store.data (db w)) ∧
    (RedisList.__iter__ l w').1 = Ok [] ∧
    (RedisList.__len__ l w').1 = Ok 0 ∧
    (RedisSet.__iter__ st w').1 = Ok [] ∧
    (RedisDict.items h w').1 = Ok [] ∧
    (RedisDict.__iter__ h w').1 = Ok [] ∧
    (RedisSortedSet.items z w').1 = Ok [] ∧
    (RedisSortedSet.__len__ z w').1 = Ok 0 ∧
    (∀ key, (RedisSortedSet.__contains__ z key w').1 = Ok false).
Proof.
  intros l st h z Hq. destruct w as [d sn ot rnd n]. simpl in Hq. subst ot.
  destruct (delete_quiet name d sn rnd n) as [m Hdel].
  eexists. split_and!.
  - unfold RedisList.clear. simpl. by rewrite bind_eq, Hdel.
  - unfold RedisSet.clear. simpl. by rewrite bind_eq, Hdel.
  - unfold RedisDict.clear. simpl. by rewrite bind_eq, Hdel.
  - unfold RedisSortedSet.clear. simpl. by rewrite bind_eq, Hdel.
  - apply data_after_del.
  - unfold RedisList.__iter__, RedisList.__len__. simpl.
    rewrite bind_eq, (llen_quiet _ []) by (by rewrite cleared_lookup).
    by rewrite bind_eq, (lrange_quiet _ _ _ [])
      by (by rewrite cleared_lookup).
  - unfold RedisList.__len__. simpl.
    by rewrite (llen_quiet _ []) by (by rewrite cleared_lookup).
  - unfold RedisSet.__iter__, redis.sscan_iter. simpl.
    rewrite !bind_eq, execute_quiet. simpl. by rewrite cleared_lookup.
  - unfold RedisDict.items. simpl.
    by rewrite bind_eq, (dict_scan_quiet _ ∅) by (by rewrite cleared_lookup).
  - unfold RedisDict.__iter__. simpl.
    by rewrite bind_eq, (dict_scan_quiet _ ∅) by (by rewrite cleared_lookup).
  - unfold RedisSortedSet.items. simpl.
    by rewrite bind_eq, (zscan_quiet _ ∅) by (by rewrite cleared_lookup).
  - unfold RedisSortedSet.__len__. simpl.
    by rewrite (zcard_quiet _ ∅) by (by rewrite cleared_lookup).
  - intros key.
    by rewrite (zset_contains_quiet z key ∅) by (by rewrite cleared_lookup).
Qed.

Lemma clear_empties_witness :
  let w := Example.quiet
             (Store.Database {[ "foo" := Store.RString "bar" ]} ∅) in
  ∃ w', RedisList.clear (RedisList.RedisList "foo" Example.pickle) w
        = (Ok tt, w') ∧
        (RedisList.__len__ (RedisList.RedisList "foo" Example.pickle) w').1
        = Ok 0.
Proof.
  intros w.
  destruct (clear_empties "foo" Example.pickle Example.pickle w eq_refl)
    as (w' & Hl & _ & _ & _ & _ & _ & Hlen & _).
  by exists w'.
Defined.

(** * More of [RedisTTLSet] *)










(** X20. Adding an item and asking for it later, with a clock that goes on
    between the two calls: [item in s] is true exactly when the clock, as
    [__contains__] reads it, has not passed the reading of [add] plus the
    time to live; when it has, the item is removed from the store. *)
Theorem ttl_add_then_contains (name : bytes) (ttl : Z) (s : codec)
    (clock : list event → Z) (item : pyval) (w : world) (z : gmap bytes Z) :
  let time : M Z := λ w, (Ok (clock (sent w)), w) in
  let self := RedisTTLSet.__init__ name ttl s time in
  let m := dumps s item in
  let w1 := (RedisTTLSet.add self item w).2 in
  let t0 := clock (sent w) in
  let t1 := clock (sent w1 ++ [Cmd (Store.ZSCORE name m)]) in
  let c := RedisTTLSet.__contains__ self item w1 in
  others w = [] →
  Store.as_zset (Store.data (db w) !! name) = Some z →
  hashable item = true →
  c.1 = Ok (bool_decide (t1 ≤ t0 + ttl)) ∧
  (t1 ≤ t0 + ttl → db c.2 = db w1 ∧
     Store.as_zset (Store.data (db w1) !! name) = Some (<[m:=t0 + ttl]> z)) ∧
  (t0 + ttl < t1 →
     Store.as_zset (Store.data (db c.2) !! name) = Some (delete m z)).
Proof.
  intros time self m w1 t0 t1 c Hq Hz Hh.
  destruct w as [d sn ot rnd n]. simpl in Hq, Hz. subst ot.
  assert (Hadd : RedisTTLSet.add self item (World d sn [] rnd n)
    = (Ok tt, World (Store.put name (Store.RZSet (<[m:=t0 + ttl]> z)) d)
                    (sn ++ [Cmd (Store.ZADD name [(t0 + ttl, m)])]) [] rnd n)).
  { unfold RedisTTLSet.add, self.
    cbn [RedisTTLSet.time RedisTTLSet.ttl RedisTTLSet.dict
         RedisTTLSet.__init__].
    rewrite bind_eq. unfold time at 1. cbn [fst snd sent].
    by rewrite (zset_setitem_quiet _ item _ (clock sn + ttl) z). }
  subst c t1 w1. rewrite Hadd. cbn [fst snd db sent].
  set (t1 := clock _).
  set (z1 := <[m:=t0 + ttl]> z).
  assert (Hz1 : Store.as_zset
            (Store.data (Store.put name (Store.RZSet z1) d) !! name)
          = Some z1).
  { simpl. by rewrite lookup_insert_eq. }
  assert (Hc : RedisTTLSet.__contains__ self item
      (World (Store.put name (Store.RZSet z1) d)
             (sn ++ [Cmd (Store.ZADD name [(t0 + ttl, m)])]) [] rnd n)
    = if decide (t0 + ttl < t1) then
        (Ok false,
         World (Store.put_zset name (delete m z1)
                  (Store.put name (Store.RZSet z1) d))
               ((sn ++ [Cmd (Store.ZADD name [(t0 + ttl, m)])])
                ++ [Cmd (Store.ZSCORE name m)] ++ [Cmd (Store.ZREM name m)])
               [] rnd n)
      else
        (Ok true,
         World (Store.put name (Store.RZSet z1) d)
               ((sn ++ [Cmd (Store.ZADD name [(t0 + ttl, m)])])
                ++ [Cmd (Store.ZSCORE name m)]) [] rnd n)).
  { unfold RedisTTLSet.__contains__, RedisSortedSet.get, catch, self.
    cbn [RedisTTLSet.time RedisTTLSet.ttl RedisTTLSet.dict
         RedisTTLSet.__init__].
    rewrite bind_eq, fmap_eq.
    rewrite (zset_getitem_quiet _ item z1) by apply Hz1.
    cbn [RedisSortedSet.serializer RedisSortedSet.name].
    fold m. subst z1. rewrite lookup_insert_eq. cbn [fst snd].
    rewrite bind_eq. unfold time at 1. cbn [fst snd sent]. fold t1.
    destruct (decide (t0 + ttl < t1)) as [Hlt|Hge]; [|done].
    rewrite bind_eq.
    unfold RedisTTLSet.discard, catch, RedisSortedSet.__delitem__, redis.zrem.
    cbn [RedisTTLSet.dict RedisTTLSet.__init__
         RedisSortedSet.serializer RedisSortedSet.name].
    fold m. rewrite !bind_eq, execute_quiet.
    cbn [Store.exec fst snd]. rewrite Hz1, lookup_insert_eq.
    cbn. by rewrite <-(assoc_L (++)). }
  rewrite Hc. destruct (decide (t0 + ttl < t1)) as [Hlt|Hge]; cbn [fst snd db].
  - rewrite bool_decide_false by lia. split_and!; [done|lia|].
    intros _. rewrite as_zset_put_zset. unfold z1.
    rewrite delete_insert_eq. done.
  - rewrite bool_decide_true by lia. split_and!; [done| |lia].
    intros _. split; [done|]. apply Hz1.
Qed.

(** A clock that counts the commands sent: the deadline of an item added
    at 0 with a time to live of 1 has passed when [__contains__] reads 2. *)
Lemma ttl_add_then_contains_witness :
  let clock (l : list event) := Z.of_nat (length l) in
  let time : M Z := λ w, (Ok (clock (sent w)), w) in
  let at_ (ttl : Z) := RedisTTLSet.__init__ "foo" ttl Example.pickle time in
  let after_add (ttl : Z) :=
    (RedisTTLSet.add (at_ ttl) (PyStr "grunge") Example.fresh).2 in
  (RedisTTLSet.__contains__ (at_ 1) (PyStr "grunge") (after_add 1)).1
  = Ok false ∧
  (RedisTTLSet.__contains__ (at_ 2) (PyStr "grunge") (after_add 2)).1
  = Ok true.
Proof.
  intros clock time at_ after_add. split.
  - exact (proj1 (ttl_add_then_contains "foo" 1 Example.pickle clock
                    (PyStr "grunge") Example.fresh ∅ eq_refl eq_refl eq_refl)).
  - exact (proj1 (ttl_add_then_contains "foo" 2 Example.pickle clock
                    (PyStr "grunge") Example.fresh ∅ eq_refl eq_refl eq_refl)).
Defined.

(** * [RedisTime] *)



(** * More of [_dict_eq] *)

Section dict_eq_more.
Context {K V : Type} `{Countable K} `{EqDecision V}.

Lemma dict_eq_decides (a b : list (K * V)) :
  NoDup a.*1 → NoDup b.*1 →
  DictEq._dict_eq a b
  = DictEq.Return (bool_decide (list_to_map a =@{gmap K V} list_to_map b)).
Proof.
  intros Ha Hb. unfold DictEq._dict_eq. case_decide as Hl.
  { rewrite bool_decide_false; [done|]. intros Heq. apply Hl.
    rewrite <-(map_size_list_to_map (M:=gmap K) a) by done.
    by rewrite Heq, map_size_list_to_map. }
  pose proof (DictEq.compare_items_total a b Ha Hb Hl) as Ht.
  destruct (DictEq.compare_items _ _ _ _ _) as [| | |am bm]; try done.
  - by rewrite bool_decide_false.
  - by rewrite bool_decide_false.
  - f_equal. apply bool_decide_ext. split.
    + intros Hsz.
      assert (am = ∅) as -> by (apply map_size_empty_iff; lia).
      assert (bm = ∅) as -> by (apply map_size_empty_iff; lia).
      by apply DictEq.inv_no_misses.
    + intros Heq. destruct Ht as [-> -> _].
      by rewrite Heq, map_difference_diag, map_size_empty.
Qed.

Lemma compare_same_order (n : nat) (a : list (K * V)) :
  ∀ (b : list (K * V)) (am bm : gmap K V),
  a.*1 = b.*1 → (size am + size bm ≤ n)%nat →
  DictEq.compare_items n a b am bm
  = if decide (a = b) then DictEq.Finished am bm else DictEq.ValueMismatch.
Proof.
  induction a as [|[ak av] a IH]; intros [|[bk bv] b] am bm Hk Hsz;
    simplify_eq/=.
  { done. }
  destruct (decide (bk = bk)) as [_|?]; [|done].
  destruct (decide (av ≠ bv)) as [Hv|Hv].
  { case_decide; [|done]. by simplify_eq. }
  apply dec_stable in Hv as <-.
  destruct (decide (n < size am + size bm)%nat); [lia|].
  rewrite IH by done.
  repeat case_decide; by simplify_eq.
Qed.

(** X22. [_dict_eq] gives the same answer whichever of the two
    dictionaries comes first, although its loop treats them in turn: the
    misses of [a] are looked up first at every step. *)
Theorem dict_eq_symmetric (a b : list (K * V)) :
  NoDup a.*1 → NoDup b.*1 → DictEq._dict_eq a b = DictEq._dict_eq b a.
Proof.
  intros Ha Hb. rewrite !dict_eq_decides by done. f_equal.
  apply bool_decide_ext. split; by intros ->.
Qed.

(** X23. When both dictionaries give their keys in the same order, the
    loop never stores a miss: from any state of the two stores of misses
    it ends with the stores as they were, or stops at the first value that
    differs; [_dict_eq] then answers whether the two sequences of items
    are equal. *)
Theorem dict_eq_same_order (a b : list (K * V)) :
  a.*1 = b.*1 →
  (∀ n am bm, (size am + size bm ≤ n)%nat →
     DictEq.compare_items n a b am bm
     = if decide (a = b) then DictEq.Finished am bm
       else DictEq.ValueMismatch) ∧
  DictEq._dict_eq a b = DictEq.Return (bool_decide (a = b)).
Proof.
  intros Hk. split.
  - intros n am bm Hsz. by apply compare_same_order.
  - unfold DictEq._dict_eq.
    assert (Hlen : length a = length b).
    { by rewrite <-(length_fmap fst a), Hk, length_fmap. }
    rewrite decide_False by (by intros ?).
    rewrite compare_same_order by (by rewrite ?map_size_empty; lia || done).
    destruct (decide (a = b)) as [Hab|Hab].
    + rewrite (bool_decide_true (a = b)) by done.
      by rewrite map_size_empty.
    + by rewrite (bool_decide_false (a = b)).
Qed.

End dict_eq_more.

Lemma dict_eq_symmetric_witness :
  DictEq._dict_eq DictEq.abc DictEq.cab = DictEq._dict_eq DictEq.cab DictEq.abc.
Proof.
  apply dict_eq_symmetric; apply (bool_decide_unpack _); vm_compute; exact I.
Defined.

Lemma dict_eq_same_order_witness :
  DictEq._dict_eq DictEq.abc [("a", 1); ("b", 7); ("c", 3)]
  = DictEq.Return false.
Proof.
  exact (proj2 (dict_eq_same_order DictEq.abc [("a", 1); ("b", 7); ("c", 3)]
                  eq_refl)).
Defined.
